(** * Internal-Engine: memory access layer, scanner, length disassembler and
    detour engine, embedded from [MemoryEngine.cpp] and [DetoursLite.cpp].

    Integers of the C++ code are [Z]; every [uintptr_t] / [size_t]
    computation is reduced modulo the pointer width, every [DWORD] /
    [int32_t] store modulo 2^32.  Bytes are [Z] values, a byte buffer is a
    [list Z].  The operating system is an interface ([OS]): the code is
    embedded once, for every behaviour of the system calls. *)

From Stdlib Require Import ZArith Bool Lia Ascii String List.
Import ListNotations.
Local Open Scope Z_scope.

(* ================================================================== *)
(** ** Target platform and machine words *)

(** [DetoursLite::is64Bit]: [true] when built with [_WIN64]. *)
Class Platform := { is64Bit : bool }.

Definition x64 : Platform := {| is64Bit := true |}.
Definition x86 : Platform := {| is64Bit := false |}.

Section Words.
Context {P : Platform}.

Definition ptr_bits : Z := if is64Bit then 64 else 32.
Definition ptr_mod : Z := 2 ^ ptr_bits.

(** Arithmetic on [uintptr_t] and [size_t] wraps around. *)
Definition wrap (x : Z) : Z := x mod ptr_mod.

(** [sizeof(uintptr_t)]. *)
Definition word_size : Z := if is64Bit then 8 else 4.

(** Modelled from the C++ standard library, which is not part of the
    repository: [std::vector<uint8_t>::max_size()] is [PTRDIFF_MAX], and
    [resize] beyond it raises [std::length_error]. *)
Definition vector_max_size : Z := 2 ^ (ptr_bits - 1) - 1.
End Words.

Definition uint8 (x : Z) : Z := x mod 256.
Definition uint32 (x : Z) : Z := x mod 2 ^ 32.

(** Two's complement reading of a 32-bit pattern ([int32_t]). *)
Definition int32 (x : Z) : Z :=
  let u := uint32 x in if u <? 2 ^ 31 then u else u - 2 ^ 32.

(** Two's complement reading of an 8-bit pattern ([int8_t]). *)
Definition int8 (x : Z) : Z :=
  let u := uint8 x in if u <? 2 ^ 7 then u else u - 2 ^ 8.

(** Two's complement reading of a 64-bit pattern ([int64_t]). *)
Definition int64 (x : Z) : Z :=
  let u := x mod 2 ^ 64 in if u <? 2 ^ 63 then u else u - 2 ^ 64.

(** Little-endian image of an integer in [n] bytes ([memcpy] of a scalar). *)
Fixpoint le_bytes (n : nat) (x : Z) : list Z :=
  match n with
  | O => []
  | S k => uint8 x :: le_bytes k (x / 256)
  end.

(** Little-endian value of a byte buffer ([memcpy] into a scalar). *)
Fixpoint le_value (bs : list Z) : Z :=
  match bs with
  | [] => 0
  | b :: r => uint8 b + 256 * le_value r
  end.

(** Byte-wise comparison of two buffers of the same length. *)
Fixpoint bytes_eqb (a b : list Z) : bool :=
  match a, b with
  | [], [] => true
  | x :: a', y :: b' => (x =? y) && bytes_eqb a' b'
  | _, _ => false
  end.

(* ================================================================== *)
(** ** The Windows services the engine calls *)

Definition MEM_COMMIT : Z := 0x1000.
Definition PAGE_NOACCESS : Z := 0x01.
Definition PAGE_READONLY : Z := 0x02.
Definition PAGE_READWRITE : Z := 0x04.
Definition PAGE_WRITECOPY : Z := 0x08.
Definition PAGE_EXECUTE : Z := 0x10.
Definition PAGE_EXECUTE_READ : Z := 0x20.
Definition PAGE_EXECUTE_READWRITE : Z := 0x40.
Definition PAGE_EXECUTE_WRITECOPY : Z := 0x80.

Record MEMORY_BASIC_INFORMATION := {
  BaseAddress : Z;
  RegionSize : Z;
  State : Z;
  Protect : Z
}.

(** The system calls, over an abstract system state [W].
    - [VirtualQuery s a]: [None] when the call returns 0.
    - [VirtualProtect s a n p]: [None] when the call fails (nothing
      changes), otherwise the previous protection and the new state.
    - [VirtualAlloc s n]: [VirtualAlloc(nullptr, n, MEM_COMMIT|MEM_RESERVE,
      PAGE_EXECUTE_READWRITE)]; [None] when it returns a null pointer.
    - [VirtualFree s a]: [VirtualFree(a, 0, MEM_RELEASE)].
    - [may_read s a] / [may_write s a]: whether touching the byte at [a]
      completes, or raises an access violation. *)
Class OS (W : Type) := {
  VirtualQuery : W -> Z -> option MEMORY_BASIC_INFORMATION;
  VirtualProtect : W -> Z -> Z -> Z -> option (Z * W);
  VirtualAlloc : W -> Z -> option (Z * W);
  VirtualFree : W -> Z -> W;
  may_read : W -> Z -> bool;
  may_write : W -> Z -> bool
}.

(** The bytes of the address space. *)
Definition memory := Z -> Z.

Definition store (m : memory) (a v : Z) : memory :=
  fun x => if x =? a then v else m x.

(** [memcpy(buffer, a, n)]: the [n] bytes at [a]. *)
Fixpoint load_bytes (m : memory) (a : Z) (n : nat) : list Z :=
  match n with
  | O => []
  | S k => m a :: load_bytes m (a + 1) k
  end.

(** [memcpy(a, buffer, |bs|)]. *)
Fixpoint store_bytes (m : memory) (a : Z) (bs : list Z) : memory :=
  match bs with
  | [] => m
  | b :: r => store_bytes (store m a b) (a + 1) r
  end.

(** What a C++ call yields: a value, or an exception that leaves it. *)
Inductive exn := length_error.

Inductive outcome (A : Type) :=
| Returned (a : A)
| Raised (e : exn).
Arguments Returned {A} a.
Arguments Raised {A} e.

(* ================================================================== *)
(** ** MemoryEngine.cpp *)

Module MemoryEngine.
Section Engine.
Context {P : Platform} {W : Type} {sys : OS W}.

(** [MemoryEngine::IsAddressValid]. *)
Definition IsAddressValid (s : W) (address size : Z) : bool :=
  if address =? 0 then false
  else
    match VirtualQuery s address with
    | None => false
    | Some mbi =>
        if negb (State mbi =? MEM_COMMIT) then false
        else
          let endAddress := wrap (address + size - 1) in
          let regionEnd := wrap (BaseAddress mbi + RegionSize mbi - 1) in
          endAddress <=? regionEnd
    end.

Definition readable_mask : Z :=
  Z.lor PAGE_READONLY (Z.lor PAGE_READWRITE (Z.lor PAGE_EXECUTE_READ
    (Z.lor PAGE_EXECUTE_READWRITE (Z.lor PAGE_WRITECOPY PAGE_EXECUTE_WRITECOPY)))).

Definition writable_mask : Z :=
  Z.lor PAGE_READWRITE (Z.lor PAGE_EXECUTE_READWRITE
    (Z.lor PAGE_WRITECOPY PAGE_EXECUTE_WRITECOPY)).

(** [MemoryEngine::IsAddressReadable]: the region is queried a second
    time for its protection. *)
Definition IsAddressReadable (s : W) (address size : Z) : bool :=
  if negb (IsAddressValid s address size) then false
  else
    match VirtualQuery s address with
    | None => false
    | Some mbi => negb (Z.land (Protect mbi) readable_mask =? 0)
    end.

(** [MemoryEngine::IsAddressWritable]. *)
Definition IsAddressWritable (s : W) (address size : Z) : bool :=
  if negb (IsAddressValid s address size) then false
  else
    match VirtualQuery s address with
    | None => false
    | Some mbi => negb (Z.land (Protect mbi) writable_mask =? 0)
    end.

(** The static helper [SafeMemcpy], used to copy out of the address
    space under [__try]: [None] is the [__except] branch. *)
Fixpoint SafeMemcpy (s : W) (m : memory) (src : Z) (size : nat) : option (list Z) :=
  match size with
  | O => Some []
  | S k =>
      if may_read s src then
        match SafeMemcpy s m (src + 1) k with
        | Some r => Some (m src :: r)
        | None => None
        end
      else None
  end.

(** [MemoryEngine::SafeReadBytes]. *)
Definition SafeReadBytes (s : W) (m : memory) (address size : Z) : outcome (list Z) :=
  if negb (IsAddressReadable s address size) then Returned []
  else if vector_max_size <? size then Raised length_error
  else
    match SafeMemcpy s m address (Z.to_nat size) with
    | Some buffer => Returned buffer
    | None => Returned []
    end.

(** The [memcpy] of [SafeWriteMemory], inside its [__try]: bytes are
    written in order until one faults; the flag tells whether the copy
    completed. *)
Fixpoint guarded_store (s : W) (m : memory) (dst : Z) (data : list Z) : memory * bool :=
  match data with
  | [] => (m, true)
  | b :: r =>
      if may_write s dst then guarded_store s (store m dst b) (dst + 1) r
      else (m, false)
  end.

(** The static helper [SafeWriteMemory]: result, system state and memory
    after the call.  The result of the second [VirtualProtect] is not
    looked at. *)
Definition SafeWriteMemory (s : W) (m : memory) (address : Z) (data : list Z)
  : bool * W * memory :=
  let size := Z.of_nat (length data) in
  match VirtualProtect s address size PAGE_EXECUTE_READWRITE with
  | None => (false, s, m)
  | Some (oldProtect, s1) =>
      match guarded_store s1 m address data with
      | (m1, false) => (false, s1, m1)
      | (m1, true) =>
          match VirtualProtect s1 address size oldProtect with
          | Some (_, s2) => (true, s2, m1)
          | None => (true, s1, m1)
          end
      end
  end.

(** [MemoryEngine::SafeWriteBytes]. *)
Definition SafeWriteBytes (s : W) (m : memory) (address : Z) (bytes : list Z)
  : bool * W * memory :=
  match bytes with
  | [] => (false, s, m)
  | _ =>
      if negb (IsAddressValid s address (Z.of_nat (length bytes))) then (false, s, m)
      else SafeWriteMemory s m address bytes
  end.

(** [MemoryEngine::SafeRead<T>] for an unsigned integer type of [size]
    bytes. *)
Definition SafeRead (s : W) (m : memory) (address size : Z) : option Z :=
  if negb (IsAddressReadable s address size) then None
  else
    match SafeMemcpy s m address (Z.to_nat size) with
    | Some bs => Some (le_value bs)
    | None => None
    end.

(** The loop of [MemoryEngine::FollowPointerChain], from index [i] on;
    [size] is [offsets.size()] and [rest] the offsets not yet applied. *)
Fixpoint FollowPointerChain_from (s : W) (m : memory) (size i : Z) (rest : list Z)
  (currentAddress : Z) : option Z :=
  match rest with
  | [] => Some currentAddress
  | offset :: rest' =>
      match SafeRead s m currentAddress word_size with
      | None => None
      | Some ptrValue =>
          let currentAddress := wrap (ptrValue + offset) in
          if (i <? wrap (size - 1))
             && negb (IsAddressReadable s currentAddress word_size)
          then None
          else FollowPointerChain_from s m size (i + 1) rest' currentAddress
      end
  end.

(** [MemoryEngine::FollowPointerChain]. *)
Definition FollowPointerChain (s : W) (m : memory) (baseAddress : Z) (offsets : list Z)
  : option Z :=
  FollowPointerChain_from s m (Z.of_nat (length offsets)) 0 offsets baseAddress.

(** The pointer-sized word that memory holds at [p], little-endian. *)
Definition word_at (m : memory) (p : Z) : Z :=
  le_value (map (fun i => m (p + Z.of_nat i)) (seq 0 (Z.to_nat word_size))).

(** Whether the word at [p] can be read: the range [[p, p + word_size)]
    passes the readability gate, and no byte of it faults. *)
Definition word_readable (s : W) (p : Z) : bool :=
  IsAddressReadable s p word_size
  && forallb (fun i => may_read s (p + Z.of_nat i)) (seq 0 (Z.to_nat word_size)).

(** The pointer chain as the specification words it: start at [p]; for
    each offset, the word at [p] must be readable, [q] is the word that
    memory holds there, and the walk goes on from [q + offset]; the
    address reached after the last offset is returned as it is.  Nothing
    here goes through the engine's read. *)
Fixpoint pointer_chain_spec (s : W) (m : memory) (p : Z) (offsets : list Z) : option Z :=
  match offsets with
  | [] => Some p
  | o :: rest =>
      if word_readable s p
      then pointer_chain_spec s m (wrap (word_at m p + o)) rest
      else None
  end.

End Engine.

(* ------------------------------------------------------------------ *)
(** *** Scanner *)

Record MemoryRegion := {
  baseAddress : Z;
  size : Z;
  protection : Z;
  readable : bool;
  writable : bool;
  executable : bool
}.

Inductive TriState := Any | Yes | No.

Record ScanResult := {
  address : Z;
  value : list Z;
  type : string;
  previousValue : list Z
}.

(** [previousResults] is a pointer: [None] is [nullptr]. *)
Record ScanOptions := {
  startAddress : Z;
  endAddress : Z;
  alignment : Z;
  filterWritable : TriState;
  filterExecutable : TriState;
  filterCopyOnWrite : TriState;
  previousResults : option (list ScanResult)
}.

(** The lambda [checkState] of [IsRegionScannable]. *)
Definition checkState (state : TriState) (condition : bool) : bool :=
  match state with
  | Yes => condition
  | No => negb condition
  | Any => true
  end.

(** [MemoryEngine::IsRegionScannable]. *)
Definition IsRegionScannable (region : MemoryRegion) (options : ScanOptions) : bool :=
  let cow := negb (Z.land (protection region) PAGE_WRITECOPY =? 0)
             || negb (Z.land (protection region) PAGE_EXECUTE_WRITECOPY =? 0) in
  if negb (readable region) then false
  else if negb (checkState (filterWritable options) (writable region)) then false
  else if negb (checkState (filterExecutable options) (executable region)) then false
  else
    match filterCopyOnWrite options with
    | Yes => cow
    | No => negb cow
    | Any => true
    end.

Section Scanner.
Context {P : Platform} {W : Type} {sys : OS W}.

(** What indexing a [std::vector] buffer at [i] reads: its own bytes, and
    past its end whatever the heap holds there ([beyond], indexed from the
    end of the buffer). *)
Definition buffer_at (buffer : list Z) (beyond : Z -> Z) (i : Z) : Z :=
  if i <? Z.of_nat (length buffer) then nth (Z.to_nat i) buffer 0
  else beyond (i - Z.of_nat (length buffer)).

(** The positions at which the body of
    [for (size_t i = 0; i <= data.size() - needle.size(); i += stride)]
    runs during its first [fuel] iterations, continuing from [i].  The
    bound is computed in [size_t]. *)
Fixpoint scan_positions (fuel : nat) (dataSize needleSize stride i : Z) : list Z :=
  match fuel with
  | O => []
  | S k =>
      if i <=? wrap (dataSize - needleSize)
      then i :: scan_positions k dataSize needleSize stride (wrap (i + stride))
      else []
  end.

(** [memcmp(regionData.data() + i, needle.data(), needle.size()) == 0]
    (also [MemoryEngine::CompareBytes]). *)
Fixpoint CompareBytes (data : list Z) (beyond : Z -> Z) (i : Z) (pattern : list Z) : bool :=
  match pattern with
  | [] => true
  | b :: r => (buffer_at data beyond i =? b) && CompareBytes data beyond (i + 1) r
  end.

(** [MemoryEngine::ComparePattern]: the loop runs over the mask; the
    character ['x'] is 120. *)
Fixpoint ComparePattern (data : list Z) (beyond : Z -> Z) (i : Z) (pattern mask : list Z)
  : bool :=
  match mask with
  | [] => true
  | c :: mask' =>
      if (c =? 120) && negb (buffer_at data beyond i =? uint8 (hd 0 pattern))
      then false
      else ComparePattern data beyond (i + 1) (tl pattern) mask'
  end.

(** The inner loop of [MemoryEngine::FirstScan] over one block. *)
Definition FirstScan_block (fuel : nat) (regionData : list Z) (beyond : Z -> Z)
  (valueBytes : list Z) (type : string) (options : ScanOptions) (start : Z)
  : list ScanResult :=
  map (fun i => {| address := wrap (start + i); value := valueBytes;
                   type := type; previousValue := [] |})
      (filter (fun i => CompareBytes regionData beyond i valueBytes)
              (scan_positions fuel (Z.of_nat (length regionData))
                 (Z.of_nat (length valueBytes)) (alignment options) 0)).

(** The inner loop of [MemoryEngine::ScanForValue] over one block. *)
Definition ScanForValue_block (fuel : nat) (regionData : list Z) (beyond : Z -> Z)
  (value : list Z) (options : ScanOptions) (start : Z) : list ScanResult :=
  map (fun i => {| address := wrap (start + i); value := value;
                   type := "bytes"; previousValue := [] |})
      (filter (fun i => CompareBytes regionData beyond i value)
              (scan_positions fuel (Z.of_nat (length regionData))
                 (Z.of_nat (length value)) (alignment options) 0)).

(** The inner loop of [MemoryEngine::PatternScanAll] over one block. *)
Definition PatternScanAll_block (fuel : nat) (data : list Z) (beyond : Z -> Z)
  (pattern mask : list Z) (regionStart : Z) : list Z :=
  map (fun i => wrap (regionStart + i))
      (filter (fun i => ComparePattern data beyond i pattern mask)
              (scan_positions fuel (Z.of_nat (length data))
                 (Z.of_nat (length pattern)) 1 0)).

(** [memcpy(&x, buffer.data(), n)]: the scalar held in the first [n]
    bytes of a buffer. *)
Definition read_scalar (buffer : list Z) (beyond : Z -> Z) (n : nat) : Z :=
  le_value (map (fun i => buffer_at buffer beyond (Z.of_nat i)) (seq 0 n)).

(** The template [CompareNumericValues], at the integer types. *)
Definition CompareNumericValues (current previous : Z) (scanType : string) : bool :=
  if String.eqb scanType "increased" then previous <? current
  else if String.eqb scanType "decreased" then current <? previous
  else false.

(** Parsing of a literal ([StringToValue], on [std::stoi] and the like)
    and the comparison of IEEE values are left to the caller of the
    model: [CompareFloatValues type current previous scanType]. *)
Variable StringToValue : string -> string -> list Z.
Variable CompareFloatValues : string -> list Z -> list Z -> string -> bool.

(** The decision [match] of one iteration of [MemoryEngine::NextScan]. *)
Definition NextScan_match (beyond : Z -> Z) (scanType value : string)
  (prevResult : ScanResult) (currentValueBytes : list Z) : bool :=
  let prev := MemoryEngine.value prevResult in
  let ty := type prevResult in
  if String.eqb scanType "exact" then
    let valueToCompare := StringToValue value ty in
    match valueToCompare with
    | [] => false
    | _ => CompareBytes valueToCompare beyond 0 currentValueBytes
    end
  else if String.eqb scanType "unchanged" then
    CompareBytes prev beyond 0 currentValueBytes
  else if String.eqb scanType "changed" then
    negb (CompareBytes prev beyond 0 currentValueBytes)
  else if String.eqb ty "int32" then
    CompareNumericValues (int32 (read_scalar currentValueBytes beyond 4))
                         (int32 (read_scalar prev beyond 4)) scanType
  else if String.eqb ty "int64" then
    CompareNumericValues (int64 (read_scalar currentValueBytes beyond 8))
                         (int64 (read_scalar prev beyond 8)) scanType
  else if String.eqb ty "float" then
    CompareFloatValues ty currentValueBytes prev scanType
  else if String.eqb ty "double" then
    CompareFloatValues ty currentValueBytes prev scanType
  else false.

(** The loop of [MemoryEngine::NextScan] over the previous results. *)
Fixpoint NextScan_loop (s : W) (m : memory) (beyond : Z -> Z) (scanType value : string)
  (previous : list ScanResult) : outcome (list ScanResult) :=
  match previous with
  | [] => Returned []
  | prevResult :: rest =>
      match SafeReadBytes s m (address prevResult)
              (Z.of_nat (length (MemoryEngine.value prevResult))) with
      | Raised e => Raised e
      | Returned currentValueBytes =>
          match NextScan_loop s m beyond scanType value rest with
          | Raised e => Raised e
          | Returned newResults =>
              if match currentValueBytes with [] => true | _ => false end
                 || negb (Nat.eqb (length currentValueBytes)
                                  (length (MemoryEngine.value prevResult)))
              then Returned newResults
              else if NextScan_match beyond scanType value prevResult currentValueBytes
              then Returned ({| address := address prevResult;
                                value := currentValueBytes;
                                type := type prevResult;
                                previousValue := MemoryEngine.value prevResult |}
                             :: newResults)
              else Returned newResults
          end
      end
  end.

(** [MemoryEngine::NextScan]. *)
Definition NextScan (s : W) (m : memory) (beyond : Z -> Z) (scanType value : string)
  (options : ScanOptions) : outcome (list ScanResult) :=
  match previousResults options with
  | None => Returned []
  | Some [] => Returned []
  | Some previous => NextScan_loop s m beyond scanType value previous
  end.

(** What [NextScan] emits for a previous result whose bytes now read
    [current]. *)
Definition emitted (q : ScanResult) (current : list Z) : ScanResult :=
  {| address := address q; value := current;
     type := type q; previousValue := MemoryEngine.value q |}.

(** A previous result is still readable when [SafeReadBytes], asked for
    as many bytes as its recorded value has, returns bytes. *)
Definition still_readable (s : W) (m : memory) (q : ScanResult) (current : list Z) : Prop :=
  SafeReadBytes s m (address q) (Z.of_nat (length (MemoryEngine.value q)))
  = Returned current
  /\ current <> [].

End Scanner.

(* ------------------------------------------------------------------ *)
(** *** Patching, typed reads, value comparison, region walk *)

Section Tools.
Context {P : Platform} {W : Type} {sys : OS W}.

(** [MemoryEngine::SafeWrite<T>], on the object representation [data]
    of the value ([sizeof(T)] bytes).  Unlike [SafeWriteBytes] it asks
    for a writable region first. *)
Definition SafeWrite (s : W) (m : memory) (address : Z) (data : list Z)
  : bool * W * memory :=
  let size := Z.of_nat (length data) in
  if negb (IsAddressWritable s address size) then (false, s, m)
  else
    match VirtualProtect s address size PAGE_EXECUTE_READWRITE with
    | None => (false, s, m)
    | Some (oldProtect, s1) =>
        match guarded_store s1 m address data with
        | (m1, false) => (false, s1, m1)
        | (m1, true) =>
            match VirtualProtect s1 address size oldProtect with
            | Some (_, s2) => (true, s2, m1)
            | None => (true, s1, m1)
            end
        end
    end.

(** [MemoryEngine::NopInstruction]: the vector of [size] bytes [0x90] is
    built first (beyond [max_size] its constructor raises). *)
Definition NopInstruction (s : W) (m : memory) (address size : Z)
  : outcome (bool * W * memory) :=
  if vector_max_size <? size then Raised length_error
  else Returned (SafeWriteBytes s m address (repeat 0x90 (Z.to_nat size))).

(** [MemoryEngine::PatchBytes]: [currentBytes != originalBytes] is the
    comparison of two vectors (sizes, then elements). *)
Definition PatchBytes (s : W) (m : memory) (address : Z)
  (originalBytes newBytes : list Z) : outcome (bool * W * memory) :=
  match SafeReadBytes s m address (Z.of_nat (length originalBytes)) with
  | Raised e => Raised e
  | Returned currentBytes =>
      if negb (bytes_eqb currentBytes originalBytes) then Returned (false, s, m)
      else Returned (SafeWriteBytes s m address newBytes)
  end.

(** [MemoryEngine::RestoreBytes]. *)
Definition RestoreBytes (s : W) (m : memory) (address : Z) (originalBytes : list Z)
  : bool * W * memory :=
  SafeWriteBytes s m address originalBytes.

(** The search for the terminator in [ReadValueAtAddress] (type
    "string"): [nullPos] after the loop over [bytes], started with
    [nullPos] and index [i]. *)
Fixpoint find_null (bytes : list Z) (i : nat) : nat :=
  match bytes with
  | [] => i
  | b :: r => if b =? 0 then i else find_null r (S i)
  end.

(** [MemoryEngine::ReadValueAtAddress].  [None] is [std::nullopt].  The
    branches "float" and "double" read the value into a floating-point
    object and copy it out again; [through_float type bytes] stands for
    the bytes of that object. *)
Definition ReadValueAtAddress (through_float : string -> list Z -> list Z)
  (s : W) (m : memory) (address : Z) (type : string) : option (list Z) :=
  if String.eqb type "int32" || String.eqb type "int" then
    match SafeRead s m address 4 with
    | None => None
    | Some v => Some (le_bytes 4 v)
    end
  else if String.eqb type "int64" then
    match SafeRead s m address 8 with
    | None => None
    | Some v => Some (le_bytes 8 v)
    end
  else if String.eqb type "float" then
    match SafeRead s m address 4 with
    | None => None
    | Some v => Some (through_float type (le_bytes 4 v))
    end
  else if String.eqb type "double" then
    match SafeRead s m address 8 with
    | None => None
    | Some v => Some (through_float type (le_bytes 8 v))
    end
  else if String.eqb type "byte" then
    match SafeRead s m address 1 with
    | None => None
    | Some v => Some [v]
    end
  else if String.eqb type "string" then
    match SafeReadBytes s m address 256 with
    | Raised _ => None
    | Returned [] => None
    | Returned bytes => Some (firstn (find_null bytes 0) bytes)
    end
  else if String.eqb type "bytes" then
    match SafeReadBytes s m address 16 with
    | Raised _ => None
    | Returned bytes => Some bytes
    end
  else None.

(** [memcmp] of two buffers of the same length, as the sign of the first
    difference of unsigned bytes. *)
Fixpoint memcmp (a b : list Z) : Z :=
  match a, b with
  | x :: a', y :: b' =>
      if uint8 x <? uint8 y then -1
      else if uint8 y <? uint8 x then 1
      else memcmp a' b'
  | _, _ => 0
  end.

Definition three_way (val1 val2 : Z) : Z :=
  if val2 <? val1 then 1 else if val1 <? val2 then -1 else 0.

(** [MemoryEngine::CompareValues] for the types compared as integers or
    as byte strings; [compare_float] stands for the two floating-point
    branches. *)
Definition CompareValues (compare_float : string -> list Z -> list Z -> Z)
  (value1 value2 : list Z) (type : string) : Z :=
  match value1, value2 with
  | [], _ => 0
  | _, [] => 0
  | _, _ =>
      if String.eqb type "int32" || String.eqb type "int" then
        if (length value1 <? 4)%nat || (length value2 <? 4)%nat then 0
        else three_way (int32 (le_value (firstn 4 value1)))
                       (int32 (le_value (firstn 4 value2)))
      else if String.eqb type "int64" then
        if (length value1 <? 8)%nat || (length value2 <? 8)%nat then 0
        else three_way (int64 (le_value (firstn 8 value1)))
                       (int64 (le_value (firstn 8 value2)))
      else if String.eqb type "float" then
        if (length value1 <? 4)%nat || (length value2 <? 4)%nat then 0
        else compare_float type value1 value2
      else if String.eqb type "double" then
        if (length value1 <? 8)%nat || (length value2 <? 8)%nat then 0
        else compare_float type value1 value2
      else if String.eqb type "byte" then
        three_way (uint8 (hd 0 value1)) (uint8 (hd 0 value2))
      else
        if negb (Nat.eqb (length value1) (length value2)) then
          if (length value2 <? length value1)%nat then 1 else -1
        else memcmp value1 value2
  end.

(** The region record that [GetMemoryRegions] and [GetMemoryRegion] fill
    in from an answer of [VirtualQuery]. *)
Definition region_of_mbi (mbi : MEMORY_BASIC_INFORMATION) : MemoryRegion :=
  {| baseAddress := BaseAddress mbi;
     size := RegionSize mbi;
     protection := Protect mbi;
     readable := negb (Z.land (Protect mbi) readable_mask =? 0);
     writable := negb (Z.land (Protect mbi) writable_mask =? 0);
     executable :=
       negb (Z.land (Protect mbi)
               (Z.lor PAGE_EXECUTE (Z.lor PAGE_EXECUTE_READ
                  (Z.lor PAGE_EXECUTE_READWRITE PAGE_EXECUTE_WRITECOPY))) =? 0) |}.

(** The walk of [MemoryEngine::GetMemoryRegions], continuing at
    [address]; it runs as long as the system answers, so the model gives
    it [fuel] queries ([None]: not finished by then). *)
Fixpoint GetMemoryRegions_from (fuel : nat) (s : W) (address : Z)
  : option (list MemoryRegion) :=
  match fuel with
  | O => None
  | S k =>
      match VirtualQuery s address with
      | None => Some []
      | Some mbi =>
          let found := if State mbi =? MEM_COMMIT then [region_of_mbi mbi] else [] in
          let next := wrap (BaseAddress mbi + RegionSize mbi) in
          if next =? 0 then Some found
          else
            match GetMemoryRegions_from k s next with
            | None => None
            | Some rest => Some (found ++ rest)
            end
      end
  end.

(** [MemoryEngine::GetMemoryRegions]. *)
Definition GetMemoryRegions (fuel : nat) (s : W) : option (list MemoryRegion) :=
  GetMemoryRegions_from fuel s 0.

(** [MemoryEngine::GetMemoryRegion]. *)
Definition GetMemoryRegion (s : W) (address : Z) : option MemoryRegion :=
  match VirtualQuery s address with
  | None => None
  | Some mbi => Some (region_of_mbi mbi)
  end.

(** [MemoryEngine::GetWritableRegions] and [GetExecutableRegions], on
    the result of the walk. *)
Definition GetWritableRegions (fuel : nat) (s : W) : option (list MemoryRegion) :=
  option_map (filter writable) (GetMemoryRegions fuel s).

Definition GetExecutableRegions (fuel : nat) (s : W) : option (list MemoryRegion) :=
  option_map (filter executable) (GetMemoryRegions fuel s).

End Tools.

(** *** Text conversions

    A [std::string] whose characters the code walks is a list of
    characters.  [std::stoul] raises [std::invalid_argument] or
    [std::out_of_range], and none of the functions below catches them. *)

Inductive conversion_error := invalid_argument | out_of_range.

Inductive converted (A : Type) :=
| Converted (a : A)
| Throws (e : conversion_error).
Arguments Converted {A} a.
Arguments Throws {A} e.

Definition char_code (c : ascii) : Z := Z.of_N (N_of_ascii c).

(** [isspace] in the classic locale, which [operator>>] skips. *)
Definition isspace (c : ascii) : bool :=
  (char_code c =? 32) || ((9 <=? char_code c) && (char_code c <=? 13)).

(** The words that [while (iss >> byte)] extracts in turn: [word] is the
    one being read. *)
Fixpoint extract_words (word : list ascii) (s : list ascii) : list (list ascii) :=
  match s with
  | [] => match word with [] => [] | _ => [word] end
  | c :: r =>
      if isspace c
      then match word with
           | [] => extract_words [] r
           | _ => word :: extract_words [] r
           end
      else extract_words (word ++ [c]) r
  end.

Definition hex_digit (d : Z) : ascii :=
  nth (Z.to_nat d) (list_ascii_of_string "0123456789ABCDEF") "0"%char.

(** [ss << std::hex << std::uppercase << std::setfill('0') << std::setw(2)
    << static_cast<int>(byte)]. *)
Definition hex_byte (byte : Z) : list ascii :=
  [hex_digit (uint8 byte / 16); hex_digit (uint8 byte mod 16)].

(** [MemoryEngine::BytesToHexString]. *)
Definition BytesToHexString (bytes : list Z) : list ascii :=
  let result := flat_map (fun byte => hex_byte byte ++ [" "%char]) bytes in
  match result with
  | [] => result
  | _ => removelast result
  end.

(** [MemoryEngine::BytesToPattern]: the loop from index [i]. *)
Fixpoint BytesToPattern_from (i : nat) (bytes : list Z) : list ascii :=
  match bytes with
  | [] => []
  | byte :: r =>
      (if (0 <? i)%nat then [" "%char] else [])
        ++ hex_byte byte ++ BytesToPattern_from (S i) r
  end.

Definition BytesToPattern (bytes : list Z) : list ascii := BytesToPattern_from 0 bytes.

(** [byte == "?" || byte == "??"]. *)
Definition is_wildcard (byte : list ascii) : bool :=
  match byte with
  | [c] => Ascii.eqb c "?"
  | [c; c'] => Ascii.eqb c "?" && Ascii.eqb c' "?"
  | _ => false
  end.

Section Text.
(** [std::stoul(_, nullptr, 16)]. *)
Variable stoul : list ascii -> converted Z.

(** [MemoryEngine::HexStringToBytes]: words of another length than 2 are
    passed over. *)
Fixpoint HexStringToBytes_words (words : list (list ascii)) : converted (list Z) :=
  match words with
  | [] => Converted []
  | byte :: r =>
      if (length byte =? 2)%nat then
        match stoul byte with
        | Throws e => Throws e
        | Converted v =>
            match HexStringToBytes_words r with
            | Throws e => Throws e
            | Converted bytes => Converted (uint8 v :: bytes)
            end
        end
      else HexStringToBytes_words r
  end.

Definition HexStringToBytes (hexString : list ascii) : converted (list Z) :=
  HexStringToBytes_words (extract_words [] hexString).

(** [MemoryEngine::PatternToBytes]. *)
Fixpoint PatternToBytes_words (words : list (list ascii)) : converted (list Z) :=
  match words with
  | [] => Converted []
  | byte :: r =>
      if is_wildcard byte then
        match PatternToBytes_words r with
        | Throws e => Throws e
        | Converted bytes => Converted (0 :: bytes)
        end
      else
        match stoul byte with
        | Throws e => Throws e
        | Converted v =>
            match PatternToBytes_words r with
            | Throws e => Throws e
            | Converted bytes => Converted (uint8 v :: bytes)
            end
        end
  end.

Definition PatternToBytes (pattern : list ascii) : converted (list Z) :=
  PatternToBytes_words (extract_words [] pattern).

(** The mask that [MemoryEngine::AOBScanAll] builds beside
    [PatternToBytes(pattern)] and hands, with it, to [PatternScanAll]:
    ['?'] is 63 and ['x'] is 120. *)
Definition aob_mask (pattern : list ascii) : list Z :=
  map (fun byte => if is_wildcard byte then 63 else 120) (extract_words [] pattern).

End Text.
End MemoryEngine.

(* ================================================================== *)
(** ** DetoursLite.cpp: LengthDisassembler *)

(** An instruction stream is seen through a pointer: [data i] is
    [data[i]].  The loop over prefix bytes has no bound in the source; the
    model runs it for at most [fuel] bytes and answers [None] when it has
    not met a byte that is not a prefix by then. *)
Module LengthDisassembler.

(** [LengthDisassembler::IsRexPrefix]. *)
Definition IsRexPrefix (byte : Z) : bool := Z.land byte 0xF0 =? 0x40.

(** [LengthDisassembler::IsPrefix]. *)
Definition IsPrefix (byte : Z) : bool :=
  if (byte =? 0x26) || (byte =? 0x2E) || (byte =? 0x36) || (byte =? 0x3E)
     || (byte =? 0x64) || (byte =? 0x65) then true
  else if byte =? 0x66 then true
  else if byte =? 0x67 then true
  else if (byte =? 0xF0) || (byte =? 0xF2) || (byte =? 0xF3) then true
  else if Z.land byte 0xF0 =? 0x40 then true
  else false.

(** [LengthDisassembler::GetModRMSize]. *)
Definition GetModRMSize (modRM : Z) (hasRex : bool) : Z :=
  let mod_ := Z.land (Z.shiftr modRM 6) 0x03 in
  let rm := Z.land modRM 0x07 in
  if mod_ =? 0x00 then
    if rm =? 0x05 then 4
    else if rm =? 0x04 then 1
    else 0
  else if mod_ =? 0x01 then
    1 + (if rm =? 0x04 then 1 else 0)
  else if mod_ =? 0x02 then
    4 + (if rm =? 0x04 then 1 else 0)
  else 0.

(** [LengthDisassembler::GetOpcodeSize]. *)
Definition GetOpcodeSize (data : Z -> Z) (hasRex : bool) : Z :=
  let opcode0 := data 0 in
  let opcode := if opcode0 =? 0x0F then data 1 else opcode0 in
  let size :=
    if opcode0 =? 0x0F
    then (if (opcode =? 0x38) || (opcode =? 0x3A) then 3 else 2)
    else 1 in
  if ((0x50 <=? opcode) && (opcode <=? 0x5F))
     || ((0x90 <=? opcode) && (opcode <=? 0x97))
     || ((0xA0 <=? opcode) && (opcode <=? 0xA3))
  then size
  else if (opcode =? 0xE8) || (opcode =? 0xE9) then size + 4
  else if opcode =? 0xEB then size + 1
  else
    let hasModRM :=
      (Z.land opcode 0xFC =? 0x80) || (Z.land opcode 0xFE =? 0x88)
      || (Z.land opcode 0xFC =? 0x8C) || (Z.land opcode 0xFE =? 0xC6)
      || (Z.land opcode 0xFC =? 0xD0) || (Z.land opcode 0xFE =? 0xF6)
      || (Z.land opcode 0xFE =? 0xFE) in
    if hasModRM then
      let modRM := data size in
      let size := size + 1 + GetModRMSize modRM hasRex in
      if (Z.land opcode 0xFC =? 0x80) || (Z.land opcode 0xFE =? 0xC6) then
        if Z.land opcode 1 =? 0 then size + 1 else size + 4
      else size
    else size.

(** The prefix loop of [GetLength]: the offset of the first byte that is
    not a prefix, and whether a REX prefix was passed. *)
Fixpoint skip_prefixes (fuel : nat) (data : Z -> Z) (offset : Z) (hasRex : bool)
  : option (Z * bool) :=
  match fuel with
  | O => None
  | S k =>
      if IsPrefix (data offset)
      then skip_prefixes k data (offset + 1)
             (if IsRexPrefix (data offset) then true else hasRex)
      else Some (offset, hasRex)
  end.

(** [LengthDisassembler::GetLength]. *)
Definition GetLength (fuel : nat) (data : Z -> Z) : option Z :=
  match skip_prefixes fuel data 0 false with
  | None => None
  | Some (offset, hasRex) =>
      Some (offset + GetOpcodeSize (fun i => data (offset + i)) hasRex)
  end.

(** A byte sequence laid out at a pointer; [rest] is what follows it in
    memory. *)
Definition stream (bytes : list Z) (rest : Z -> Z) : Z -> Z :=
  fun i => if (0 <=? i) && (i <? Z.of_nat (length bytes))
           then nth (Z.to_nat i) bytes 0
           else rest (i - Z.of_nat (length bytes)).

End LengthDisassembler.

(* ================================================================== *)
(** ** DetoursLite.cpp: the detour engine *)

(** The engine patches code with plain [memcpy] / [memset], outside any
    [__try]: these accesses are modelled on the flat [memory], and an
    execution in which one of them traps is not described.  The loops
    that call [GetLength] inherit its [fuel]; [None] means that the fuel
    ran out. *)
Module DetoursLite.

Record Trampoline := {
  originalFunction : Z;
  trampolineAddress : Z;
  originalSize : Z;
  originalBytes : list Z;
  isActive : bool
}.

Inductive HookType := JMP_RELATIVE | JMP_ABSOLUTE | PUSH_RET | AUTO.

(** The process as the engine sees it: the system state, the bytes of
    the address space, the static vector [trampolines], and the stack
    address at which the by-value parameter [to] of [WriteJumpAbsolute]
    lives (the 32-bit build writes that address into the hook). *)
Record Process (W : Type) := {
  os : W;
  mem : memory;
  trampolines : list Trampoline;
  to_slot : Z
}.
Arguments os {W} p.
Arguments mem {W} p.
Arguments trampolines {W} p.
Arguments to_slot {W} p.

Section Detours.
Context {P : Platform} {W : Type} {sys : OS W}.

(** [std::find_if] over the registry, by [originalFunction]. *)
Definition find_hook (ts : list Trampoline) (targetFunction : Z) : option Trampoline :=
  find (fun t => originalFunction t =? targetFunction) ts.

(** [trampolines.erase(it)] for the iterator returned by [find_if]. *)
Fixpoint erase_hook (ts : list Trampoline) (targetFunction : Z) : list Trampoline :=
  match ts with
  | [] => []
  | t :: r =>
      if originalFunction t =? targetFunction then r
      else t :: erase_hook r targetFunction
  end.

(** [it->isActive = b] for the iterator returned by [find_if]. *)
Fixpoint set_active (ts : list Trampoline) (targetFunction : Z) (b : bool)
  : list Trampoline :=
  match ts with
  | [] => []
  | t :: r =>
      if originalFunction t =? targetFunction
      then {| originalFunction := originalFunction t;
              trampolineAddress := trampolineAddress t;
              originalSize := originalSize t;
              originalBytes := originalBytes t;
              isActive := b |} :: r
      else t :: set_active r targetFunction b
  end.

(** [DetoursLite::IsHooked]. *)
Definition IsHooked (p : Process W) (address : Z) : bool :=
  existsb (fun t => originalFunction t =? address) (trampolines p).

(** [DetoursLite::GetInstructionLength]. *)
Definition GetInstructionLength (fuel : nat) (m : memory) (address : Z) : option Z :=
  LengthDisassembler.GetLength fuel (fun i => m (address + i)).

(** [DetoursLite::CalculateHookSize]. *)
Definition CalculateHookSize (type : HookType) : Z :=
  match type with
  | JMP_RELATIVE => 5
  | JMP_ABSOLUTE => if is64Bit then 14 else 6
  | PUSH_RET => if is64Bit then 14 else 6
  | AUTO => 5
  end.

(** [DetoursLite::CalculateRelativeOffset]. *)
Definition CalculateRelativeOffset (from to : Z) : Z := int32 (wrap (to - from)).

(** [DetoursLite::WriteJumpRelative]. *)
Definition WriteJumpRelative (m : memory) (from to : Z) : memory * bool :=
  let offset := CalculateRelativeOffset (wrap (from + 5)) to in
  (store_bytes m from (0xE9 :: le_bytes 4 offset), true).

(** [DetoursLite::WriteJumpAbsolute]; [slot] is the address of the
    parameter [to]. *)
Definition WriteJumpAbsolute (m : memory) (slot from to : Z) : memory * bool :=
  if is64Bit
  then (store_bytes m from ([0xFF; 0x25; 0; 0; 0; 0] ++ le_bytes 8 to), true)
  else (store_bytes m from ([0xFF; 0x25] ++ le_bytes 4 slot), true).

(** [DetoursLite::WritePushRet]. *)
Definition WritePushRet (m : memory) (from to : Z) : memory * bool :=
  if is64Bit then (m, false)
  else (store_bytes m from (0x68 :: le_bytes 4 to ++ [0xC3]), true).

(** [DetoursLite::CreateTrampoline]: the address (0 when the allocation
    fails) and the system state. *)
Definition CreateTrampoline (s : W) (originalFunction hookSize : Z) : Z * W :=
  let trampolineSize := wrap (hookSize + (if is64Bit then 14 else 5)) in
  match VirtualAlloc s trampolineSize with
  | None => (0, s)
  | Some (trampolineMemory, s') => (trampolineMemory, s')
  end.

(** [DetoursLite::RelocateInstruction], on the instruction at pointer
    [instruction]. *)
Definition RelocateInstruction (m : memory) (instruction oldAddress newAddress : Z)
  : memory * bool :=
  if (m instruction =? 0xE8) || (m instruction =? 0xE9) then
    let offset := int32 (le_value (load_bytes m (instruction + 1) 4)) in
    let targetAddress := wrap (oldAddress + 5 + offset) in
    (store_bytes m (instruction + 1)
       (le_bytes 4 (CalculateRelativeOffset (wrap (newAddress + 5)) targetAddress)),
     true)
  else if (m instruction =? 0x0F) && (Z.land (m (instruction + 1)) 0xF0 =? 0x80) then
    let offset := int32 (le_value (load_bytes m (instruction + 2) 4)) in
    let targetAddress := wrap (oldAddress + 6 + offset) in
    (store_bytes m (instruction + 2)
       (le_bytes 4 (CalculateRelativeOffset (wrap (newAddress + 6)) targetAddress)),
     true)
  else (m, true).

(** The relocation loop of [BuildTrampoline], from index [i] on.  The
    result of [RelocateInstruction] is dropped. *)
Fixpoint relocate_loop (fuel lfuel : nat) (m : memory)
  (trampolineBuffer originalSize originalAddress trampolineAddress i : Z)
  : option memory :=
  match fuel with
  | O => None
  | S k =>
      if i <? originalSize then
        match LengthDisassembler.GetLength lfuel
                (fun j => m (trampolineBuffer + i + j)) with
        | None => None
        | Some instructionLength =>
            let m' := fst (RelocateInstruction m (trampolineBuffer + i)
                             (wrap (originalAddress + i))
                             (wrap (trampolineAddress + i))) in
            relocate_loop k lfuel m' trampolineBuffer originalSize originalAddress
              trampolineAddress (wrap (i + instructionLength))
        end
      else Some m
  end.

(** [DetoursLite::BuildTrampoline]. *)
Definition BuildTrampoline (fuel : nat) (m : memory) (trampolineBuffer : Z)
  (originalBytes : list Z) (originalSize originalAddress trampolineAddress : Z)
  : option memory :=
  let m1 := store_bytes m trampolineBuffer originalBytes in
  match relocate_loop fuel fuel m1 trampolineBuffer originalSize originalAddress
          trampolineAddress 0 with
  | None => None
  | Some m2 =>
      let jumpBackAddress := wrap (originalAddress + originalSize) in
      Some (fst (WriteJumpRelative m2 (wrap (trampolineAddress + originalSize))
                   jumpBackAddress))
  end.

(** [DetoursLite::SetMemoryProtection]. *)
Definition SetMemoryProtection (s : W) (address size protection : Z) : option (Z * W) :=
  VirtualProtect s address size protection.

(** The loop of [InstallHook] that sizes the prologue: [Some None] when
    an instruction length is 0, [Some (Some n)] when it ends with
    [bytesToCopy = n]. *)
Fixpoint prologue_loop (fuel lfuel : nat) (m : memory) (targetFunction hookSize bytesToCopy : Z)
  : option (option Z) :=
  match fuel with
  | O => None
  | S k =>
      if bytesToCopy <? hookSize then
        match GetInstructionLength lfuel m (wrap (targetFunction + bytesToCopy)) with
        | None => None
        | Some instructionLength =>
            if instructionLength =? 0 then Some None
            else prologue_loop k lfuel m targetFunction hookSize
                   (wrap (bytesToCopy + instructionLength))
        end
      else Some (Some bytesToCopy)
  end.

(** The result of [InstallHook]: the returned flag, the value stored
    through the out-parameter [originalFunction] (when one is stored),
    and the process afterwards. *)
Record InstallResult := {
  installed : bool;
  published : option Z;
  after : Process W
}.

(** The first step of [InstallHook]: [AUTO] becomes the hook type of
    the build. *)
Definition resolved (type : HookType) : HookType :=
  match type with
  | AUTO => if is64Bit then JMP_ABSOLUTE else JMP_RELATIVE
  | t => t
  end.

(** Whether the writer that [InstallHook] selects for a hook type reports
    success: [WritePushRet] gives up on the 64-bit build. *)
Definition writer_ok (type : HookType) : bool :=
  match resolved type with
  | PUSH_RET => negb is64Bit
  | _ => true
  end.

(** [DetoursLite::InstallHook]. *)
Definition InstallHook (fuel : nat) (p : Process W)
  (targetFunction detourFunction : Z) (type : HookType) : option InstallResult :=
  if IsHooked p targetFunction
  then Some {| installed := false; published := None; after := p |}
  else
    let type := resolved type in
    let hookSize := CalculateHookSize type in
    match prologue_loop fuel fuel (mem p) targetFunction hookSize 0 with
    | None => None
    | Some None => Some {| installed := false; published := None; after := p |}
    | Some (Some bytesToCopy) =>
        let (trampolineAddr, s1) := CreateTrampoline (os p) targetFunction bytesToCopy in
        if trampolineAddr =? 0
        then Some {| installed := false; published := None;
                     after := {| os := s1; mem := mem p;
                                 trampolines := trampolines p;
                                 to_slot := to_slot p |} |}
        else
          let originalBytes := load_bytes (mem p) targetFunction (Z.to_nat bytesToCopy) in
          match BuildTrampoline fuel (mem p) trampolineAddr originalBytes bytesToCopy
                  targetFunction trampolineAddr with
          | None => None
          | Some m1 =>
              match SetMemoryProtection s1 targetFunction hookSize
                      PAGE_EXECUTE_READWRITE with
              | None =>
                  Some {| installed := false; published := None;
                          after := {| os := VirtualFree s1 trampolineAddr; mem := m1;
                                      trampolines := trampolines p;
                                      to_slot := to_slot p |} |}
              | Some (oldProtect, s2) =>
                  let (m2, success) :=
                    match type with
                    | JMP_RELATIVE => WriteJumpRelative m1 targetFunction detourFunction
                    | JMP_ABSOLUTE =>
                        WriteJumpAbsolute m1 (to_slot p) targetFunction detourFunction
                    | PUSH_RET => WritePushRet m1 targetFunction detourFunction
                    | AUTO => (m1, false)
                    end in
                  let m3 :=
                    if success && (hookSize <? bytesToCopy)
                    then store_bytes m2 (wrap (targetFunction + hookSize))
                           (repeat 0x90 (Z.to_nat (wrap (bytesToCopy - hookSize))))
                    else m2 in
                  let s3 :=
                    match SetMemoryProtection s2 targetFunction hookSize oldProtect with
                    | Some (_, s') => s'
                    | None => s2
                    end in
                  if success then
                    let tramp := {| originalFunction := targetFunction;
                                    trampolineAddress := trampolineAddr;
                                    originalSize := bytesToCopy;
                                    originalBytes := originalBytes;
                                    isActive := true |} in
                    Some {| installed := true; published := Some trampolineAddr;
                            after := {| os := s3; mem := m3;
                                        trampolines := trampolines p ++ [tramp];
                                        to_slot := to_slot p |} |}
                  else
                    Some {| installed := false; published := None;
                            after := {| os := VirtualFree s3 trampolineAddr; mem := m3;
                                        trampolines := trampolines p;
                                        to_slot := to_slot p |} |}
              end
          end
    end.

(** The [memcpy] of [originalSize] bytes out of [originalBytes]: entries
    of the registry are built by [InstallHook], which gives the vector
    exactly [originalSize] bytes. *)
Definition saved_prologue (t : Trampoline) : list Z :=
  firstn (Z.to_nat (originalSize t)) (originalBytes t).

(** [DetoursLite::RemoveHook]. *)
Definition RemoveHook (p : Process W) (targetFunction : Z) : bool * Process W :=
  match find_hook (trampolines p) targetFunction with
  | None => (false, p)
  | Some it =>
      match SetMemoryProtection (os p) targetFunction (originalSize it)
              PAGE_EXECUTE_READWRITE with
      | None => (false, p)
      | Some (oldProtect, s1) =>
          let m1 := store_bytes (mem p) targetFunction (saved_prologue it) in
          let s2 :=
            match SetMemoryProtection s1 targetFunction (originalSize it) oldProtect with
            | Some (_, s') => s'
            | None => s1
            end in
          (true, {| os := VirtualFree s2 (trampolineAddress it);
                    mem := m1;
                    trampolines := erase_hook (trampolines p) targetFunction;
                    to_slot := to_slot p |})
      end
  end.

(** [DetoursLite::EnableHook]. *)
Definition EnableHook (p : Process W) (targetFunction : Z) : bool * Process W :=
  match find_hook (trampolines p) targetFunction with
  | None => (false, p)
  | Some it =>
      if isActive it then (false, p)
      else (true, {| os := os p; mem := mem p;
                     trampolines := set_active (trampolines p) targetFunction true;
                     to_slot := to_slot p |})
  end.

(** [DetoursLite::DisableHook]. *)
Definition DisableHook (p : Process W) (targetFunction : Z) : bool * Process W :=
  match find_hook (trampolines p) targetFunction with
  | None => (false, p)
  | Some it =>
      if negb (isActive it) then (false, p)
      else
        match SetMemoryProtection (os p) targetFunction (originalSize it)
                PAGE_EXECUTE_READWRITE with
        | None => (false, p)
        | Some (oldProtect, s1) =>
            let m1 := store_bytes (mem p) targetFunction (saved_prologue it) in
            let s2 :=
              match SetMemoryProtection s1 targetFunction (originalSize it) oldProtect with
              | Some (_, s') => s'
              | None => s1
              end in
            (true, {| os := s2; mem := m1;
                      trampolines := set_active (trampolines p) targetFunction false;
                      to_slot := to_slot p |})
        end
  end.

(** The hook bytes that [InstallHook] writes at the target for a hook
    type (after [AUTO] has been resolved). *)
Definition hook_bytes (slot targetFunction detourFunction : Z) (type : HookType)
  : list Z :=
  match type with
  | JMP_RELATIVE =>
      0xE9 :: le_bytes 4 (CalculateRelativeOffset (wrap (targetFunction + 5)) detourFunction)
  | JMP_ABSOLUTE =>
      if is64Bit then [0xFF; 0x25; 0; 0; 0; 0] ++ le_bytes 8 detourFunction
      else [0xFF; 0x25] ++ le_bytes 4 slot
  | PUSH_RET => 0x68 :: le_bytes 4 detourFunction ++ [0xC3]
  | AUTO => []
  end.

(** [DetoursLite::GetActiveHooks]. *)
Definition GetActiveHooks (p : Process W) : list Z :=
  map originalFunction (filter isActive (trampolines p)).

(** One hook per address: the targets of the registry are pairwise
    different. *)
Definition targets_unique (p : Process W) : Prop :=
  NoDup (map originalFunction (trampolines p)).

(** Where the processor continues after a [jmp rel32] / [call rel32]
    whose opcode is at [at_]: the address of the next instruction plus
    the signed displacement held in memory. *)
Definition rel32_target (m : memory) (at_ : Z) : Z :=
  wrap (at_ + 5 + int32 (le_value (load_bytes m (at_ + 1) 4))).

(** Where the processor continues after a taken short jump ([EB rel8],
    [70..7F rel8]) whose opcode is at [at_]. *)
Definition rel8_target (m : memory) (at_ : Z) : Z :=
  wrap (at_ + 2 + int8 (m (at_ + 1))).

(** Whether the way from [from5] to [to] can be written as a signed
    32-bit displacement: always on the 32-bit build. *)
Definition reachable (from5 to : Z) : Prop :=
  is64Bit = false \/ - 2 ^ 31 <= to - from5 < 2 ^ 31.

End Detours.
End DetoursLite.

(* ================================================================== *)
(** ** A small system to run the model on *)

(** One instance of [OS]: a list of regions, a stock of addresses that
    [VirtualAlloc] hands out, and the number of protection changes the
    system will still grant ([VirtualProtect] fails once it is used up,
    as it does when another thread has released or changed the region
    in between). *)
Module Sim.

Record state := {
  regions : list MEMORY_BASIC_INFORMATION;
  grants : nat;
  free_list : list Z;
  released : list Z
}.

Definition region_of (s : state) (a : Z) : option MEMORY_BASIC_INFORMATION :=
  find (fun r => (BaseAddress r <=? a) && (a <? BaseAddress r + RegionSize r))
       (regions s).

Definition allows (mask : Z) (s : state) (a : Z) : bool :=
  match region_of s a with
  | Some r => (State r =? MEM_COMMIT) && negb (Z.land (Protect r) mask =? 0)
  | None => false
  end.

Definition reprotect (base p : Z) (r : MEMORY_BASIC_INFORMATION)
  : MEMORY_BASIC_INFORMATION :=
  if BaseAddress r =? base
  then {| BaseAddress := BaseAddress r; RegionSize := RegionSize r;
          State := State r; Protect := p |}
  else r.

Definition protect (s : state) (a n p : Z) : option (Z * state) :=
  match grants s with
  | O => None
  | S g =>
      match region_of s a with
      | Some r =>
          if (State r =? MEM_COMMIT) && (a + n <=? BaseAddress r + RegionSize r)
          then Some (Protect r,
                     {| regions := map (reprotect (BaseAddress r) p) (regions s);
                        grants := g;
                        free_list := free_list s;
                        released := released s |})
          else None
      | None => None
      end
  end.

Definition alloc (s : state) (n : Z) : option (Z * state) :=
  match free_list s with
  | [] => None
  | a :: rest =>
      Some (a, {| regions := {| BaseAddress := a; RegionSize := n;
                                State := MEM_COMMIT;
                                Protect := PAGE_EXECUTE_READWRITE |} :: regions s;
                  grants := grants s;
                  free_list := rest;
                  released := released s |})
  end.

Definition release (s : state) (a : Z) : state :=
  {| regions := filter (fun r => negb (BaseAddress r =? a)) (regions s);
     grants := grants s;
     free_list := free_list s;
     released := a :: released s |}.

Definition system : OS state := {|
  VirtualQuery := region_of;
  VirtualProtect := protect;
  VirtualAlloc := alloc;
  VirtualFree := release;
  may_read := allows 0xEE;
  may_write := allows 0xCC
|}.

(** A committed page at 0x1000 with the given protection. *)
Definition one_page (protection : Z) (grants : nat) : state :=
  {| regions := [{| BaseAddress := 0x1000; RegionSize := 0x1000;
                    State := MEM_COMMIT; Protect := protection |}];
     grants := grants;
     free_list := [0x20000];
     released := [] |}.

(** Memory holding [bytes] at [base] and [fill] elsewhere. *)
Definition image (base : Z) (bytes : list Z) (fill : Z) : memory :=
  fun a => if (base <=? a) && (a <? base + Z.of_nat (length bytes))
           then nth (Z.to_nat (a - base)) bytes fill
           else fill.

(** A function at 0x1000 on an executable page, nothing hooked yet;
    the bytes past the listed prologue are [nop]. *)
Definition process (prologue : list Z) (grants : nat) : DetoursLite.Process state :=
  {| DetoursLite.os := one_page PAGE_EXECUTE_READ grants;
     DetoursLite.mem := image 0x1000 prologue 0x90;
     DetoursLite.trampolines := [];
     DetoursLite.to_slot := 0x7FF0 |}.

(** [push rbp; mov rbp, rsp; sub rsp, 0x20]. *)
Definition frame_prologue : list Z := [0x55; 0x48; 0x89; 0xE5; 0x48; 0x83; 0xEC; 0x20].

(** [jmp short +5] followed by [nop]s. *)
Definition short_jump_prologue : list Z := [0xEB; 0x05; 0x90; 0x90; 0x90].

(** The value of a hexadecimal digit. *)
Definition hex_value (c : ascii) : option Z :=
  let n := MemoryEngine.char_code c in
  if (48 <=? n) && (n <=? 57) then Some (n - 48)
  else if (65 <=? n) && (n <=? 70) then Some (n - 55)
  else if (97 <=? n) && (n <=? 102) then Some (n - 87)
  else None.

Fixpoint leading_hex (value : option Z) (s : list ascii) : option Z :=
  match s with
  | [] => value
  | c :: r =>
      match hex_value c with
      | Some d => leading_hex (Some (16 * match value with Some v => v | None => 0 end + d)) r
      | None => value
      end
  end.

(** [std::stoul(_, nullptr, 16)] with a 32-bit [unsigned long], on a word
    (no leading white space): an optional sign, an optional [0x] in front
    of a digit, then the digits as far as they go; no digit at all is
    [invalid_argument], a value that does not fit is [out_of_range]. *)
Definition stoul (s : list ascii) : MemoryEngine.converted Z :=
  let negative := match s with c :: _ => Ascii.eqb c "-" | [] => false end in
  let s := match s with
           | c :: r => if Ascii.eqb c "-" || Ascii.eqb c "+" then r else s
           | [] => s
           end in
  let s := match s with
           | z :: x :: d :: r =>
               if Ascii.eqb z "0" && (Ascii.eqb x "x" || Ascii.eqb x "X")
                  && match hex_value d with Some _ => true | None => false end
               then d :: r else s
           | _ => s
           end in
  match leading_hex None s with
  | None => MemoryEngine.Throws MemoryEngine.invalid_argument
  | Some v =>
      if v <? 2 ^ 32
      then MemoryEngine.Converted (if negative then (2 ^ 32 - v) mod 2 ^ 32 else v)
      else MemoryEngine.Throws MemoryEngine.out_of_range
  end.

End Sim.

(** Inputs on which the properties below are run. *)

Module Scenario.

(** Two results of a first scan for the 32-bit value 7. *)
Definition found (a : Z) : MemoryEngine.ScanResult :=
  {| MemoryEngine.address := a; MemoryEngine.value := [7; 0; 0; 0];
     MemoryEngine.type := "int32"; MemoryEngine.previousValue := [] |}.

Definition rescan_options : MemoryEngine.ScanOptions :=
  {| MemoryEngine.startAddress := 0; MemoryEngine.endAddress := 0;
     MemoryEngine.alignment := 1;
     MemoryEngine.filterWritable := MemoryEngine.Yes;
     MemoryEngine.filterExecutable := MemoryEngine.Any;
     MemoryEngine.filterCopyOnWrite := MemoryEngine.Any;
     MemoryEngine.previousResults := Some [found 0x1000; found 0x1008] |}.

(** The first value has become 9, the second is still 7. *)
Definition rescan_memory : memory :=
  Sim.image 0x1000 [9; 0; 0; 0; 0; 0; 0; 0; 7; 0; 0; 0] 0.

Definition rescan (scanType : string) : outcome (list MemoryEngine.ScanResult) :=
  @MemoryEngine.NextScan x64 _ Sim.system (fun _ _ => []) (fun _ _ _ _ => false)
    (Sim.one_page PAGE_READWRITE 0) rescan_memory (fun _ => 0) scanType ""
    rescan_options.

Definition grown : MemoryEngine.ScanResult :=
  {| MemoryEngine.address := 0x1000; MemoryEngine.value := [9; 0; 0; 0];
     MemoryEngine.type := "int32"; MemoryEngine.previousValue := [7; 0; 0; 0] |}.

(** Two links of a pointer chain on the page at 0x1000 (64-bit build):
    the word at 0x1000 is 0x1100, the word at 0x1110 is 0x1200. *)
Definition chain_memory : memory :=
  store_bytes (store_bytes (fun _ => 0) 0x1000 (le_bytes 8 0x1100))
    0x1110 (le_bytes 8 0x1200).

(** The text "engine" followed by its terminator. *)
Definition text_memory : memory :=
  Sim.image 0x1000 [101; 110; 103; 105; 110; 101; 0; 120] 0.

(** An address space that starts with a free region, followed by one
    committed read/write page. *)
Definition walked : Sim.state :=
  {| Sim.regions := [{| BaseAddress := 0; RegionSize := 0x1000;
                        State := 0x10000; Protect := PAGE_NOACCESS |};
                     {| BaseAddress := 0x1000; RegionSize := 0x1000;
                        State := MEM_COMMIT; Protect := PAGE_READWRITE |}];
     Sim.grants := 0;
     Sim.free_list := [];
     Sim.released := [] |}.

(** A process in which the function at 0x1000 carries an active hook:
    the absolute jump of the 64-bit build is in place and the registry
    holds the fourteen bytes it replaced. *)
Definition hooked : DetoursLite.Process Sim.state :=
  {| DetoursLite.os := Sim.one_page PAGE_EXECUTE_READ 4;
     DetoursLite.mem :=
       Sim.image 0x1000 [0xFF; 0x25; 0; 0; 0; 0; 0x00; 0x50; 0; 0; 0; 0; 0; 0] 0x90;
     DetoursLite.trampolines :=
       [{| DetoursLite.originalFunction := 0x1000;
           DetoursLite.trampolineAddress := 0x20000;
           DetoursLite.originalSize := 14;
           DetoursLite.originalBytes :=
             Sim.frame_prologue ++ [0x90; 0x90; 0x90; 0x90; 0x90; 0x90];
           DetoursLite.isActive := true |}];
     DetoursLite.to_slot := 0x7FF0 |}.

End Scenario.

(* ================================================================== *)
(** * Properties *)

(* ------------------------------------------------------------------ *)
(** ** Machine words and buffers *)

Lemma ptr_mod_pos {P : Platform} : 0 < ptr_mod.
Proof. unfold ptr_mod, ptr_bits. destruct is64Bit; reflexivity. Qed.

Lemma wrap_range {P : Platform} (x : Z) : 0 <= wrap x < ptr_mod.
Proof. unfold wrap. apply Z.mod_pos_bound, ptr_mod_pos. Qed.

Lemma wrap_small {P : Platform} (x : Z) : 0 <= x < ptr_mod -> wrap x = x.
Proof. intros H. unfold wrap. now apply Z.mod_small. Qed.

Lemma wrap_le {P : Platform} (x : Z) : 0 <= x -> wrap x <= x.
Proof.
  intros H. unfold wrap. apply Z.mod_le; [exact H | apply ptr_mod_pos].
Qed.

Lemma load_bytes_length (m : memory) (n : nat) :
  forall a, length (load_bytes m a n) = n.
Proof. induction n as [|n IH]; intros a; simpl; [reflexivity | now rewrite IH]. Qed.

Lemma store_bytes_below (bs : list Z) :
  forall m a x, x < a -> store_bytes m a bs x = m x.
Proof.
  induction bs as [|b r IH]; intros m a x Hx; simpl; [reflexivity|].
  rewrite IH by lia. unfold store.
  destruct (x =? a) eqn:E; [apply Z.eqb_eq in E; lia | reflexivity].
Qed.

(** Reading back what [memcpy] has just written. *)
Lemma load_store_bytes (bs : list Z) :
  forall m a, load_bytes (store_bytes m a bs) a (length bs) = bs.
Proof.
  induction bs as [|b r IH]; intros m a; simpl; [reflexivity|].
  rewrite IH. f_equal.
  rewrite store_bytes_below by lia.
  unfold store. now rewrite Z.eqb_refl.
Qed.

Lemma bytes_eqb_eq (a b : list Z) : bytes_eqb a b = true <-> a = b.
Proof.
  revert b; induction a as [|x a IH]; intros [|y b]; simpl; split;
    try congruence; try reflexivity.
  - intros H. apply andb_true_iff in H as [H1 H2].
    apply Z.eqb_eq in H1. apply IH in H2. congruence.
  - intros H. injection H as -> ->. rewrite Z.eqb_refl. simpl. now apply IH.
Qed.

(* ------------------------------------------------------------------ *)
(** ** Safe read *)

Section SafeReadFacts.
Context {P : Platform} {W : Type} {sys : OS W}.
Import MemoryEngine.

Lemma SafeMemcpy_length (s : W) (m : memory) (n : nat) :
  forall a bs, SafeMemcpy s m a n = Some bs -> length bs = n.
Proof.
  induction n as [|n IH]; intros a bs; simpl.
  - intros [= <-]. reflexivity.
  - destruct (may_read s a); [|discriminate].
    destruct (SafeMemcpy s m (a + 1) n) as [r|] eqn:E; [|discriminate].
    intros [= <-]. simpl. f_equal. eapply IH, E.
Qed.

(** The guarded copy delivers the bytes of the address space. *)
Lemma SafeMemcpy_bytes (s : W) (m : memory) (n : nat) :
  forall a bs, SafeMemcpy s m a n = Some bs -> bs = load_bytes m a n.
Proof.
  induction n as [|n IH]; intros a bs; simpl.
  - intros [= <-]. reflexivity.
  - destruct (may_read s a); [|discriminate].
    destruct (SafeMemcpy s m (a + 1) n) as [r|] eqn:E; [|discriminate].
    intros [= <-]. f_equal. eapply IH, E.
Qed.

(** Whatever [SafeReadBytes] returns is empty or has the requested
    number of bytes. *)
Lemma SafeReadBytes_returned_length (s : W) (m : memory) (address size : Z) (bs : list Z) :
  SafeReadBytes s m address size = Returned bs ->
  bs = [] \/ length bs = Z.to_nat size.
Proof.
  unfold SafeReadBytes.
  destruct (IsAddressReadable s address size); simpl; [|intros [= <-]; now left].
  destruct (vector_max_size <? size); [discriminate|].
  destruct (SafeMemcpy s m address (Z.to_nat size)) as [b|] eqn:E.
  - intros [= <-]. right. eapply SafeMemcpy_length, E.
  - intros [= <-]. now left.
Qed.


(** The gate fails closed: no region, a region that is not committed, a
    range that ends (in pointer arithmetic) past the region, or a region
    without read permission all give the empty result. *)
Lemma SafeReadBytes_fail_closed (s : W) (m : memory) (address size : Z) :
  match VirtualQuery s address with
  | None => True
  | Some mbi =>
      State mbi <> MEM_COMMIT
      \/ wrap (BaseAddress mbi + RegionSize mbi - 1) < wrap (address + size - 1)
      \/ Z.land (Protect mbi) readable_mask = 0
  end ->
  SafeReadBytes s m address size = Returned [].
Proof.
  unfold SafeReadBytes, IsAddressReadable, IsAddressValid.
  destruct (address =? 0); [reflexivity|].
  destruct (VirtualQuery s address) as [mbi|]; [|reflexivity].
  intros [H | [H | H]].
  - apply Z.eqb_neq in H. now rewrite H.
  - destruct (State mbi =? MEM_COMMIT); [|reflexivity]. simpl.
    apply Z.leb_gt in H. now rewrite H.
  - destruct (State mbi =? MEM_COMMIT); [|reflexivity]. simpl.
    destruct (_ <=? _); [|reflexivity]. simpl.
    rewrite H. reflexivity.
Qed.

(** An access fault during the copy gives the empty result. *)
Lemma SafeReadBytes_fault (s : W) (m : memory) (address size : Z) :
  size <= vector_max_size ->
  SafeMemcpy s m address (Z.to_nat size) = None ->
  SafeReadBytes s m address size = Returned [].
Proof.
  intros Hs Hf. unfold SafeReadBytes.
  destruct (IsAddressReadable s address size); simpl; [|reflexivity].
  destruct (vector_max_size <? size) eqn:E; [apply Z.ltb_lt in E; lia|].
  now rewrite Hf.
Qed.

(** When the range does not wrap around the address space, the gate of
    [IsAddressValid] is the containment of [[address, address+size)] in
    the region. *)
Lemma IsAddressValid_covers (s : W) (address size : Z) (mbi : MEMORY_BASIC_INFORMATION) :
  VirtualQuery s address = Some mbi ->
  0 < address -> 0 < size -> address + size <= ptr_mod ->
  0 < RegionSize mbi -> 0 <= BaseAddress mbi ->
  BaseAddress mbi + RegionSize mbi <= ptr_mod ->
  IsAddressValid s address size = true <->
  State mbi = MEM_COMMIT /\ address + size <= BaseAddress mbi + RegionSize mbi.
Proof.
  intros Hq Ha Hs Hw Hr Hb Hrw. unfold IsAddressValid.
  destruct (address =? 0) eqn:E0; [apply Z.eqb_eq in E0; lia|].
  rewrite Hq.
  rewrite !wrap_small by lia.
  destruct (State mbi =? MEM_COMMIT) eqn:Ec; simpl.
  - apply Z.eqb_eq in Ec. rewrite Z.leb_le. split; [intros; split; [assumption|lia] | intros [_ H]; lia].
  - apply Z.eqb_neq in Ec. split; [discriminate | intros [H _]; contradiction].
Qed.

End SafeReadFacts.

(** C1 (the code departs from the claim).  [SafeReadBytes] is to return
    the requested bytes or the empty result, and the empty result whenever
    the region does not cover [[A, A+L)].  On the 64-bit build, with one
    committed read/write page at 0x1000 and L = 2^64-1: the region ends
    far before A+L, yet the end of the range computed in [uintptr_t] wraps
    to 0xFFE, the gate of [IsAddressValid] / [IsAddressReadable] accepts
    the range, and [SafeReadBytes] goes on to [buffer.resize(L)], which
    raises [std::length_error]: the call yields no result at all. *)
Theorem SafeReadBytes_wrapped_range_raises :
  let s := Sim.one_page PAGE_READWRITE 0 in
  let A := 0x1000 in
  let L := 2 ^ 64 - 1 in
  (exists mbi,
      @VirtualQuery _ Sim.system s A = Some mbi
      /\ State mbi = MEM_COMMIT
      /\ BaseAddress mbi <= A
      /\ BaseAddress mbi + RegionSize mbi < A + L)
  /\ @wrap x64 (A + L - 1) = 0xFFE
  /\ @MemoryEngine.IsAddressReadable x64 _ Sim.system s A L = true
  /\ @MemoryEngine.SafeReadBytes x64 _ Sim.system s (fun _ => 0) A L
     = Raised length_error.
Proof.
  cbv zeta. split; [|split; [|split]].
  - eexists. split; [reflexivity|]. cbn. repeat split; lia.
  - reflexivity.
  - reflexivity.
  - reflexivity.
Qed.

(* ------------------------------------------------------------------ *)
(** ** Safe write *)

Section SafeWriteFacts.
Context {P : Platform} {W : Type} {sys : OS W}.
Import MemoryEngine.

(** A guarded copy that completes has written every byte. *)
Lemma guarded_store_complete (s : W) (data : list Z) :
  forall m dst m', guarded_store s m dst data = (m', true) ->
                   m' = store_bytes m dst data.
Proof.
  induction data as [|b r IH]; intros m dst m'; simpl.
  - intros [= <-]. reflexivity.
  - destruct (may_write s dst); [apply IH | discriminate].
Qed.

(** The guarded copy completes exactly when no byte of the range
    faults. *)
Lemma guarded_store_completes_iff (s : W) (data : list Z) :
  forall m dst,
    snd (guarded_store s m dst data) = true
    <-> forall i, 0 <= i < Z.of_nat (length data) -> may_write s (dst + i) = true.
Proof.
  induction data as [|b r IH]; intros m dst; cbn [guarded_store length].
  - split; [intros _ i Hi; simpl in Hi; lia | reflexivity].
  - destruct (may_write s dst) eqn:E.
    + rewrite IH. split.
      * intros H i Hi. destruct (Z.eq_dec i 0) as [-> | Hn].
        -- now rewrite Z.add_0_r.
        -- replace (dst + i) with (dst + 1 + (i - 1)) by lia. apply H. lia.
      * intros H i Hi. rewrite <- Z.add_assoc. apply H. lia.
    + cbn [snd]. split; [discriminate|].
      intros H. rewrite <- E, <- (Z.add_0_r dst). apply H. lia.
Qed.

Lemma SafeWriteMemory_cases (s : W) (m : memory) (address : Z) (data : list Z)
  (r : bool) (s' : W) (m' : memory) :
  SafeWriteMemory s m address data = (r, s', m') ->
  let n := Z.of_nat (length data) in
  match VirtualProtect s address n PAGE_EXECUTE_READWRITE with
  | None => r = false /\ s' = s /\ m' = m
  | Some (oldProtect, s1) =>
      if snd (guarded_store s1 m address data)
      then r = true
           /\ m' = store_bytes m address data
           /\ s' = match VirtualProtect s1 address n oldProtect with
                   | Some (_, s2) => s2
                   | None => s1
                   end
      else r = false /\ s' = s1
  end.
Proof.
  unfold SafeWriteMemory. cbv zeta.
  destruct (VirtualProtect s address _ PAGE_EXECUTE_READWRITE) as [[old s1]|].
  - destruct (guarded_store s1 m address data) as [m1 [|]] eqn:G; simpl.
    + apply guarded_store_complete in G. subst m1.
      destruct (VirtualProtect s1 address _ old) as [[x s2]|];
        intros [= <- <- <-]; auto.
    + intros [= <- <- <-]; auto.
  - intros [= <- <- <-]; auto.
Qed.

End SafeWriteFacts.

(** C2, as the code has it.  A write passes the gate when the payload
    is not empty and [IsAddressValid] accepts the range; otherwise
    [SafeWriteBytes] returns false and touches nothing.  For a write that
    passes the gate, the protection of the range is set to
    read/write/execute (whatever it was).  When that change is refused
    the write returns false and neither the system state nor the memory
    has changed.  When it is granted the copy is performed: if no byte
    of the range faults, the write returns true, the bytes are in place,
    and the previous protection has been asked for; whether that last
    call succeeded does not enter the result.  If a byte faults, the
    write returns false and the protection stays as the change left it.
    So a true return means change, copy and the request to restore; a
    false return leaves system state and memory untouched unless the
    copy itself faulted after the change. *)
Theorem SafeWriteBytes_toggle_copy_restore
  {P : Platform} {W : Type} {sys : OS W}
  (s : W) (m : memory) (address : Z) (bytes : list Z)
  (r : bool) (s' : W) (m' : memory) :
  MemoryEngine.SafeWriteBytes s m address bytes = (r, s', m') ->
  let n := Z.of_nat (length bytes) in
  (bytes = [] \/ MemoryEngine.IsAddressValid s address n = false ->
   r = false /\ s' = s /\ m' = m)
  /\ (bytes <> [] -> MemoryEngine.IsAddressValid s address n = true ->
      match VirtualProtect s address n PAGE_EXECUTE_READWRITE with
      | None => r = false /\ s' = s /\ m' = m
      | Some (oldProtect, s1) =>
          ((forall i, 0 <= i < n -> may_write s1 (address + i) = true) ->
           r = true
           /\ m' = store_bytes m address bytes
           /\ load_bytes m' address (length bytes) = bytes
           /\ s' = match VirtualProtect s1 address n oldProtect with
                   | Some (_, s2) => s2
                   | None => s1
                   end)
          /\ ((exists i, 0 <= i < n /\ may_write s1 (address + i) = false) ->
              r = false /\ s' = s1)
      end)
  /\ (r = true ->
      exists oldProtect s1,
        VirtualProtect s address n PAGE_EXECUTE_READWRITE = Some (oldProtect, s1)
        /\ load_bytes m' address (length bytes) = bytes
        /\ s' = match VirtualProtect s1 address n oldProtect with
                | Some (_, s2) => s2
                | None => s1
                end)
  /\ (r = false ->
      (s' = s /\ m' = m)
      \/ exists oldProtect,
           VirtualProtect s address n PAGE_EXECUTE_READWRITE = Some (oldProtect, s')
           /\ exists i, 0 <= i < n /\ may_write s' (address + i) = false).
Proof.
  intros H n. unfold MemoryEngine.SafeWriteBytes in H.
  destruct bytes as [|b bs].
  { injection H as <- <- <-.
    split; [auto|]. split; [intros Hne; now elim Hne|].
    split; [discriminate | intros _; now left]. }
  destruct (MemoryEngine.IsAddressValid s address (Z.of_nat (length (b :: bs)))) eqn:Hv.
  2:{ simpl in H. injection H as <- <- <-.
      split; [auto|]. split; [intros _ Hv'; fold n in Hv; congruence|].
      split; [discriminate | intros _; now left]. }
  simpl negb in H. cbv iota in H.
  apply SafeWriteMemory_cases in H. cbv zeta in H. fold n in H, Hv.
  assert (Hgate : ~ (b :: bs = [] \/ MemoryEngine.IsAddressValid s address n = false)).
  { intros [He | He]; [discriminate | congruence]. }
  split; [intros Hg; now elim Hgate|].
  destruct (VirtualProtect s address n PAGE_EXECUTE_READWRITE) as [[old s1]|].
  - pose proof (guarded_store_completes_iff s1 (b :: bs) m address) as Hiff.
    fold n in Hiff.
    destruct (snd (MemoryEngine.guarded_store s1 m address (b :: bs))) eqn:G.
    + destruct H as (-> & -> & ->).
      assert (Hl : load_bytes (store_bytes m address (b :: bs)) address (length (b :: bs))
                   = b :: bs) by apply load_store_bytes.
      split; [|split; [|discriminate]].
      * intros _ _. split; [intros _; auto|].
        intros (i & Hi & Hf). rewrite (proj1 Hiff eq_refl i Hi) in Hf. discriminate.
      * intros _. exists old, s1. auto.
    + destruct H as (-> & ->).
      assert (Hex : exists i, 0 <= i < n /\ may_write s1 (address + i) = false).
      { clear Hiff Hgate Hv. unfold n. clear n.
        revert m address G. generalize (b :: bs). intros l.
        induction l as [|x l IH]; intros m address G; [discriminate|].
        cbn [MemoryEngine.guarded_store] in G.
        destruct (may_write s1 address) eqn:E.
        - destruct (IH _ _ G) as (i & Hi & Hf). exists (i + 1).
          split; [cbn [length]; lia|].
          now replace (address + (i + 1)) with (address + 1 + i) by lia.
        - exists 0. split; [cbn [length]; lia | now rewrite Z.add_0_r]. }
      split; [|split; [discriminate|]].
      * intros _ _. split; [|intros _; auto].
        intros Hall. apply Hiff in Hall. discriminate.
      * intros _. right. exists old. split; [reflexivity | exact Hex].
  - destruct H as (-> & -> & ->).
    split; [intros _ _; auto|]. split; [discriminate|]. intros _. now left.
Qed.

(** A write to a read-only page: the change is granted, the bytes land,
    the previous protection is put back. *)
Lemma SafeWriteBytes_toggle_copy_restore_witness :
  let s := Sim.one_page PAGE_READONLY 2 in
  let m : memory := fun _ => 0 in
  exists s' m',
    @MemoryEngine.SafeWriteBytes x64 _ Sim.system s m 0x1000 [1; 2] = (true, s', m')
    /\ load_bytes m' 0x1000 2 = [1; 2]
    /\ @VirtualQuery _ Sim.system s' 0x1000 = @VirtualQuery _ Sim.system s 0x1000.
Proof.
  cbv zeta.
  destruct (@MemoryEngine.SafeWriteBytes x64 _ Sim.system
              (Sim.one_page PAGE_READONLY 2) (fun _ => 0) 0x1000 [1; 2])
    as [[r s'] m'] eqn:E.
  pose proof (@SafeWriteBytes_toggle_copy_restore x64 _ Sim.system _ _ _ _ _ _ _ E)
    as (_ & Hg & _ & _).
  specialize (Hg ltac:(discriminate) ltac:(reflexivity)).
  destruct (@VirtualProtect _ Sim.system (Sim.one_page PAGE_READONLY 2) 0x1000
              (Z.of_nat (length [1; 2])) PAGE_EXECUTE_READWRITE)
    as [[old s1]|] eqn:Hp;
    [|vm_compute in Hp; discriminate Hp].
  vm_compute in Hp. injection Hp as <- <-.
  destruct Hg as [Hg _].
  destruct Hg as (-> & -> & Hl & ->).
  { intros i Hi. change (Z.of_nat (length [1; 2])) with 2 in Hi.
    assert (Hc : i = 0 \/ i = 1) by lia.
    destruct Hc as [-> | ->]; reflexivity. }
  eexists. eexists. split; [reflexivity|]. split; [exact Hl|]. reflexivity.
Defined.

(** C2, the claim as stated fails: the write below returns true although
    the system refused to put the previous protection back (the page
    stays read/write/execute). *)
Lemma SafeWriteBytes_ignores_failed_restore :
  let s := Sim.one_page PAGE_READONLY 1 in
  let m : memory := fun _ => 0 in
  exists oldProtect s1,
    @VirtualProtect _ Sim.system s 0x1000 2 PAGE_EXECUTE_READWRITE
      = Some (oldProtect, s1)
    /\ oldProtect = PAGE_READONLY
    /\ @VirtualProtect _ Sim.system s1 0x1000 2 oldProtect = None
    /\ fst (fst (@MemoryEngine.SafeWriteBytes x64 _ Sim.system s m 0x1000 [1; 2]))
       = true
    /\ option_map Protect
         (@VirtualQuery _ Sim.system
            (snd (fst (@MemoryEngine.SafeWriteBytes x64 _ Sim.system s m 0x1000 [1; 2])))
            0x1000)
       = Some PAGE_EXECUTE_READWRITE.
Proof.
  cbv zeta. eexists. eexists.
  split; [reflexivity|]. repeat split; reflexivity.
Qed.

(* ------------------------------------------------------------------ *)
(** ** Length disassembler *)

Section LengthFacts.
Import LengthDisassembler.

Lemma GetModRMSize_nonneg (modRM : Z) (hasRex : bool) : 0 <= GetModRMSize modRM hasRex.
Proof.
  unfold GetModRMSize.
  repeat match goal with |- context [if ?c then _ else _] => destruct c end; lia.
Qed.

Lemma GetOpcodeSize_positive (data : Z -> Z) (hasRex : bool) :
  1 <= GetOpcodeSize data hasRex.
Proof.
  unfold GetOpcodeSize.
  pose proof (GetModRMSize_nonneg (data 1) hasRex).
  pose proof (GetModRMSize_nonneg (data 2) hasRex).
  pose proof (GetModRMSize_nonneg (data 3) hasRex).
  repeat match goal with
         | |- context [if ?c then _ else _] => destruct c
         end; lia.
Qed.

Lemma skip_prefixes_offset (fuel : nat) (data : Z -> Z) :
  forall offset hasRex o r,
    skip_prefixes fuel data offset hasRex = Some (o, r) -> offset <= o.
Proof.
  induction fuel as [|k IH]; intros offset hasRex o r; simpl; [discriminate|].
  destruct (IsPrefix (data offset)).
  - intros H. apply IH in H. lia.
  - intros [= <- <-]. lia.
Qed.

(** Every length that [GetLength] returns is at least 1. *)
Lemma GetLength_positive (fuel : nat) (data : Z -> Z) (n : Z) :
  GetLength fuel data = Some n -> 1 <= n.
Proof.
  unfold GetLength.
  destruct (skip_prefixes fuel data 0 false) as [[o r]|] eqn:E; [|discriminate].
  intros [= <-]. apply skip_prefixes_offset in E.
  pose proof (GetOpcodeSize_positive (fun i => data (o + i)) r). lia.
Qed.

(** A first byte that is not a prefix is sized at once. *)
Lemma GetLength_no_prefix (fuel : nat) (data : Z -> Z) :
  IsPrefix (data 0) = false ->
  GetLength (S fuel) data = Some (GetOpcodeSize (fun i => data (0 + i)) false).
Proof. intros H. unfold GetLength. simpl. now rewrite H. Qed.

End LengthFacts.

(** C3 (the code departs from the claim).  Of the opcodes that carry an
    immediate operand, [GetLength] sizes only [E8]/[E9] (5 bytes) and [EB]
    (2 bytes).  For [6A imm8], [68 imm32], [B0..B7 imm8], [B8..BF imm32]
    and [C2 imm16] it returns 1, the size of the bare opcode, where the
    assembled sizes are 2, 5, 2, 5 and 3. *)
Theorem GetLength_immediate_operands (fuel : nat) (imm : list Z) (rest : Z -> Z) :
  let len op := LengthDisassembler.GetLength (S fuel)
                  (LengthDisassembler.stream (op :: imm) rest) in
  len 0xE8 = Some 5 /\ len 0xE9 = Some 5 /\ len 0xEB = Some 2
  /\ len 0x6A = Some 1 /\ len 0x68 = Some 1 /\ len 0xC2 = Some 1
  /\ Forall (fun op => len op = Some 1)
       [0xB0; 0xB1; 0xB2; 0xB3; 0xB4; 0xB5; 0xB6; 0xB7;
        0xB8; 0xB9; 0xBA; 0xBB; 0xBC; 0xBD; 0xBE; 0xBF].
Proof.
  cbv zeta. repeat split; try reflexivity.
  repeat (constructor; [reflexivity|]). constructor.
Qed.

(** C4 (the code departs from the claim).  [GetLength] never returns 0:
    an opcode that is in none of its tables falls through to the size
    counted so far, which is at least 1.  [A9] ([test eax, imm32], five
    bytes, in no table) is sized as 1.  The test [instructionLength == 0]
    of [InstallHook] can therefore not fire. *)
Theorem GetLength_never_zero (fuel : nat) (data : Z -> Z) (rest : Z -> Z) :
  match LengthDisassembler.GetLength fuel data with
  | Some n => 1 <=? n
  | None => true
  end = true
  /\ LengthDisassembler.GetLength (S fuel)
       (LengthDisassembler.stream [0xA9; 0x78; 0x56; 0x34; 0x12] rest) = Some 1.
Proof.
  split; [|reflexivity].
  destruct (LengthDisassembler.GetLength fuel data) as [n|] eqn:E; [|reflexivity].
  apply GetLength_positive in E. now apply Z.leb_le.
Qed.

(* ------------------------------------------------------------------ *)
(** ** Detour engine *)

Section DetourFacts.
Context {P : Platform} {W : Type} {sys : OS W}.
Import DetoursLite.

Lemma find_hook_last (ts : list Trampoline) (t : Trampoline) (target : Z) :
  existsb (fun x => originalFunction x =? target) ts = false ->
  originalFunction t = target ->
  find_hook (ts ++ [t]) target = Some t.
Proof.
  intros Hn Ht. unfold find_hook.
  induction ts as [|x r IH]; simpl in *.
  - subst target. now rewrite Z.eqb_refl.
  - apply orb_false_iff in Hn as [Hx Hr]. rewrite Hx. now apply IH.
Qed.


(** The sizing loop never reports a zero length. *)
Lemma prologue_loop_never_fails (fuel lfuel : nat) (m : memory) (target hookSize : Z) :
  forall bytesToCopy,
    prologue_loop fuel lfuel m target hookSize bytesToCopy <> Some None.
Proof.
  induction fuel as [|k IH]; intros b; simpl; [discriminate|].
  destruct (b <? hookSize); [|discriminate].
  unfold GetInstructionLength.
  destruct (LengthDisassembler.GetLength lfuel _) as [n|] eqn:E; [|discriminate].
  apply GetLength_positive in E.
  destruct (n =? 0) eqn:E0; [apply Z.eqb_eq in E0; lia | apply IH].
Qed.

(** [InstallHook], path by path. *)
Lemma InstallHook_cases (fuel : nat) (p : Process W) (target detour : Z)
  (type : HookType) (r : InstallResult) :
  InstallHook fuel p target detour type = Some r ->
  (installed r = false /\ published r = None
   /\ (IsHooked p target = true
       \/ (exists n, prologue_loop fuel fuel (mem p) target
                       (CalculateHookSize (resolved type)) 0 = Some (Some n)
                     /\ (fst (CreateTrampoline (os p) target n) = 0
                         \/ SetMemoryProtection (snd (CreateTrampoline (os p) target n))
                              target (CalculateHookSize (resolved type))
                              PAGE_EXECUTE_READWRITE = None))
       \/ writer_ok type = false))
  \/ (installed r = true
      /\ IsHooked p target = false
      /\ writer_ok type = true
      /\ exists n a s1 oldProtect s2 m3,
           prologue_loop fuel fuel (mem p) target
             (CalculateHookSize (resolved type)) 0 = Some (Some n)
           /\ CreateTrampoline (os p) target n = (a, s1)
           /\ a <> 0
           /\ SetMemoryProtection s1 target (CalculateHookSize (resolved type))
                PAGE_EXECUTE_READWRITE = Some (oldProtect, s2)
           /\ published r = Some a
           /\ after r =
              {| os := match SetMemoryProtection s2 target
                               (CalculateHookSize (resolved type)) oldProtect with
                       | Some (_, s') => s'
                       | None => s2
                       end;
                 mem := m3;
                 trampolines :=
                   trampolines p ++
                   [{| originalFunction := target;
                       trampolineAddress := a;
                       originalSize := n;
                       originalBytes := load_bytes (mem p) target (Z.to_nat n);
                       isActive := true |}];
                 to_slot := to_slot p |}).
Proof.
  unfold InstallHook. cbv zeta.
  destruct (IsHooked p target) eqn:Hh.
  { intros [= <-]. left. simpl. auto. }
  destruct (prologue_loop fuel fuel (mem p) target
              (CalculateHookSize (resolved type)) 0) as [[n|]|] eqn:Hl;
    [| exfalso; eapply prologue_loop_never_fails, Hl | discriminate].
  destruct (CreateTrampoline (os p) target n) as [a s1] eqn:Hc.
  destruct (a =? 0) eqn:Ha.
  { intros [= <-]. left. simpl. repeat split. right. left.
    exists n. split; [reflexivity|]. left. rewrite Hc. simpl. now apply Z.eqb_eq. }
  destruct (BuildTrampoline fuel (mem p) a _ n target a) as [m1|]; [|discriminate].
  destruct (SetMemoryProtection s1 target _ PAGE_EXECUTE_READWRITE)
    as [[old s2]|] eqn:Hp.
  2:{ intros [= <-]. left. simpl. repeat split. right. left.
      exists n. split; [reflexivity|]. right. rewrite Hc. simpl. exact Hp. }
  assert (Hw : snd (match resolved type with
                    | JMP_RELATIVE => WriteJumpRelative m1 target detour
                    | JMP_ABSOLUTE => WriteJumpAbsolute m1 (to_slot p) target detour
                    | PUSH_RET => WritePushRet m1 target detour
                    | AUTO => (m1, false)
                    end) = writer_ok type).
  { unfold writer_ok, resolved, WriteJumpRelative, WriteJumpAbsolute, WritePushRet.
    destruct type; destruct is64Bit; reflexivity. }
  destruct (match resolved type with
            | JMP_RELATIVE => WriteJumpRelative m1 target detour
            | JMP_ABSOLUTE => WriteJumpAbsolute m1 (to_slot p) target detour
            | PUSH_RET => WritePushRet m1 target detour
            | AUTO => (m1, false)
            end) as [m2 success].
  simpl in Hw. subst success.
  destruct (writer_ok type) eqn:Hk.
  - intros [= <-]. right. simpl. split; [reflexivity|]. split; [reflexivity|].
    split; [reflexivity|].
    exists n, a, s1, old, s2. eexists.
    split; [first [exact Hl | reflexivity]|].
    split; [first [exact Hc | reflexivity]|].
    split; [now apply Z.eqb_neq|].
    split; [first [exact Hp | reflexivity]|]. split; reflexivity.
  - intros [= <-]. left. simpl. auto.
Qed.

End DetourFacts.

Section HookLifecycle.
Context {P : Platform} {W : Type} {sys : OS W}.
Import DetoursLite.


(** C6 (the code departs from the claim), general part: [EnableHook]
    touches neither the memory nor the system; it only flips the flag of
    the entry. *)
Lemma EnableHook_only_sets_flag (p : Process W) (target : Z) :
  mem (snd (EnableHook p target)) = mem p
  /\ os (snd (EnableHook p target)) = os p.
Proof.
  unfold EnableHook.
  destruct (find_hook (trampolines p) target) as [it|]; [|now split].
  destruct (isActive it); now split.
Qed.

(** [RelocateInstruction] reports success on every instruction, and
    leaves alone whatever does not start with [E8], [E9] or [0F]: the
    short jumps [EB] and [70..7F] among them. *)
Lemma RelocateInstruction_short_jump (m : memory) (instruction oldAddress newAddress : Z) :
  m instruction = 0xEB \/ 0x70 <= m instruction <= 0x7F ->
  RelocateInstruction m instruction oldAddress newAddress = (m, true).
Proof.
  intros H. unfold RelocateInstruction.
  destruct (m instruction =? 0xE8) eqn:E1; [apply Z.eqb_eq in E1; lia|].
  destruct (m instruction =? 0xE9) eqn:E2; [apply Z.eqb_eq in E2; lia|].
  destruct (m instruction =? 0x0F) eqn:E3; [apply Z.eqb_eq in E3; lia|].
  reflexivity.
Qed.

(** What decides an install that completes: it returns true exactly
    when the target was not hooked, the selected writer exists for the
    build, the trampoline was allocated and the protection change was
    granted.  The prologue enters only through its length. *)
Lemma InstallHook_succeeds_iff
  (fuel : nat) (p : Process W) (target detour : Z) (type : HookType)
  (r : InstallResult) :
  InstallHook fuel p target detour type = Some r ->
  (installed r = true <->
   IsHooked p target = false
   /\ writer_ok type = true
   /\ exists n,
        prologue_loop fuel fuel (mem p) target
          (CalculateHookSize (resolved type)) 0 = Some (Some n)
        /\ fst (CreateTrampoline (os p) target n) <> 0
        /\ SetMemoryProtection (snd (CreateTrampoline (os p) target n)) target
             (CalculateHookSize (resolved type)) PAGE_EXECUTE_READWRITE <> None).
Proof.
  intros Hi.
  apply InstallHook_cases in Hi
    as [(Hf & _ & Hc) | (Ht & Hh & Hw & n & a & s1 & old & s2 & m3 & Hl & Hc & Ha & Hp & _)].
  - split; [congruence|].
    intros (Hh & Hw & n & Hl & Ha & Hp).
    destruct Hc as [Hc | [(n' & Hl' & Hc) | Hc]]; [congruence | | congruence].
    rewrite Hl in Hl'. injection Hl' as <-.
    destruct Hc as [Hc | Hc]; contradiction.
  - split; [|intros _; exact Ht].
    intros _. split; [exact Hh|]. split; [exact Hw|].
    exists n. split; [exact Hl|]. rewrite Hc. simpl. split; [exact Ha|].
    rewrite Hp. discriminate.
Qed.

End HookLifecycle.



(** C6 (the code departs from the claim).  [EnableHook] changes neither
    memory nor system state.  On the 64-bit build: install an absolute
    jump over the prologue at 0x1000, disable it, enable it again; both
    calls return true, and the 14 bytes at the target are still the
    original ones (the prologue and the [nop]s behind it), not
    [FF 25 00 00 00 00] followed by the detour address, which the install
    had written. *)
Theorem EnableHook_does_not_rewrite_hook :
  (forall (P : Platform) (W : Type) (sys : OS W)
          (p : DetoursLite.Process W) (target : Z),
      DetoursLite.mem (snd (DetoursLite.EnableHook p target)) = DetoursLite.mem p
      /\ DetoursLite.os (snd (DetoursLite.EnableHook p target)) = DetoursLite.os p)
  /\ match @DetoursLite.InstallHook x64 _ Sim.system 20
             (Sim.process Sim.frame_prologue 4) 0x1000 0x5000
             DetoursLite.JMP_ABSOLUTE with
     | Some r =>
         let d := @DetoursLite.DisableHook _ Sim.system (DetoursLite.after r) 0x1000 in
         let e := @DetoursLite.EnableHook _ (snd d) 0x1000 in
         DetoursLite.installed r = true
         /\ load_bytes (DetoursLite.mem (DetoursLite.after r)) 0x1000 14
            = [0xFF; 0x25; 0; 0; 0; 0; 0x00; 0x50; 0; 0; 0; 0; 0; 0]
         /\ fst d = true /\ fst e = true
         /\ map DetoursLite.isActive (DetoursLite.trampolines (snd e)) = [true]
         /\ load_bytes (DetoursLite.mem (snd e)) 0x1000 14
            = [0x55; 0x48; 0x89; 0xE5; 0x48; 0x83; 0xEC; 0x20;
               0x90; 0x90; 0x90; 0x90; 0x90; 0x90]
     | None => False
     end.
Proof.
  split.
  - intros. apply EnableHook_only_sets_flag.
  - vm_compute. repeat split.
Qed.

(** C7 (the code departs from the claim).  A short-form relative jump
    in the prologue does not make the install fail.
    [RelocateInstruction], which [BuildTrampoline] calls on every copied
    instruction and which rewrites the displacement of [E8], [E9] and
    [0F 8x], leaves [EB] and [70..7F] as they are and reports success;
    and whether an install that completes returns true does not depend
    on the content of the prologue at all.  On the 32-bit build, with
    [EB 05] (a jump to 0x1007) at the target 0x1000: the install returns
    true and publishes the trampoline at 0x20000; the trampoline holds
    the prologue unchanged, [EB 05 90 90 90], followed by the jump back
    [E9 FB 0F FE FF]; the copied short jump now goes to 0x20007, into the
    middle of the jump back, not to 0x1007. *)
Theorem InstallHook_installs_over_short_jump :
  (forall (P : Platform) (m : memory) (instruction oldAddress newAddress : Z),
      m instruction = 0xEB \/ 0x70 <= m instruction <= 0x7F ->
      DetoursLite.RelocateInstruction m instruction oldAddress newAddress = (m, true))
  /\ (forall (P : Platform) (W : Type) (sys : OS W) (fuel : nat)
             (p : DetoursLite.Process W) (target detour : Z)
             (type : DetoursLite.HookType) (r : DetoursLite.InstallResult),
         DetoursLite.InstallHook fuel p target detour type = Some r ->
         (DetoursLite.installed r = true <->
          DetoursLite.IsHooked p target = false
          /\ DetoursLite.writer_ok type = true
          /\ exists n,
               DetoursLite.prologue_loop fuel fuel (DetoursLite.mem p) target
                 (DetoursLite.CalculateHookSize (DetoursLite.resolved type)) 0
               = Some (Some n)
               /\ fst (DetoursLite.CreateTrampoline (DetoursLite.os p) target n) <> 0
               /\ DetoursLite.SetMemoryProtection
                    (snd (DetoursLite.CreateTrampoline (DetoursLite.os p) target n))
                    target (DetoursLite.CalculateHookSize (DetoursLite.resolved type))
                    PAGE_EXECUTE_READWRITE <> None))
  /\ let p := Sim.process Sim.short_jump_prologue 2 in
     match @DetoursLite.InstallHook x86 _ Sim.system 20 p 0x1000 0x5000
             DetoursLite.AUTO with
     | Some r =>
         let m' := DetoursLite.mem (DetoursLite.after r) in
         load_bytes (DetoursLite.mem p) 0x1000 2 = [0xEB; 0x05]
         /\ @DetoursLite.rel8_target x86 (DetoursLite.mem p) 0x1000 = 0x1007
         /\ DetoursLite.installed r = true
         /\ DetoursLite.published r = Some 0x20000
         /\ load_bytes m' 0x1000 5 = [0xE9; 0xFB; 0x3F; 0x00; 0x00]
         /\ load_bytes m' 0x20000 10
            = [0xEB; 0x05; 0x90; 0x90; 0x90; 0xE9; 0xFB; 0x0F; 0xFE; 0xFF]
         /\ @DetoursLite.rel8_target x86 m' 0x20000 = 0x20007
         /\ @DetoursLite.rel32_target x86 m' 0x20005 = 0x1005
     | None => False
     end.
Proof.
  split; [|split].
  - intros. now apply RelocateInstruction_short_jump.
  - intros P W sys fuel p target detour type r H.
    exact (InstallHook_succeeds_iff fuel p target detour type r H).
  - vm_compute. repeat split.
Qed.

(* ------------------------------------------------------------------ *)
(** ** Pointer chains *)

Lemma load_bytes_seq (m : memory) (n : nat) :
  forall a, load_bytes m a n = map (fun i => m (a + Z.of_nat i)) (seq 0 n).
Proof.
  induction n as [|n IH]; intros a; [reflexivity|].
  cbn [load_bytes seq map]. rewrite Z.add_0_r. f_equal.
  rewrite IH, <- seq_shift, map_map. apply map_ext. intros i. f_equal. lia.
Qed.

Section PointerChainFacts.
Context {P : Platform} {W : Type} {sys : OS W}.
Import MemoryEngine.

Lemma SafeRead_unreadable (s : W) (m : memory) (address size : Z) :
  IsAddressReadable s address size = false -> SafeRead s m address size = None.
Proof. intros H. unfold SafeRead. now rewrite H. Qed.

Lemma SafeMemcpy_from (s : W) (m : memory) (a : Z) (n : nat) :
  forall k,
    SafeMemcpy s m (a + Z.of_nat k) n
    = if forallb (fun i => may_read s (a + Z.of_nat i)) (seq k n)
      then Some (map (fun i => m (a + Z.of_nat i)) (seq k n))
      else None.
Proof.
  induction n as [|n IH]; intros k; cbn [SafeMemcpy seq forallb map]; [reflexivity|].
  destruct (may_read s (a + Z.of_nat k)); [|reflexivity].
  replace (a + Z.of_nat k + 1) with (a + Z.of_nat (S k)) by lia.
  rewrite IH. cbn [andb].
  destruct (forallb _ (seq (S k) n)); reflexivity.
Qed.

(** The engine's read of a word, against memory and the system: it has
    a value exactly when the word is readable, and the value is the word
    that memory holds. *)
Lemma SafeRead_word (s : W) (m : memory) (p : Z) :
  SafeRead s m p word_size = if word_readable s p then Some (word_at m p) else None.
Proof.
  unfold SafeRead, word_readable, word_at.
  destruct (IsAddressReadable s p word_size); cbn [negb andb]; [|reflexivity].
  pose proof (SafeMemcpy_from s m p (Z.to_nat word_size) 0) as H.
  rewrite Z.add_0_r in H. rewrite H.
  destruct (forallb _ _); reflexivity.
Qed.

Lemma word_readable_gate (s : W) (p : Z) :
  word_readable s p = true -> IsAddressReadable s p word_size = true.
Proof. unfold word_readable. intros H. now apply andb_true_iff in H. Qed.

Lemma FollowPointerChain_from_spec (s : W) (m : memory) (size : Z) :
  forall rest i currentAddress,
    0 <= i -> i + Z.of_nat (length rest) = size ->
    FollowPointerChain_from s m size i rest currentAddress
    = pointer_chain_spec s m currentAddress rest.
Proof.
  induction rest as [|offset rest IH]; intros i cur Hi Hs; simpl; [reflexivity|].
  rewrite SafeRead_word.
  destruct (word_readable s cur); [|reflexivity].
  destruct ((i <? wrap (size - 1))
            && negb (IsAddressReadable s (wrap (word_at m cur + offset)) word_size)) eqn:E.
  - apply andb_true_iff in E as [E1 E2].
    apply Z.ltb_lt in E1. apply negb_true_iff in E2.
    simpl length in Hs.
    assert (Hw : wrap (size - 1) <= size - 1) by (apply wrap_le; lia).
    destruct rest as [|o' rest']; [simpl in Hs; lia|].
    simpl.
    destruct (word_readable s (wrap (word_at m cur + offset))) eqn:Er; [|reflexivity].
    apply word_readable_gate in Er. congruence.
  - apply IH; [lia | simpl length in Hs; lia].
Qed.

Lemma FollowPointerChain_spec (s : W) (m : memory) (base : Z) (offsets : list Z) :
  FollowPointerChain s m base offsets = pointer_chain_spec s m base offsets.
Proof. unfold FollowPointerChain. apply FollowPointerChain_from_spec; lia. Qed.

(** Readability of a word, from what the system answers: a region that
    is committed, covers the word and has a readable protection, and no
    byte of the word faulting. *)
Lemma word_readable_system (s : W) (p : Z) (mbi : MEMORY_BASIC_INFORMATION) :
  VirtualQuery s p = Some mbi ->
  0 < p -> p + word_size <= ptr_mod ->
  0 <= BaseAddress mbi -> 0 < RegionSize mbi ->
  BaseAddress mbi + RegionSize mbi <= ptr_mod ->
  word_readable s p = true
  <-> State mbi = MEM_COMMIT
      /\ p + word_size <= BaseAddress mbi + RegionSize mbi
      /\ Z.land (Protect mbi) readable_mask <> 0
      /\ forall i, 0 <= i < word_size -> may_read s (p + i) = true.
Proof.
  intros Hq Hp Hpw Hb Hr Hbr.
  assert (Hws : 0 < word_size) by (unfold word_size; destruct is64Bit; lia).
  pose proof (IsAddressValid_covers s p word_size mbi Hq Hp Hws Hpw Hr Hb Hbr) as Hv.
  unfold word_readable, IsAddressReadable. rewrite Hq.
  rewrite andb_true_iff, forallb_forall.
  assert (Hfault : (forall x, In x (seq 0 (Z.to_nat word_size)) ->
                               may_read s (p + Z.of_nat x) = true)
                   <-> forall i, 0 <= i < word_size -> may_read s (p + i) = true).
  { split.
    - intros H i Hi. replace i with (Z.of_nat (Z.to_nat i)) by lia.
      apply H. apply in_seq. lia.
    - intros H x Hx. apply in_seq in Hx. apply H. lia. }
  rewrite Hfault.
  destruct (IsAddressValid s p word_size) eqn:Ev; cbn [negb].
  - destruct (proj1 Hv eq_refl) as [Hc Hcov].
    rewrite negb_true_iff, Z.eqb_neq. tauto.
  - split; [intros [H _]; discriminate|].
    intros (Hc & Hcov & _). assert (false = true) by (apply Hv; tauto). discriminate.
Qed.

End PointerChainFacts.

(** C8.  [FollowPointerChain] computes what the claim describes.  From
    [p = base], each offset in turn requires the word at [p] to be
    readable, takes for [q] the pointer-sized word that memory holds at
    [p], and moves to [q + offset]; the address reached after the last
    offset is returned without being read.  The specification side
    ([pointer_chain_spec]) reads memory itself and does not go through
    the engine's read; the readability test that the code makes ahead of
    the next round does not change the result.  In terms of what the
    system answers: a step from an address that the system does not know,
    whose region is not committed, does not cover the word or has no
    readable protection, or at which a byte of the word faults, is a
    failure; a step from a word that the system reports readable goes on
    from the stored word plus the offset. *)
Theorem FollowPointerChain_refines_spec
  {P : Platform} {W : Type} {sys : OS W}
  (s : W) (m : memory) (baseAddress : Z) (offsets : list Z) :
  MemoryEngine.FollowPointerChain s m baseAddress offsets
  = MemoryEngine.pointer_chain_spec s m baseAddress offsets
  /\ (forall o rest,
         VirtualQuery s baseAddress = None
         \/ (exists mbi, VirtualQuery s baseAddress = Some mbi
                         /\ (State mbi <> MEM_COMMIT
                             \/ Z.land (Protect mbi) MemoryEngine.readable_mask = 0))
         \/ (exists mbi, VirtualQuery s baseAddress = Some mbi
                         /\ 0 < baseAddress /\ baseAddress + word_size <= ptr_mod
                         /\ 0 <= BaseAddress mbi /\ 0 < RegionSize mbi
                         /\ BaseAddress mbi + RegionSize mbi <= ptr_mod
                         /\ BaseAddress mbi + RegionSize mbi < baseAddress + word_size)
         \/ (exists i, 0 <= i < word_size /\ may_read s (baseAddress + i) = false) ->
         MemoryEngine.FollowPointerChain s m baseAddress (o :: rest) = None)
  /\ (forall mbi o rest,
         VirtualQuery s baseAddress = Some mbi ->
         0 < baseAddress -> baseAddress + word_size <= ptr_mod ->
         0 <= BaseAddress mbi -> 0 < RegionSize mbi ->
         BaseAddress mbi + RegionSize mbi <= ptr_mod ->
         State mbi = MEM_COMMIT ->
         baseAddress + word_size <= BaseAddress mbi + RegionSize mbi ->
         Z.land (Protect mbi) MemoryEngine.readable_mask <> 0 ->
         (forall i, 0 <= i < word_size -> may_read s (baseAddress + i) = true) ->
         MemoryEngine.FollowPointerChain s m baseAddress (o :: rest)
         = MemoryEngine.FollowPointerChain s m
             (wrap (le_value (load_bytes m baseAddress (Z.to_nat word_size)) + o)) rest).
Proof.
  split; [apply FollowPointerChain_spec|]. split.
  - intros o rest Hc. rewrite FollowPointerChain_spec.
    cbn [MemoryEngine.pointer_chain_spec].
    assert (Hn : MemoryEngine.word_readable s baseAddress = false); [|now rewrite Hn].
    destruct (MemoryEngine.word_readable s baseAddress) eqn:Er; [|reflexivity].
    exfalso.
    destruct Hc as [Hq | [(mbi & Hq & Hc) | [(mbi & Hq & Hp & Hpw & Hb & Hr & Hbr & Hc)
                                           | (i & Hi & Hf)]]].
    + apply word_readable_gate in Er.
      unfold MemoryEngine.IsAddressReadable, MemoryEngine.IsAddressValid in Er.
      rewrite Hq in Er. destruct (baseAddress =? 0); discriminate.
    + apply word_readable_gate in Er.
      unfold MemoryEngine.IsAddressReadable, MemoryEngine.IsAddressValid in Er.
      rewrite Hq in Er. destruct (baseAddress =? 0); [discriminate|].
      destruct Hc as [Hc | Hc].
      * apply Z.eqb_neq in Hc. rewrite Hc in Er. discriminate.
      * rewrite Hc in Er.
        destruct (negb (State mbi =? MEM_COMMIT)); [discriminate|].
        destruct (_ <=? _); discriminate.
    + apply (word_readable_system s baseAddress mbi Hq Hp Hpw Hb Hr Hbr) in Er. lia.
    + unfold MemoryEngine.word_readable in Er. apply andb_true_iff in Er as [_ Er].
      rewrite forallb_forall in Er.
      specialize (Er (Z.to_nat i)). rewrite Z2Nat.id in Er by lia.
      rewrite Er in Hf; [discriminate|]. apply in_seq. lia.
  - intros mbi o rest Hq Hp Hpw Hb Hr Hbr Hc Hcov Hprot Hread.
    rewrite !FollowPointerChain_spec. cbn [MemoryEngine.pointer_chain_spec].
    rewrite (proj2 (word_readable_system s baseAddress mbi Hq Hp Hpw Hb Hr Hbr))
      by tauto.
    unfold MemoryEngine.word_at.
    replace (map (fun i => m (baseAddress + Z.of_nat i)) (seq 0 (Z.to_nat word_size)))
      with (load_bytes m baseAddress (Z.to_nat word_size)); [reflexivity|].
    apply load_bytes_seq.
Qed.

(** The chain of [Scenario.chain_memory]: from 0x1000 the offsets 0x10
    and 0x8 lead through the words 0x1100 and 0x1200 to 0x1208, which is
    not read; from an address outside the page there is no value. *)
Lemma FollowPointerChain_refines_spec_witness :
  @MemoryEngine.FollowPointerChain x64 _ Sim.system
    (Sim.one_page PAGE_READWRITE 0) Scenario.chain_memory 0x1000 [0x10; 0x8]
  = Some 0x1208
  /\ @MemoryEngine.FollowPointerChain x64 _ Sim.system
       (Sim.one_page PAGE_READWRITE 0) Scenario.chain_memory 0x3000 [0x10; 0x8]
     = None.
Proof.
  split.
  - rewrite (proj1 (@FollowPointerChain_refines_spec x64 _ Sim.system
                      (Sim.one_page PAGE_READWRITE 0) Scenario.chain_memory
                      0x1000 [0x10; 0x8])).
    vm_compute. reflexivity.
  - apply (proj1 (proj2 (@FollowPointerChain_refines_spec x64 _ Sim.system
                           (Sim.one_page PAGE_READWRITE 0) Scenario.chain_memory
                           0x3000 []))).
    left. reflexivity.
Defined.

(* ------------------------------------------------------------------ *)
(** ** Next scan *)

Section NextScanFacts.
Context {P : Platform} {W : Type} {sys : OS W}.
Variable StringToValue : string -> string -> list Z.
Variable CompareFloatValues : string -> list Z -> list Z -> string -> bool.
Import MemoryEngine.





End NextScanFacts.



(* ------------------------------------------------------------------ *)
(** ** Scan loops *)

Section ScanLoopFacts.
Context {P : Platform}.
Import MemoryEngine.

(** When the needle fits in the block, every tested position leaves room
    for the needle inside the block. *)
Lemma scan_positions_in_block (dataSize needleSize stride : Z) :
  0 <= needleSize <= dataSize -> dataSize < ptr_mod ->
  forall fuel i x,
    In x (scan_positions fuel dataSize needleSize stride i) ->
    x + needleSize <= dataSize.
Proof.
  intros Hn Hd. induction fuel as [|k IH]; intros i x; simpl; [intros []|].
  destruct (i <=? wrap (dataSize - needleSize)) eqn:E; [|intros []].
  apply Z.leb_le in E. rewrite wrap_small in E by lia.
  intros [<- | Hx]; [lia | eapply IH, Hx].
Qed.

(** When the block is shorter than the needle, the bound wraps around
    and position 0 is tested. *)
Lemma scan_positions_short_block (fuel : nat) (dataSize needleSize stride : Z) :
  0 <= dataSize < needleSize ->
  In 0 (scan_positions (S fuel) dataSize needleSize stride 0).
Proof.
  intros H. simpl.
  pose proof (wrap_range (dataSize - needleSize)) as Hw.
  destruct (0 <=? wrap (dataSize - needleSize)) eqn:E; [now left|].
  apply Z.leb_gt in E. lia.
Qed.

End ScanLoopFacts.

(** C10 (the code departs from the claim).  The bound
    [data.size() - needle.size()] is computed in [size_t]: for a block of
    2 bytes and a needle of 4 it is 2^64-2, so the loops of [FirstScan],
    [ScanForValue] and [PatternScanAll] do test positions, from 0 on,
    although no position has room for the needle; the comparison reads
    past the block, and with zero bytes behind it each loop reports a
    match at the start of the block. *)
Theorem scan_loops_test_past_short_block :
  let block := [7; 0] in
  let needle := [7; 0; 0; 0] in
  let heap : Z -> Z := fun _ => 0 in
  let options := {| MemoryEngine.startAddress := 0x1000;
                    MemoryEngine.endAddress := 0x1002;
                    MemoryEngine.alignment := 1;
                    MemoryEngine.filterWritable := MemoryEngine.Yes;
                    MemoryEngine.filterExecutable := MemoryEngine.Any;
                    MemoryEngine.filterCopyOnWrite := MemoryEngine.Any;
                    MemoryEngine.previousResults := None |} in
  @wrap x64 (Z.of_nat (length block) - Z.of_nat (length needle)) = 2 ^ 64 - 2
  /\ @MemoryEngine.scan_positions x64 3 2 4 1 0 = [0; 1; 2]
  /\ map MemoryEngine.address
       (@MemoryEngine.FirstScan_block x64 3 block heap needle "int32" options 0x1000)
     = [0x1000]
  /\ map MemoryEngine.address
       (@MemoryEngine.ScanForValue_block x64 3 block heap needle options 0x1000)
     = [0x1000]
  /\ @MemoryEngine.PatternScanAll_block x64 3 block heap needle [120; 120; 120; 120]
       0x1000
     = [0x1000].
Proof. cbv zeta. repeat split; vm_compute; reflexivity. Qed.

(* ================================================================== *)
(** * Further properties of the memory access layer *)

Section AccessLayer.
Context {P : Platform} {W : Type} {sys : OS W}.
Import MemoryEngine.

Lemma writable_bits_readable (p : Z) :
  Z.land p writable_mask <> 0 -> Z.land p readable_mask <> 0.
Proof.
  intros Hw Hr. apply Hw.
  replace writable_mask with (Z.land readable_mask writable_mask) by reflexivity.
  rewrite Z.land_assoc, Hr. reflexivity.
Qed.

Lemma SafeReadBytes_nonempty (s : W) (m : memory) (address size : Z) (bs : list Z) :
  SafeReadBytes s m address size = Returned bs ->
  bs <> [] ->
  bs = load_bytes m address (Z.to_nat size)
  /\ IsAddressReadable s address size = true.
Proof.
  unfold SafeReadBytes. intros H Hne.
  destruct (IsAddressReadable s address size); simpl in H;
    [|injection H as <-; contradiction].
  destruct (vector_max_size <? size); [discriminate|].
  destruct (SafeMemcpy s m address (Z.to_nat size)) as [b|] eqn:E.
  - injection H as <-. split; [eapply SafeMemcpy_bytes, E | reflexivity].
  - injection H as <-. contradiction.
Qed.

(** X1.  A non-empty result of [SafeReadBytes] is exactly the content
    of memory at the requested range, and the range had passed the
    readability gate. *)
Theorem SafeReadBytes_reads_memory (s : W) (m : memory) (address size : Z) (bs : list Z) :
  SafeReadBytes s m address size = Returned bs ->
  bs <> [] ->
  bs = load_bytes m address (Z.to_nat size)
  /\ IsAddressReadable s address size = true.
Proof. apply SafeReadBytes_nonempty. Qed.

(** X2.  For a range that does not wrap around the address space, the
    read fails closed: a region that is not committed, that ends before
    [address + size], or that has none of the readable protections gives
    the empty result. *)
Theorem SafeReadBytes_fail_closed_in_range
  (s : W) (m : memory) (address size : Z) (mbi : MEMORY_BASIC_INFORMATION) :
  VirtualQuery s address = Some mbi ->
  0 < address -> 0 < size -> address + size <= ptr_mod ->
  0 <= BaseAddress mbi -> 0 < RegionSize mbi ->
  BaseAddress mbi + RegionSize mbi <= ptr_mod ->
  State mbi <> MEM_COMMIT
  \/ BaseAddress mbi + RegionSize mbi < address + size
  \/ Z.land (Protect mbi) readable_mask = 0 ->
  SafeReadBytes s m address size = Returned [].
Proof.
  intros Hq Ha Hs Hw Hb Hr Hrw H.
  apply SafeReadBytes_fail_closed. rewrite Hq.
  rewrite !wrap_small by lia.
  destruct H as [H | [H | H]]; [now left | right; left; lia | now right; right].
Qed.

(** X3.  Whatever passes the writability gate passes the readability
    gate: every protection that counts as writable counts as readable. *)
Theorem IsAddressWritable_readable (s : W) (address size : Z) :
  IsAddressWritable s address size = true ->
  IsAddressReadable s address size = true.
Proof.
  unfold IsAddressWritable, IsAddressReadable.
  destruct (IsAddressValid s address size); simpl; [|discriminate].
  destruct (VirtualQuery s address) as [mbi|]; [|discriminate].
  intros H. apply negb_true_iff in H. apply Z.eqb_neq in H.
  apply negb_true_iff. apply Z.eqb_neq. now apply writable_bits_readable.
Qed.

Lemma SafeWriteBytes_true_memory (s : W) (m : memory) (address : Z) (bytes : list Z)
  (s' : W) (m' : memory) :
  SafeWriteBytes s m address bytes = (true, s', m') ->
  m' = store_bytes m address bytes /\ bytes <> [].
Proof.
  unfold SafeWriteBytes. destruct bytes as [|b r]; [discriminate|].
  destruct (IsAddressValid s address _); simpl negb; cbv iota; [|discriminate].
  intros H. apply SafeWriteMemory_cases in H. cbv zeta in H.
  destruct (VirtualProtect s address _ PAGE_EXECUTE_READWRITE) as [[old s1]|].
  - destruct (snd (guarded_store s1 m address (b :: r))).
    + destruct H as (_ & -> & _). split; [reflexivity | discriminate].
    + destruct H as [H _]. discriminate.
  - destruct H as [H _]. discriminate.
Qed.

Lemma SafeMemcpy_fault_free (s : W) (m : memory) (n : nat) :
  forall a, (forall i, 0 <= i < Z.of_nat n -> may_read s (a + i) = true) ->
            SafeMemcpy s m a n = Some (load_bytes m a n).
Proof.
  induction n as [|n IH]; intros a H; simpl; [reflexivity|].
  rewrite <- (Z.add_0_r a) at 1. rewrite H by lia.
  rewrite IH; [reflexivity|].
  intros i Hi. rewrite <- Z.add_assoc. apply H. lia.
Qed.

(** X4.  Write, then read: after a [SafeWriteBytes] that returned true,
    a [SafeReadBytes] of the same range returns the payload, provided
    the range is readable in the state the write left behind and the
    copy does not fault. *)
Theorem SafeWriteBytes_then_SafeReadBytes
  (s : W) (m : memory) (address : Z) (bytes : list Z) (s' : W) (m' : memory) :
  SafeWriteBytes s m address bytes = (true, s', m') ->
  Z.of_nat (length bytes) <= vector_max_size ->
  IsAddressReadable s' address (Z.of_nat (length bytes)) = true ->
  (forall i, 0 <= i < Z.of_nat (length bytes) -> may_read s' (address + i) = true) ->
  SafeReadBytes s' m' address (Z.of_nat (length bytes)) = Returned bytes.
Proof.
  intros Hw Hmax Hr Hf.
  apply SafeWriteBytes_true_memory in Hw as [-> _].
  unfold SafeReadBytes. rewrite Hr. simpl.
  destruct (vector_max_size <? _) eqn:E; [apply Z.ltb_lt in E; lia|].
  rewrite Nat2Z.id, SafeMemcpy_fault_free by exact Hf.
  now rewrite load_store_bytes.
Qed.

(** X5.  [PatchBytes] verifies before it writes.  When it returns true,
    the bytes at the address were the expected original bytes and the
    new bytes are in place afterwards; when the bytes at the address
    differ from the expected ones, it returns false and changes neither
    memory nor system state. *)
Theorem PatchBytes_verify_then_write
  (s : W) (m : memory) (address : Z) (originalBytes newBytes : list Z)
  (r : bool) (s' : W) (m' : memory) :
  PatchBytes s m address originalBytes newBytes = Returned (r, s', m') ->
  (r = true ->
   load_bytes m address (length originalBytes) = originalBytes
   /\ load_bytes m' address (length newBytes) = newBytes)
  /\ (load_bytes m address (length originalBytes) <> originalBytes ->
      r = false /\ s' = s /\ m' = m).
Proof.
  unfold PatchBytes.
  destruct (SafeReadBytes s m address (Z.of_nat (length originalBytes)))
    as [cur|e] eqn:Hread; [|discriminate].
  destruct (bytes_eqb cur originalBytes) eqn:Heq; simpl negb; cbv iota.
  - apply bytes_eqb_eq in Heq. subst cur.
    assert (Hm : load_bytes m address (length originalBytes) = originalBytes).
    { destruct originalBytes as [|b l]; [reflexivity|].
      apply SafeReadBytes_nonempty in Hread as [Hb _]; [|discriminate].
      rewrite Nat2Z.id in Hb. now symmetry. }
    intros [= H]. split; [|intros Hne; contradiction].
    intros ->. split; [exact Hm|].
    apply SafeWriteBytes_true_memory in H as [-> _]. apply load_store_bytes.
  - intros [= <- <- <-]. split; [discriminate | auto].
Qed.

(** X6.  [NopInstruction] that returns true has filled the range with
    [0x90]; asked for no bytes at all it returns false and changes
    nothing. *)
Theorem NopInstruction_fills (s : W) (m : memory) (address size : Z)
  (r : bool) (s' : W) (m' : memory) :
  NopInstruction s m address size = Returned (r, s', m') ->
  (r = true ->
   0 < size
   /\ load_bytes m' address (Z.to_nat size) = repeat 0x90 (Z.to_nat size))
  /\ (size <= 0 -> r = false /\ s' = s /\ m' = m).
Proof.
  unfold NopInstruction.
  destruct (vector_max_size <? size); [discriminate|].
  intros [= H]. split.
  - intros ->. apply SafeWriteBytes_true_memory in H as [-> Hne].
    split.
    + destruct (Z.to_nat size) eqn:E; [now contradiction Hne | lia].
    + pose proof (load_store_bytes (repeat 0x90 (Z.to_nat size)) m address) as L.
      rewrite repeat_length in L. exact L.
  - intros Hs. replace (Z.to_nat size) with 0%nat in H by lia.
    simpl in H. injection H as <- <- <-. auto.
Qed.

Lemma pointer_chain_spec_app (s : W) (m : memory) (l1 l2 : list Z) :
  forall p,
    pointer_chain_spec s m p (l1 ++ l2)
    = match pointer_chain_spec s m p l1 with
      | Some q => pointer_chain_spec s m q l2
      | None => None
      end.
Proof.
  induction l1 as [|o l1 IH]; intros p; simpl; [reflexivity|].
  destruct (word_readable s p); [apply IH | reflexivity].
Qed.

(** X7.  Pointer chains compose: following [l1 ++ l2] from [base] is
    following [l1] from [base] and then [l2] from the address reached;
    a failure in the first part is a failure of the whole. *)
Theorem FollowPointerChain_app (s : W) (m : memory) (base : Z) (l1 l2 : list Z) :
  FollowPointerChain s m base (l1 ++ l2)
  = match FollowPointerChain s m base l1 with
    | Some q => FollowPointerChain s m q l2
    | None => None
    end.
Proof.
  unfold FollowPointerChain.
  rewrite !FollowPointerChain_from_spec by lia.
  rewrite pointer_chain_spec_app.
  destruct (pointer_chain_spec s m base l1) as [q|]; [|reflexivity].
  now rewrite FollowPointerChain_from_spec by lia.
Qed.

End AccessLayer.

Lemma SafeReadBytes_reads_memory_witness :
  let s := Sim.one_page PAGE_READONLY 0 in
  let m := Sim.image 0x1000 [1; 2; 3; 4] 0 in
  [1; 2; 3; 4] = load_bytes m 0x1000 (Z.to_nat 4)
  /\ @MemoryEngine.IsAddressReadable x64 _ Sim.system s 0x1000 4 = true.
Proof.
  cbv zeta.
  apply (@SafeReadBytes_reads_memory x64 _ Sim.system);
    [reflexivity | discriminate].
Defined.

Lemma SafeReadBytes_fail_closed_in_range_witness :
  @MemoryEngine.SafeReadBytes x64 _ Sim.system (Sim.one_page PAGE_NOACCESS 0)
    (fun _ => 7) 0x1FFE 4 = Returned [].
Proof.
  apply (@SafeReadBytes_fail_closed_in_range x64 _ Sim.system _ _ _ _
           {| BaseAddress := 0x1000; RegionSize := 0x1000;
              State := MEM_COMMIT; Protect := PAGE_NOACCESS |});
    try reflexivity; cbn; lia.
Defined.

Lemma IsAddressWritable_readable_witness :
  @MemoryEngine.IsAddressReadable x64 _ Sim.system
    (Sim.one_page PAGE_WRITECOPY 0) 0x1800 8 = true.
Proof.
  apply (@IsAddressWritable_readable x64 _ Sim.system). reflexivity.
Defined.

Lemma SafeWriteBytes_then_SafeReadBytes_witness :
  let s := Sim.one_page PAGE_READONLY 2 in
  let m : memory := fun _ => 0 in
  match @MemoryEngine.SafeWriteBytes x64 _ Sim.system s m 0x1000 [1; 2] with
  | (r, s', m') =>
      r = true
      /\ @MemoryEngine.SafeReadBytes x64 _ Sim.system s' m' 0x1000 2 = Returned [1; 2]
  end.
Proof.
  cbv zeta.
  destruct (@MemoryEngine.SafeWriteBytes x64 _ Sim.system
              (Sim.one_page PAGE_READONLY 2) (fun _ => 0) 0x1000 [1; 2])
    as [[r s'] m'] eqn:E.
  assert (Hr : r = true)
    by (apply (f_equal (fun x => fst (fst x))) in E; exact (eq_sym E)).
  assert (Hs : s' = Sim.one_page PAGE_READONLY 0)
    by (apply (f_equal (fun x => snd (fst x))) in E; exact (eq_sym E)).
  subst r. split; [reflexivity|].
  apply (@SafeWriteBytes_then_SafeReadBytes x64 _ Sim.system _ _ _ _ _ _ E).
  - vm_compute. discriminate.
  - subst s'. reflexivity.
  - subst s'. intros i Hi.
    assert (Hc : i = 0 \/ i = 1) by (simpl in Hi; lia).
    destruct Hc as [-> | ->]; reflexivity.
Defined.

Lemma PatchBytes_verify_then_write_witness :
  let s := Sim.one_page PAGE_READWRITE 2 in
  let m := Sim.image 0x1000 [0x74; 0x05] 0x90 in
  match @MemoryEngine.PatchBytes x64 _ Sim.system s m 0x1000 [0x74; 0x05] [0xEB; 0x05] with
  | Returned (r, s', m') =>
      r = true
      /\ load_bytes m 0x1000 2 = [0x74; 0x05]
      /\ load_bytes m' 0x1000 2 = [0xEB; 0x05]
  | Raised _ => False
  end.
Proof.
  cbv zeta.
  destruct (@MemoryEngine.PatchBytes x64 _ Sim.system
              (Sim.one_page PAGE_READWRITE 2) (Sim.image 0x1000 [0x74; 0x05] 0x90)
              0x1000 [0x74; 0x05] [0xEB; 0x05]) as [[[r s'] m']|e] eqn:E.
  - assert (Hr : r = true).
    { apply (f_equal (fun o => match o with
                               | Returned (b, _, _) => b
                               | Raised _ => false
                               end)) in E.
      exact (eq_sym E). }
    split; [exact Hr|].
    exact (proj1 (@PatchBytes_verify_then_write x64 _ Sim.system _ _ _ _ _ _ _ _ E) Hr).
  - vm_compute in E. discriminate E.
Defined.

Lemma NopInstruction_fills_witness :
  let s := Sim.one_page PAGE_EXECUTE_READ 2 in
  let m := Sim.image 0x1000 [0xE8; 1; 2; 3; 4] 0xCC in
  match @MemoryEngine.NopInstruction x64 _ Sim.system s m 0x1000 5 with
  | Returned (r, s', m') =>
      r = true /\ load_bytes m' 0x1000 5 = [0x90; 0x90; 0x90; 0x90; 0x90]
  | Raised _ => False
  end.
Proof.
  cbv zeta.
  destruct (@MemoryEngine.NopInstruction x64 _ Sim.system
              (Sim.one_page PAGE_EXECUTE_READ 2)
              (Sim.image 0x1000 [0xE8; 1; 2; 3; 4] 0xCC) 0x1000 5)
    as [[[r s'] m']|e] eqn:E.
  - assert (Hr : r = true).
    { apply (f_equal (fun o => match o with
                               | Returned (b, _, _) => b
                               | Raised _ => false
                               end)) in E.
      exact (eq_sym E). }
    split; [exact Hr|].
    exact (proj2 (proj1 (@NopInstruction_fills x64 _ Sim.system _ _ _ _ _ _ _ E) Hr)).
  - vm_compute in E. discriminate E.
Defined.

(* ================================================================== *)
(** * Further properties of the scanner *)

Section ScannerMore.
Context {P : Platform}.
Import MemoryEngine.

Lemma buffer_at_middle (pre suf : list Z) (x : Z) (beyond : Z -> Z) :
  buffer_at (pre ++ x :: suf) beyond (Z.of_nat (length pre)) = x.
Proof.
  unfold buffer_at. rewrite length_app. simpl length.
  destruct (Z.of_nat (length pre) <? Z.of_nat (length pre + S (length suf))) eqn:E.
  - rewrite Nat2Z.id. rewrite app_nth2 by lia. now rewrite Nat.sub_diag.
  - apply Z.ltb_ge in E. lia.
Qed.

Lemma CompareBytes_inside (beyond : Z -> Z) (post : list Z) :
  forall pattern pre suf,
    length suf = length pattern ->
    CompareBytes (pre ++ suf ++ post) beyond (Z.of_nat (length pre)) pattern = true
    <-> suf = pattern.
Proof.
  induction pattern as [|b r IH]; intros pre suf Hl.
  - destruct suf; [|discriminate]. simpl. split; reflexivity.
  - destruct suf as [|x suf]; [discriminate|]. simpl in Hl. injection Hl as Hl.
    simpl CompareBytes. simpl app.
    rewrite buffer_at_middle, andb_true_iff, Z.eqb_eq.
    replace (pre ++ x :: suf ++ post) with ((pre ++ [x]) ++ suf ++ post)
      by (now rewrite <- app_assoc).
    replace (Z.of_nat (length pre) + 1) with (Z.of_nat (length (pre ++ [x])))
      by (rewrite length_app; simpl; lia).
    rewrite (IH (pre ++ [x]) suf Hl).
    split; [intros [-> ->]; reflexivity | intros [= -> ->]; now split].
Qed.

(** [memcmp] at a position where the needle fits compares the window of
    the block at that position. *)
Lemma CompareBytes_window (beyond : Z -> Z) (data pattern : list Z) (i : Z) :
  0 <= i -> Z.of_nat (length pattern) + i <= Z.of_nat (length data) ->
  CompareBytes data beyond i pattern = true
  <-> firstn (length pattern) (skipn (Z.to_nat i) data) = pattern.
Proof.
  intros Hi Hl.
  set (k := Z.to_nat i).
  assert (Hk : (k + length pattern <= length data)%nat) by lia.
  rewrite <- (firstn_skipn k data) at 1.
  rewrite <- (firstn_skipn (length pattern) (skipn k data)) at 1.
  replace i with (Z.of_nat (length (firstn k data)))
    by (rewrite length_firstn; lia).
  apply CompareBytes_inside.
  rewrite length_firstn, length_skipn. lia.
Qed.

Lemma scan_positions_shape (dataSize needleSize stride : Z) :
  0 < stride -> 0 <= needleSize <= dataSize -> dataSize + stride < ptr_mod ->
  forall fuel i x,
    0 <= i ->
    In x (scan_positions fuel dataSize needleSize stride i) ->
    exists k, 0 <= k /\ x = i + k * stride /\ x + needleSize <= dataSize.
Proof.
  intros Ha Hn Hd. induction fuel as [|f IH]; intros i x Hi; simpl; [intros []|].
  destruct (i <=? wrap (dataSize - needleSize)) eqn:E; [|intros []].
  apply Z.leb_le in E. rewrite wrap_small in E by lia.
  intros [<- | Hx].
  - exists 0. lia.
  - rewrite wrap_small in Hx by lia.
    apply IH in Hx as (k & Hk & -> & Hb); [|lia].
    exists (k + 1). lia.
Qed.

Lemma scan_positions_reach (dataSize needleSize stride : Z) :
  0 < stride -> 0 <= needleSize <= dataSize -> dataSize + stride < ptr_mod ->
  forall (k : nat) fuel i,
    0 <= i -> (k < fuel)%nat ->
    i + Z.of_nat k * stride + needleSize <= dataSize ->
    In (i + Z.of_nat k * stride) (scan_positions fuel dataSize needleSize stride i).
Proof.
  intros Ha Hn Hd. induction k as [|k IH]; intros fuel i Hi Hf Hb.
  - destruct fuel as [|f]; [lia|]. simpl.
    destruct (i <=? wrap (dataSize - needleSize)) eqn:E.
    + left. lia.
    + apply Z.leb_gt in E. rewrite wrap_small in E by lia. lia.
  - destruct fuel as [|f]; [lia|]. cbn [scan_positions].
    destruct (i <=? wrap (dataSize - needleSize)) eqn:E; cbn [In].
    + right. rewrite wrap_small by nia.
      replace (i + Z.of_nat (S k) * stride) with (i + stride + Z.of_nat k * stride) by lia.
      apply IH; lia.
    + apply Z.leb_gt in E. rewrite wrap_small in E by lia. nia.
Qed.

(** X8.  The inner loop of [FirstScan] over a block in which the needle
    fits, with enough iterations to run to its end: an address is
    reported exactly when it is [start + k * alignment] for a position
    that leaves room for the needle inside the block and at which the
    block holds the needle. *)
Theorem FirstScan_block_reports
  (fuel : nat) (regionData valueBytes : list Z) (beyond : Z -> Z) (ty : string)
  (options : ScanOptions) (start : Z) :
  let d := Z.of_nat (length regionData) in
  let n := Z.of_nat (length valueBytes) in
  0 < alignment options -> 0 < n <= d -> d < Z.of_nat fuel ->
  0 <= start -> start + d <= ptr_mod -> d + alignment options < ptr_mod ->
  forall x,
    In x (map address (FirstScan_block fuel regionData beyond valueBytes ty options start))
    <-> exists k, 0 <= k
                  /\ x = start + k * alignment options
                  /\ k * alignment options + n <= d
                  /\ firstn (length valueBytes)
                       (skipn (Z.to_nat (k * alignment options)) regionData)
                     = valueBytes.
Proof.
  intros d n Ha Hn Hf Hs Hw Hal x.
  assert (Hd : d < ptr_mod) by lia.
  assert (Hn0 : 0 <= n <= d) by lia.
  unfold FirstScan_block. rewrite map_map. simpl. rewrite in_map_iff.
  fold d. fold n. split.
  - intros (i & <- & Hi). apply filter_In in Hi as [Hi Hc].
    apply scan_positions_shape in Hi as (k & Hk & -> & Hb); try lia.
    simpl in *. exists k. split; [exact Hk|].
    split; [apply wrap_small; nia|]. split; [lia|].
    apply CompareBytes_window in Hc; [exact Hc | nia | fold n d; lia].
  - intros (k & Hk & -> & Hb & Hm).
    exists (k * alignment options). split; [apply wrap_small; nia|].
    apply filter_In. split.
    + replace (k * alignment options)
        with (0 + Z.of_nat (Z.to_nat k) * alignment options) by lia.
      apply scan_positions_reach; try lia. nia.
    + apply CompareBytes_window; [nia | fold n d; lia | exact Hm].
Qed.

Lemma ComparePattern_positions (data : list Z) (beyond : Z -> Z) (mask : list Z) :
  forall (pattern : list Z) (i : Z),
    ComparePattern data beyond i pattern mask = true
    <-> forall j, (j < length mask)%nat -> nth j mask 0 = 120 ->
                  buffer_at data beyond (i + Z.of_nat j) = uint8 (nth j pattern 0).
Proof.
  induction mask as [|c mask IH]; intros pattern i; simpl.
  - split; [intros _ j Hj; lia | reflexivity].
  - destruct ((c =? 120) && negb (buffer_at data beyond i =? uint8 (hd 0 pattern)))
      eqn:E.
    + apply andb_true_iff in E as [Ec En].
      apply Z.eqb_eq in Ec. apply negb_true_iff, Z.eqb_neq in En.
      split; [discriminate|]. intros H. exfalso. apply En.
      specialize (H 0%nat ltac:(lia) Ec). rewrite Z.add_0_r in H.
      destruct pattern; exact H.
    + rewrite IH. split.
      * intros H [|j] Hj Hm.
        -- rewrite Z.add_0_r. apply andb_false_iff in E as [E | E].
           ++ apply Z.eqb_neq in E. contradiction.
           ++ apply negb_false_iff, Z.eqb_eq in E. destruct pattern; exact E.
        -- replace (i + Z.of_nat (S j)) with (i + 1 + Z.of_nat j) by lia.
           replace (nth (S j) pattern 0) with (nth j (tl pattern) 0)
             by (destruct pattern; [destruct j|]; reflexivity).
           apply H; [lia | exact Hm].
      * intros H j Hj Hm.
        replace (i + 1 + Z.of_nat j) with (i + Z.of_nat (S j)) by lia.
        replace (nth j (tl pattern) 0) with (nth (S j) pattern 0)
          by (destruct pattern; [destruct j|]; reflexivity).
        apply H; [lia | exact Hm].
Qed.

(** X9.  [ComparePattern] compares exactly the positions whose mask
    character is ['x']: it answers true when, and only when, the data
    agrees with the pattern at each of them. *)
Theorem ComparePattern_masked (data : list Z) (beyond : Z -> Z) (mask : list Z)
  (pattern : list Z) (i : Z) :
  ComparePattern data beyond i pattern mask = true
  <-> forall j, (j < length mask)%nat -> nth j mask 0 = 120 ->
                buffer_at data beyond (i + Z.of_nat j) = uint8 (nth j pattern 0).
Proof. apply ComparePattern_positions. Qed.

Lemma buffer_at_inside (data : list Z) (beyond : Z -> Z) (j : nat) :
  (j < length data)%nat -> buffer_at data beyond (Z.of_nat j) = nth j data 0.
Proof.
  intros H. unfold buffer_at.
  destruct (Z.of_nat j <? Z.of_nat (length data)) eqn:E.
  - now rewrite Nat2Z.id.
  - apply Z.ltb_ge in E. lia.
Qed.

(** X10.  A block searched for its own bytes, every mask character
    ['x']: [PatternScanAll]'s loop reports the start of the block, and
    nothing else. *)
Theorem PatternScanAll_block_finds_itself
  (fuel : nat) (data : list Z) (beyond : Z -> Z) (regionStart : Z) :
  data <> [] ->
  Forall (fun b => 0 <= b < 256) data ->
  Z.of_nat (length data) < ptr_mod ->
  0 <= regionStart < ptr_mod ->
  PatternScanAll_block (S fuel) data beyond data (repeat 120 (length data)) regionStart
  = [regionStart].
Proof.
  intros Hne Hb Hd Hs. unfold PatternScanAll_block.
  assert (Hp : scan_positions (S fuel) (Z.of_nat (length data))
                 (Z.of_nat (length data)) 1 0 = [0]).
  { assert (Hl : 1 <= Z.of_nat (length data))
      by (destruct data; [contradiction | simpl length; lia]).
    assert (Hw0 : wrap (Z.of_nat (length data) - Z.of_nat (length data)) = 0)
      by (rewrite Z.sub_diag; apply wrap_small; lia).
    cbn [scan_positions]. rewrite Hw0. change (0 <=? 0) with true. cbv iota.
    f_equal. destruct fuel as [|f]; [reflexivity|].
    cbn [scan_positions]. rewrite Hw0, wrap_small by lia. reflexivity. }
  rewrite Hp. simpl filter.
  assert (Hc : ComparePattern data beyond 0 data (repeat 120 (length data)) = true).
  { apply ComparePattern_positions. intros j Hj _.
    rewrite repeat_length in Hj. rewrite Z.add_0_l, buffer_at_inside by exact Hj.
    rewrite Forall_forall in Hb.
    specialize (Hb (nth j data 0) (nth_In _ _ Hj)).
    unfold uint8. now rewrite Z.mod_small. }
  rewrite Hc. simpl. rewrite Z.add_0_r, wrap_small by exact Hs. reflexivity.
Qed.

End ScannerMore.

Lemma FirstScan_block_reports_witness :
  let options := {| MemoryEngine.startAddress := 0; MemoryEngine.endAddress := 0;
                    MemoryEngine.alignment := 4;
                    MemoryEngine.filterWritable := MemoryEngine.Yes;
                    MemoryEngine.filterExecutable := MemoryEngine.Any;
                    MemoryEngine.filterCopyOnWrite := MemoryEngine.Any;
                    MemoryEngine.previousResults := None |} in
  In 0x1008
     (map MemoryEngine.address
        (@MemoryEngine.FirstScan_block x64 13 [7; 0; 0; 0; 0; 0; 0; 0; 7; 0; 0; 0]
           (fun _ => 0) [7; 0; 0; 0] "int32" options 0x1000)).
Proof.
  cbv zeta.
  apply (@FirstScan_block_reports x64); try (cbn; lia).
  exists 2. repeat split; cbn; lia.
Defined.

Lemma PatternScanAll_block_finds_itself_witness :
  @MemoryEngine.PatternScanAll_block x64 1 [0xDE; 0xAD; 0xBE; 0xEF] (fun _ => 0)
    [0xDE; 0xAD; 0xBE; 0xEF] (repeat 120 4) 0x1000 = [0x1000].
Proof.
  apply (@PatternScanAll_block_finds_itself x64 0 [0xDE; 0xAD; 0xBE; 0xEF]).
  - discriminate.
  - repeat constructor; lia.
  - cbn. lia.
  - cbn. lia.
Defined.

Section NextScanMore.
Context {P : Platform} {W : Type} {sys : OS W}.
Variable StringToValue : string -> string -> list Z.
Variable CompareFloatValues : string -> list Z -> list Z -> string -> bool.
Import MemoryEngine.

Lemma NextScan_loop_emits (s : W) (m : memory) (beyond : Z -> Z) (scanType v : string) :
  forall previous results,
    NextScan_loop StringToValue CompareFloatValues s m beyond scanType v previous
    = Returned results ->
    (length results <= length previous)%nat
    /\ forall r, In r results ->
         exists q, In q previous
                   /\ still_readable s m q (value r)
                   /\ r = emitted q (value r)
                   /\ NextScan_match StringToValue CompareFloatValues beyond
                        scanType v q (value r) = true.
Proof.
  induction previous as [|q rest IH]; intros results; simpl.
  - intros [= <-]. split; [apply Nat.le_refl | intros r []].
  - destruct (SafeReadBytes s m (address q) _) as [cur|e] eqn:Hr; [|discriminate].
    destruct (NextScan_loop _ _ s m beyond scanType v rest) as [acc|e];
      [|discriminate].
    destruct (IH acc eq_refl) as [Hlen Hacc].
    assert (Hkeep : forall r, In r acc ->
              exists q0, In q0 (q :: rest) /\ still_readable s m q0 (value r)
                         /\ r = emitted q0 (value r)
                         /\ NextScan_match StringToValue CompareFloatValues beyond
                              scanType v q0 (value r) = true).
    { intros r Hin. destruct (Hacc r Hin) as (q0 & H0 & H1).
      exists q0. split; [now right | exact H1]. }
    destruct cur as [|c0 cur'].
    { simpl. intros [= <-]. split; [lia | exact Hkeep]. }
    destruct (negb (Nat.eqb (length (c0 :: cur')) (length (value q)))); simpl orb; cbv iota.
    { intros [= <-]. split; [lia | exact Hkeep]. }
    destruct (NextScan_match _ _ beyond scanType v q (c0 :: cur')) eqn:Hm.
    + intros [= <-]. split; [simpl; lia|].
      intros r [<- | Hin]; [|now apply Hkeep].
      exists q. split; [now left|]. simpl.
      split; [split; [exact Hr | discriminate]|]. split; [reflexivity | exact Hm].
    + intros [= <-]. split; [lia | exact Hkeep].
Qed.

(** X11.  Whatever the scan type, [NextScan] invents nothing: it
    returns at most as many results as it was given, and each result
    comes from a previous entry that is still readable, keeps that
    entry's address and type, records the entry's value as previous
    value, and holds as value the bytes that memory has at that address
    now. *)
Theorem NextScan_emits_rescanned_entries
  (s : W) (m : memory) (beyond : Z -> Z) (scanType v : string)
  (options : ScanOptions) (results : list ScanResult) :
  NextScan StringToValue CompareFloatValues s m beyond scanType v options
  = Returned results ->
  let previous := match previousResults options with
                  | Some l => l
                  | None => []
                  end in
  (length results <= length previous)%nat
  /\ forall r, In r results ->
       value r = load_bytes m (address r) (length (previousValue r))
       /\ exists q, In q previous
                    /\ address r = address q /\ type r = type q
                    /\ previousValue r = value q.
Proof.
  intros H previous.
  assert (Hl : NextScan_loop StringToValue CompareFloatValues s m beyond scanType v
                 previous = Returned results).
  { unfold NextScan in H. subst previous.
    destruct (previousResults options) as [[|q l]|]; simpl; exact H. }
  apply NextScan_loop_emits in Hl as [Hlen Hall].
  split; [exact Hlen|].
  intros r Hr. destruct (Hall r Hr) as (q & Hq & [Hread Hne] & He & _).
  apply SafeReadBytes_nonempty in Hread as [Hb _]; [|exact Hne].
  rewrite Nat2Z.id in Hb.
  split.
  - rewrite He at 2 3. simpl. exact Hb.
  - exists q. rewrite He. simpl. auto.
Qed.

(** X12.  For results of type "int32" with four-byte values, the scan
    for "increased" emits an entry only when the value read now is, as a
    signed 32-bit integer, greater than the recorded one, and the scan
    for "decreased" only when it is smaller. *)
Theorem NextScan_increased_decreased_int32
  (s : W) (m : memory) (beyond : Z -> Z) (v : string)
  (options : ScanOptions) (results : list ScanResult) (scanType : string) (r : ScanResult) :
  scanType = "increased"%string \/ scanType = "decreased"%string ->
  NextScan StringToValue CompareFloatValues s m beyond scanType v options
  = Returned results ->
  In r results ->
  type r = "int32"%string ->
  length (previousValue r) = 4%nat ->
  let current := int32 (le_value (value r)) in
  let recorded := int32 (le_value (previousValue r)) in
  (scanType = "increased"%string -> recorded < current)
  /\ (scanType = "decreased"%string -> current < recorded).
Proof.
  intros Hst H Hr Hty Hlen.
  assert (Hl : NextScan_loop StringToValue CompareFloatValues s m beyond scanType v
                 (match previousResults options with Some l => l | None => [] end)
               = Returned results).
  { unfold NextScan in H.
    destruct (previousResults options) as [[|q l]|]; simpl; exact H. }
  apply NextScan_loop_emits in Hl as [_ Hall].
  destruct (Hall r Hr) as (q & _ & [Hread Hne] & He & Hm).
  assert (Hq : value q = previousValue r) by (rewrite He; reflexivity).
  assert (Htq : type q = "int32"%string) by (rewrite He in Hty; exact Hty).
  pose proof (SafeReadBytes_returned_length _ _ _ _ _ Hread) as [Hc | Hc];
    [contradiction|].
  rewrite Nat2Z.id, Hq, Hlen in Hc.
  assert (Hs : forall bs, length bs = 4%nat -> read_scalar bs beyond 4 = le_value bs).
  { intros bs Hb. do 5 (destruct bs as [|? bs]; try discriminate). reflexivity. }
  unfold NextScan_match in Hm. rewrite Htq, Hq in Hm.
  rewrite !Hs in Hm by assumption.
  cbv zeta. destruct Hst as [-> | ->]; simpl in Hm;
    unfold CompareNumericValues in Hm; simpl in Hm; apply Z.ltb_lt in Hm.
  - split; [intros _; exact Hm | discriminate].
  - split; [discriminate | intros _; exact Hm].
Qed.

End NextScanMore.

(* ================================================================== *)
(** * Typed reads, value comparison, region walk *)

Lemma uint8_range (x : Z) : 0 <= uint8 x < 256.
Proof. unfold uint8. apply Z.mod_pos_bound. lia. Qed.

(** Storing a scalar read from a buffer gives the bytes of the buffer. *)
Lemma le_bytes_le_value (bs : list Z) :
  le_bytes (length bs) (le_value bs) = map uint8 bs.
Proof.
  induction bs as [|b r IH]; [reflexivity|].
  cbn [length le_value le_bytes map].
  pose proof (uint8_range b) as Hb.
  assert (H1 : (uint8 b + 256 * le_value r) / 256 = le_value r)
    by (symmetry; apply (Z.div_unique _ 256 _ (uint8 b)); lia).
  assert (H2 : uint8 (uint8 b + 256 * le_value r) = uint8 b)
    by (unfold uint8 at 1; symmetry;
        apply (Z.mod_unique _ 256 (le_value r)); lia).
  rewrite H1, H2, IH. reflexivity.
Qed.

Section TypedReads.
Context {P : Platform} {W : Type} {sys : OS W}.
Variable through_float : string -> list Z -> list Z.
Import MemoryEngine.

Lemma find_null_spec (bytes : list Z) :
  forall i,
    (i <= find_null bytes i <= i + length bytes)%nat
    /\ Forall (fun b => b <> 0) (firstn (find_null bytes i - i) bytes)
    /\ ((find_null bytes i - i < length bytes)%nat ->
        nth (find_null bytes i - i) bytes 1 = 0).
Proof.
  induction bytes as [|b r IH]; intros i; cbn [find_null length].
  - rewrite Nat.sub_diag. split; [lia|]. split; [constructor | simpl; lia].
  - destruct (b =? 0) eqn:E.
    + rewrite Nat.sub_diag. apply Z.eqb_eq in E.
      split; [lia|]. split; [constructor | intros _; exact E].
    + apply Z.eqb_neq in E. destruct (IH (S i)) as (Hr & Hf & Hn).
      replace (find_null r (S i) - i)%nat with (S (find_null r (S i) - S i)) by lia.
      split; [lia|]. split.
      * cbn [firstn]. constructor; assumption.
      * intros Hl. cbn [nth]. apply Hn. lia.
Qed.

Lemma SafeRead_bytes (s : W) (m : memory) (address : Z) (n : nat) (v : Z) :
  SafeRead s m address (Z.of_nat n) = Some v ->
  le_bytes n v = map uint8 (load_bytes m address n)
  /\ IsAddressReadable s address (Z.of_nat n) = true.
Proof.
  unfold SafeRead.
  destruct (IsAddressReadable s address (Z.of_nat n)); simpl; [|discriminate].
  rewrite Nat2Z.id.
  destruct (SafeMemcpy s m address n) as [bs|] eqn:E; [|discriminate].
  intros [= <-]. split; [|reflexivity].
  pose proof (SafeMemcpy_length _ _ _ _ _ E) as Hl.
  apply SafeMemcpy_bytes in E. subst bs.
  rewrite <- Hl at 1. apply le_bytes_le_value.
Qed.

(** X13.  A "string" read returns the bytes at the address up to, and
    not including, the first zero byte among the 256 bytes read: the
    result has at most 256 bytes, none of them zero, it is a prefix of
    memory at the address, and when it is shorter than 256 the byte that
    follows it in memory is zero. *)
Theorem ReadValueAtAddress_string (s : W) (m : memory) (address : Z) (v : list Z) :
  ReadValueAtAddress through_float s m address "string" = Some v ->
  (length v <= 256)%nat
  /\ v = load_bytes m address (length v)
  /\ Forall (fun b => b <> 0) v
  /\ ((length v < 256)%nat -> m (address + Z.of_nat (length v)) = 0).
Proof.
  change (ReadValueAtAddress through_float s m address "string")
    with (match SafeReadBytes s m address 256 with
          | Raised _ => None
          | Returned [] => None
          | Returned bytes => Some (firstn (find_null bytes 0) bytes)
          end).
  destruct (SafeReadBytes s m address 256) as [bytes|e] eqn:Hr; [|discriminate].
  intros Hv.
  assert (Hne : bytes <> []) by (intros ->; discriminate Hv).
  assert (Hv' : v = firstn (find_null bytes 0) bytes)
    by (destruct bytes; [contradiction | now injection Hv]).
  clear Hv. subst v.
  apply SafeReadBytes_nonempty in Hr as [Hb _]; [|exact Hne].
  change (Z.to_nat 256) with 256%nat in Hb.
  assert (Hlen : length bytes = 256%nat) by (rewrite Hb; apply load_bytes_length).
  destruct (find_null_spec bytes 0) as (Hk & Hf & Hn).
  rewrite Nat.sub_0_r in Hf, Hn.
  set (k := find_null bytes 0) in *.
  assert (Hlk : length (firstn k bytes) = k) by (rewrite length_firstn; lia).
  assert (Hload : forall n a j, (j < n)%nat ->
            nth j (load_bytes m a n) 1 = m (a + Z.of_nat j)).
  { induction n as [|n IHn]; intros a j Hj; [lia|]. simpl.
    destruct j as [|j]; [now rewrite Z.add_0_r|].
    rewrite IHn by lia. f_equal. lia. }
  assert (Hpre : forall n j a, (j <= n)%nat ->
            firstn j (load_bytes m a n) = load_bytes m a j).
  { induction n as [|n IHn]; intros j a Hj.
    - replace j with 0%nat by lia. reflexivity.
    - destruct j as [|j]; [reflexivity|]. simpl. f_equal. apply IHn. lia. }
  rewrite Hlk. split; [lia|]. split; [|split; [exact Hf|]].
  - rewrite Hb. apply Hpre. lia.
  - intros Hlt. rewrite <- (Hload 256%nat address k) by lia.
    rewrite <- Hb. apply Hn. lia.
Qed.


(** X15.  An "int32" (or "int") read that has a value returns the four
    bytes of memory at the address, which had passed the readability
    gate; an "int64" read the eight bytes. *)
Theorem ReadValueAtAddress_integers (s : W) (m : memory) (address : Z)
  (type : string) (v : list Z) :
  ReadValueAtAddress through_float s m address type = Some v ->
  (type = "int32"%string \/ type = "int"%string ->
   v = map uint8 (load_bytes m address 4)
   /\ IsAddressReadable s address 4 = true)
  /\ (type = "int64"%string ->
      v = map uint8 (load_bytes m address 8)
      /\ IsAddressReadable s address 8 = true).
Proof.
  intros H. split.
  - intros [-> | ->]; unfold ReadValueAtAddress in H; simpl in H;
      destruct (SafeRead s m address 4) as [x|] eqn:E; try discriminate;
      injection H as <-; apply (SafeRead_bytes s m address 4 x E).
  - intros ->. unfold ReadValueAtAddress in H. simpl in H.
    destruct (SafeRead s m address 8) as [x|] eqn:E; try discriminate.
    injection H as <-. apply (SafeRead_bytes s m address 8 x E).
Qed.

End TypedReads.

Section ValueComparison.
Import MemoryEngine.
Variable compare_float : string -> list Z -> list Z -> Z.

Lemma three_way_antisym (a b : Z) : three_way a b = - three_way b a.
Proof.
  unfold three_way.
  destruct (b <? a) eqn:E1; destruct (a <? b) eqn:E2; try reflexivity.
  apply Z.ltb_lt in E1. apply Z.ltb_lt in E2. lia.
Qed.

Lemma memcmp_antisym (a : list Z) : forall b, memcmp a b = - memcmp b a.
Proof.
  induction a as [|x a IH]; intros [|y b]; simpl; try reflexivity.
  destruct (uint8 x <? uint8 y) eqn:E1; destruct (uint8 y <? uint8 x) eqn:E2;
    try reflexivity; [|apply IH].
  apply Z.ltb_lt in E1. apply Z.ltb_lt in E2. lia.
Qed.

Lemma memcmp_zero (a : list Z) :
  forall b, length a = length b ->
            Forall (fun x => 0 <= x < 256) a -> Forall (fun x => 0 <= x < 256) b ->
            (memcmp a b = 0 <-> a = b).
Proof.
  induction a as [|x a IH]; intros [|y b] Hl Ha Hb; try discriminate.
  - split; reflexivity.
  - simpl in Hl. injection Hl as Hl.
    inversion Ha as [|? ? Hx Ha']; inversion Hb as [|? ? Hy Hb']; subst.
    simpl. unfold uint8. rewrite !Z.mod_small by assumption.
    destruct (x <? y) eqn:E1; [apply Z.ltb_lt in E1; split; [discriminate | intros [= -> _]; lia]|].
    destruct (y <? x) eqn:E2; [apply Z.ltb_lt in E2; split; [discriminate | intros [= -> _]; lia]|].
    apply Z.ltb_ge in E1. apply Z.ltb_ge in E2.
    assert (x = y) by lia. subst y.
    rewrite (IH b Hl Ha' Hb'). split; [intros ->; reflexivity | intros [= ->]; reflexivity].
Qed.

(** X16.  Outside the two floating-point types, [CompareValues] is
    antisymmetric: exchanging the operands negates the result.  (An
    empty operand compares as 0 against anything.) *)
Theorem CompareValues_antisymmetric (value1 value2 : list Z) (type : string) :
  type <> "float"%string -> type <> "double"%string ->
  CompareValues compare_float value1 value2 type
  = - CompareValues compare_float value2 value1 type.
Proof.
  intros Hf Hd. apply String.eqb_neq in Hf. apply String.eqb_neq in Hd.
  unfold CompareValues.
  destruct value1 as [|x1 v1]; destruct value2 as [|x2 v2]; try reflexivity.
  rewrite Hf, Hd.
  destruct (String.eqb type "int32" || String.eqb type "int").
  { rewrite (orb_comm (length (x2 :: v2) <? 4)%nat).
    destruct ((length (x1 :: v1) <? 4)%nat || (length (x2 :: v2) <? 4)%nat);
      [reflexivity | apply three_way_antisym]. }
  destruct (String.eqb type "int64").
  { rewrite (orb_comm (length (x2 :: v2) <? 8)%nat).
    destruct ((length (x1 :: v1) <? 8)%nat || (length (x2 :: v2) <? 8)%nat);
      [reflexivity | apply three_way_antisym]. }
  destruct (String.eqb type "byte"); [apply three_way_antisym|].
  rewrite (Nat.eqb_sym (length (x2 :: v2))).
  destruct (Nat.eqb (length (x1 :: v1)) (length (x2 :: v2))) eqn:E; simpl negb; cbv iota.
  - apply memcmp_antisym.
  - apply Nat.eqb_neq in E.
    destruct (length (x2 :: v2) <? length (x1 :: v1))%nat eqn:E1;
      destruct (length (x1 :: v1) <? length (x2 :: v2))%nat eqn:E2; try reflexivity.
    + apply Nat.ltb_lt in E1. apply Nat.ltb_lt in E2. lia.
    + apply Nat.ltb_ge in E1. apply Nat.ltb_ge in E2. lia.
Qed.

(** X17.  For the types "string" and "bytes", two non-empty values
    compare as 0 exactly when they are the same bytes. *)
Theorem CompareValues_bytes_zero (value1 value2 : list Z) (type : string) :
  type = "string"%string \/ type = "bytes"%string ->
  value1 <> [] -> value2 <> [] ->
  Forall (fun x => 0 <= x < 256) value1 ->
  Forall (fun x => 0 <= x < 256) value2 ->
  (CompareValues compare_float value1 value2 type = 0 <-> value1 = value2).
Proof.
  intros Ht H1 H2 Hb1 Hb2.
  assert (He : CompareValues compare_float value1 value2 type
               = if negb (Nat.eqb (length value1) (length value2))
                 then (if (length value2 <? length value1)%nat then 1 else -1)
                 else memcmp value1 value2).
  { destruct value1; [contradiction|]. destruct value2; [contradiction|].
    destruct Ht as [-> | ->]; reflexivity. }
  rewrite He.
  destruct (Nat.eqb (length value1) (length value2)) eqn:E; simpl negb; cbv iota.
  - apply Nat.eqb_eq in E. now apply memcmp_zero.
  - apply Nat.eqb_neq in E.
    split; [destruct (_ <? _)%nat; discriminate | intros ->; contradiction].
Qed.

End ValueComparison.

Section RegionWalk.
Context {P : Platform} {W : Type} {sys : OS W}.
Import MemoryEngine.

Lemma GetMemoryRegions_from_committed (s : W) :
  forall fuel address regions,
    GetMemoryRegions_from fuel s address = Some regions ->
    forall r, In r regions ->
      exists a mbi, VirtualQuery s a = Some mbi
                    /\ State mbi = MEM_COMMIT
                    /\ r = region_of_mbi mbi.
Proof.
  induction fuel as [|k IH]; intros address regions; simpl; [discriminate|].
  destruct (VirtualQuery s address) as [mbi|] eqn:Hq.
  2:{ intros [= <-] r []. }
  assert (Hfound : forall r,
            In r (if State mbi =? MEM_COMMIT then [region_of_mbi mbi] else []) ->
            exists a mbi0, VirtualQuery s a = Some mbi0
                           /\ State mbi0 = MEM_COMMIT /\ r = region_of_mbi mbi0).
  { intros r. destruct (State mbi =? MEM_COMMIT) eqn:Ec; [|intros []].
    intros [<- | []]. exists address, mbi. apply Z.eqb_eq in Ec. auto. }
  destruct (wrap (BaseAddress mbi + RegionSize mbi) =? 0).
  - intros [= <-]. exact Hfound.
  - destruct (GetMemoryRegions_from k s _) as [rest|] eqn:Hrest; [|discriminate].
    intros [= <-] r Hin. apply in_app_or in Hin as [Hin | Hin].
    + now apply Hfound.
    + eapply IH; eassumption.
Qed.

(** X18.  Every region that [GetMemoryRegions] lists was reported by
    [VirtualQuery] as committed; a listed region flagged writable is
    flagged readable too, and only regions flagged readable are ever
    scannable. *)
Theorem GetMemoryRegions_committed_regions
  (fuel : nat) (s : W) (regions : list MemoryRegion) (r : MemoryRegion) :
  GetMemoryRegions fuel s = Some regions ->
  In r regions ->
  (exists a mbi, VirtualQuery s a = Some mbi
                 /\ State mbi = MEM_COMMIT
                 /\ baseAddress r = BaseAddress mbi
                 /\ size r = RegionSize mbi
                 /\ protection r = Protect mbi)
  /\ (writable r = true -> readable r = true)
  /\ (forall options, IsRegionScannable r options = true -> readable r = true).
Proof.
  intros Hg Hr.
  destruct (GetMemoryRegions_from_committed s fuel 0 regions Hg r Hr)
    as (a & mbi & Hq & Hc & ->).
  split; [exists a, mbi; auto|]. split.
  - simpl. intros H. apply negb_true_iff, Z.eqb_neq in H.
    apply negb_true_iff, Z.eqb_neq.
    intros Hz. apply H.
    replace writable_mask with (Z.land readable_mask writable_mask) by reflexivity.
    rewrite Z.land_assoc, Hz. reflexivity.
  - intros options. unfold IsRegionScannable.
    destruct (readable (region_of_mbi mbi)); [reflexivity | discriminate].
Qed.

End RegionWalk.

Lemma NextScan_emits_rescanned_entries_witness :
  (length [Scenario.grown] <= 2)%nat
  /\ forall r, In r [Scenario.grown] ->
       MemoryEngine.value r
       = load_bytes Scenario.rescan_memory (MemoryEngine.address r)
           (length (MemoryEngine.previousValue r))
       /\ exists q, In q [Scenario.found 0x1000; Scenario.found 0x1008]
                    /\ MemoryEngine.address r = MemoryEngine.address q
                    /\ MemoryEngine.type r = MemoryEngine.type q
                    /\ MemoryEngine.previousValue r = MemoryEngine.value q.
Proof.
  apply (@NextScan_emits_rescanned_entries x64 _ Sim.system
           (fun _ _ => []) (fun _ _ _ _ => false)
           (Sim.one_page PAGE_READWRITE 0) Scenario.rescan_memory (fun _ => 0)
           "changed" "" Scenario.rescan_options [Scenario.grown]).
  reflexivity.
Defined.

Lemma NextScan_increased_decreased_int32_witness :
  int32 (le_value [7; 0; 0; 0]) < int32 (le_value [9; 0; 0; 0]).
Proof.
  apply (proj1 (@NextScan_increased_decreased_int32 x64 _ Sim.system
                  (fun _ _ => []) (fun _ _ _ _ => false)
                  (Sim.one_page PAGE_READWRITE 0) Scenario.rescan_memory (fun _ => 0)
                  "" Scenario.rescan_options [Scenario.grown] "increased"
                  Scenario.grown
                  (or_introl eq_refl) eq_refl (or_introl eq_refl) eq_refl eq_refl)).
  reflexivity.
Defined.

Lemma ReadValueAtAddress_string_witness :
  let v := [101; 110; 103; 105; 110; 101] in
  (length v <= 256)%nat
  /\ v = load_bytes Scenario.text_memory 0x1000 (length v)
  /\ Forall (fun b => b <> 0) v
  /\ ((length v < 256)%nat -> Scenario.text_memory (0x1000 + Z.of_nat (length v)) = 0).
Proof.
  cbv zeta.
  apply (@ReadValueAtAddress_string x64 _ Sim.system (fun _ bs => bs)
           (Sim.one_page PAGE_READONLY 0)).
  vm_compute. reflexivity.
Defined.

Lemma ReadValueAtAddress_integers_witness :
  [9; 0; 0; 0] = map uint8 (load_bytes Scenario.rescan_memory 0x1000 4)
  /\ @MemoryEngine.IsAddressReadable x64 _ Sim.system
       (Sim.one_page PAGE_READONLY 0) 0x1000 4 = true.
Proof.
  apply (proj1 (@ReadValueAtAddress_integers x64 _ Sim.system (fun _ bs => bs)
                  (Sim.one_page PAGE_READONLY 0) Scenario.rescan_memory 0x1000
                  "int32" [9; 0; 0; 0] eq_refl)).
  left. reflexivity.
Defined.

Lemma CompareValues_antisymmetric_witness :
  MemoryEngine.CompareValues (fun _ _ _ => 0) [0xFF; 0xFF; 0xFF; 0xFF] [1; 0; 0; 0] "int32"
  = - MemoryEngine.CompareValues (fun _ _ _ => 0) [1; 0; 0; 0] [0xFF; 0xFF; 0xFF; 0xFF] "int32".
Proof.
  apply CompareValues_antisymmetric; discriminate.
Defined.

Lemma CompareValues_bytes_zero_witness :
  MemoryEngine.CompareValues (fun _ _ _ => 0) [0x41; 0x42] [0x41; 0x42] "string" = 0
  <-> [0x41; 0x42] = [0x41; 0x42].
Proof.
  apply CompareValues_bytes_zero;
    [now left | discriminate | discriminate
     | repeat constructor; lia | repeat constructor; lia].
Defined.

Lemma GetMemoryRegions_committed_regions_witness :
  exists regions r,
    @MemoryEngine.GetMemoryRegions x64 _ Sim.system 4 Scenario.walked = Some regions
    /\ In r regions
    /\ (MemoryEngine.writable r = true -> MemoryEngine.readable r = true)
    /\ MemoryEngine.baseAddress r = 0x1000.
Proof.
  exists [MemoryEngine.region_of_mbi
            {| BaseAddress := 0x1000; RegionSize := 0x1000;
               State := MEM_COMMIT; Protect := PAGE_READWRITE |}].
  eexists. split; [|split; [left; reflexivity|]].
  - vm_compute. reflexivity.
  - split; [|reflexivity].
    apply (@GetMemoryRegions_committed_regions x64 _ Sim.system 4
             Scenario.walked _ _
             ltac:(vm_compute; reflexivity) (or_introl eq_refl)).
Defined.

(* ================================================================== *)
(** * Further properties of the detour engine *)

Lemma le_value_le_bytes (n : nat) :
  forall x, le_value (le_bytes n x) = x mod 256 ^ Z.of_nat n.
Proof.
  induction n as [|k IH]; intros x.
  - simpl. now rewrite Z.mod_1_r.
  - cbn [le_bytes le_value]. rewrite IH.
    replace (256 ^ Z.of_nat (S k)) with (256 * 256 ^ Z.of_nat k)
      by (rewrite Nat2Z.inj_succ, Z.pow_succ_r by lia; reflexivity).
    rewrite Z.rem_mul_r by (try lia; apply Z.pow_pos_nonneg; lia).
    unfold uint8. rewrite Z.mod_mod by lia. reflexivity.
Qed.

Lemma int32_congruent (x : Z) :
  exists k, int32 x = x + k * 2 ^ 32 /\ - 2 ^ 31 <= int32 x < 2 ^ 31.
Proof.
  unfold int32, uint32.
  pose proof (Z.mod_pos_bound x (2 ^ 32) ltac:(lia)) as Hb.
  pose proof (Z.div_mod x (2 ^ 32) ltac:(lia)) as Hd.
  destruct (x mod 2 ^ 32 <? 2 ^ 31) eqn:E.
  - apply Z.ltb_lt in E. exists (- (x / 2 ^ 32)). lia.
  - apply Z.ltb_ge in E. exists (- (x / 2 ^ 32) - 1). lia.
Qed.

Lemma int32_stored (x : Z) : int32 (le_value (le_bytes 4 (int32 x))) = int32 x.
Proof.
  rewrite le_value_le_bytes. change (256 ^ Z.of_nat 4) with (2 ^ 32).
  unfold int32 at 1. unfold uint32. rewrite Z.mod_mod by lia.
  destruct (int32_congruent x) as (k & Hk & Hr).
  pose proof (Z.mod_pos_bound (int32 x) (2 ^ 32) ltac:(lia)) as Hb.
  pose proof (Z.div_mod (int32 x) (2 ^ 32) ltac:(lia)) as Hd.
  destruct (int32 x mod 2 ^ 32 <? 2 ^ 31) eqn:E;
    [apply Z.ltb_lt in E | apply Z.ltb_ge in E]; lia.
Qed.

Section JumpEncoding.
Context {P : Platform}.
Import DetoursLite.

Lemma relative_offset_reaches (from5 to : Z) :
  0 <= from5 < ptr_mod -> 0 <= to < ptr_mod -> reachable from5 to ->
  wrap (from5 + CalculateRelativeOffset from5 to) = to.
Proof.
  unfold CalculateRelativeOffset, reachable, wrap, ptr_mod, ptr_bits.
  intros Hf Ht Hr.
  destruct is64Bit eqn:E64.
  - destruct Hr as [Hr | Hr]; [discriminate|].
    destruct (int32_congruent ((to - from5) mod 2 ^ 64)) as (k & Hk & Hb).
    pose proof (Z.div_mod (to - from5) (2 ^ 64) ltac:(lia)) as Hd.
    assert (He : int32 ((to - from5) mod 2 ^ 64) = to - from5).
    { assert (H64 : 2 ^ 64 * ((to - from5) / 2 ^ 64)
                    = 2 ^ 32 * (2 ^ 32 * ((to - from5) / 2 ^ 64))) by lia.
      lia. }
    rewrite He. replace (from5 + (to - from5)) with to by lia.
    apply Z.mod_small. exact Ht.
  - destruct (int32_congruent ((to - from5) mod 2 ^ 32)) as (k & Hk & Hb).
    pose proof (Z.div_mod (to - from5) (2 ^ 32) ltac:(lia)) as Hd.
    rewrite Hk.
    replace (from5 + ((to - from5) mod 2 ^ 32 + k * 2 ^ 32))
      with (to + (k - (to - from5) / 2 ^ 32) * 2 ^ 32) by lia.
    rewrite Z.mod_add by lia. apply Z.mod_small. exact Ht.
Qed.

End JumpEncoding.

Lemma store_bytes_outside (bs : list Z) :
  forall m a x, x < a \/ a + Z.of_nat (length bs) <= x -> store_bytes m a bs x = m x.
Proof.
  induction bs as [|b r IH]; intros m a x Hx; simpl; [reflexivity|].
  simpl length in Hx. rewrite IH by lia. unfold store.
  destruct (x =? a) eqn:E; [apply Z.eqb_eq in E; lia | reflexivity].
Qed.

Lemma load_bytes_ext (m m' : memory) (n : nat) :
  forall a, (forall x, a <= x < a + Z.of_nat n -> m x = m' x) ->
            load_bytes m a n = load_bytes m' a n.
Proof.
  induction n as [|n IH]; intros a H; simpl; [reflexivity|].
  rewrite H by lia. f_equal. apply IH. intros x Hx. apply H. lia.
Qed.

Lemma load_bytes_head (m : memory) (a : Z) (n : nat) (b : Z) (r : list Z) :
  load_bytes m a (S n) = b :: r -> m a = b /\ load_bytes m (a + 1) n = r.
Proof. simpl. intros [= -> ->]. split; reflexivity. Qed.

Section JumpTargets.
Context {P : Platform}.
Import DetoursLite.

(** X19.  Every call of [WriteJumpRelative] returns true, writes five
    bytes at [from], [E9] and the 32-bit displacement, and leaves every
    other byte alone.  When the way to [to] fits a signed 32-bit
    displacement (always, on the 32-bit build) the processor continues
    at [to]. *)
Theorem WriteJumpRelative_reaches (m : memory) (from to : Z) :
  let m' := fst (WriteJumpRelative m from to) in
  snd (WriteJumpRelative m from to) = true
  /\ m' from = 0xE9
  /\ load_bytes m' (from + 1) 4
     = le_bytes 4 (CalculateRelativeOffset (wrap (from + 5)) to)
  /\ (forall x, x < from \/ from + 5 <= x -> m' x = m x)
  /\ (0 <= from -> from + 5 < ptr_mod -> 0 <= to < ptr_mod ->
      reachable (from + 5) to ->
      rel32_target m' from = to).
Proof.
  unfold WriteJumpRelative. cbn [fst snd].
  set (off := CalculateRelativeOffset (wrap (from + 5)) to).
  pose proof (load_store_bytes (0xE9 :: le_bytes 4 off) m from) as Hl.
  change (length (0xE9 :: le_bytes 4 off)) with 5%nat in Hl.
  apply load_bytes_head in Hl as [H0 H1].
  split; [reflexivity|]. split; [exact H0|]. split; [exact H1|]. split.
  - intros x Hx. apply store_bytes_outside. simpl length. lia.
  - intros Hf Hf5 Ht Hr.
    unfold rel32_target. rewrite H1. subst off.
    unfold CalculateRelativeOffset at 1. rewrite int32_stored.
    fold (CalculateRelativeOffset (wrap (from + 5)) to).
    rewrite (wrap_small (from + 5)) by lia.
    apply relative_offset_reaches; [lia | exact Ht | exact Hr].
Qed.

(** X20.  Relocation of a [call rel32] / [jmp rel32]: the opcode stays,
    and the instruction, run at its new address, goes where the original
    went from its old address, when that target fits a signed 32-bit
    displacement from the new place (always, on the 32-bit build). *)
Theorem RelocateInstruction_keeps_target
  (m : memory) (instruction oldAddress newAddress : Z) :
  m instruction = 0xE8 \/ m instruction = 0xE9 ->
  0 <= newAddress -> newAddress + 5 < ptr_mod ->
  let old_target :=
    wrap (oldAddress + 5 + int32 (le_value (load_bytes m (instruction + 1) 4))) in
  reachable (newAddress + 5) old_target ->
  let m' := fst (RelocateInstruction m instruction oldAddress newAddress) in
  m' instruction = m instruction
  /\ wrap (newAddress + 5 + int32 (le_value (load_bytes m' (instruction + 1) 4)))
     = old_target.
Proof.
  intros Hop Hn Hn5 old_target Hr. unfold RelocateInstruction.
  assert (Hc : (m instruction =? 0xE8) || (m instruction =? 0xE9) = true).
  { destruct Hop as [-> | ->]; reflexivity. }
  rewrite Hc. cbn [fst]. fold old_target.
  set (off := CalculateRelativeOffset (wrap (newAddress + 5)) old_target).
  split.
  - apply store_bytes_outside. lia.
  - pose proof (load_store_bytes (le_bytes 4 off) m (instruction + 1)) as Hl.
    change (length (le_bytes 4 off)) with 4%nat in Hl. rewrite Hl.
    subst off. unfold CalculateRelativeOffset at 1. rewrite int32_stored.
    fold (CalculateRelativeOffset (wrap (newAddress + 5)) old_target).
    rewrite (wrap_small (newAddress + 5)) by lia.
    apply relative_offset_reaches; [lia | apply wrap_range | exact Hr].
Qed.

End JumpTargets.

Lemma WriteJumpRelative_reaches_witness :
  let m' := fst (@DetoursLite.WriteJumpRelative x64 (fun _ => 0x90) 0x1000 0x5000) in
  m' 0x1000 = 0xE9
  /\ @DetoursLite.rel32_target x64 m' 0x1000 = 0x5000
  /\ forall x, x < 0x1000 \/ 0x1000 + 5 <= x -> m' x = 0x90.
Proof.
  destruct (@WriteJumpRelative_reaches x64 (fun _ => 0x90) 0x1000 0x5000)
    as (_ & H0 & _ & Hframe & Hland).
  split; [exact H0|]. split; [|exact Hframe].
  apply Hland; try (cbn; lia).
  right. lia.
Defined.

Lemma RelocateInstruction_keeps_target_witness :
  let m := Sim.image 0x20000 [0xE8; 0xFB; 0x0F; 0x00; 0x00] 0x90 in
  let m' := fst (@DetoursLite.RelocateInstruction x64 m 0x20000 0x1000 0x20000) in
  m' 0x20000 = m 0x20000
  /\ @wrap x64 (0x20000 + 5 + int32 (le_value (load_bytes m' (0x20000 + 1) 4)))
     = @wrap x64 (0x1000 + 5 + int32 (le_value (load_bytes m (0x20000 + 1) 4))).
Proof.
  apply (@RelocateInstruction_keeps_target x64
           (Sim.image 0x20000 [0xE8; 0xFB; 0x0F; 0x00; 0x00] 0x90)
           0x20000 0x1000 0x20000).
  - left. reflexivity.
  - lia.
  - cbn. lia.
  - right. vm_compute. split; [discriminate | reflexivity].
Defined.

Section Registry.
Context {P : Platform} {W : Type} {sys : OS W}.
Import DetoursLite.

Lemma set_active_targets (ts : list Trampoline) (target : Z) (b : bool) :
  map originalFunction (set_active ts target b) = map originalFunction ts.
Proof.
  induction ts as [|t r IH]; simpl; [reflexivity|].
  destruct (originalFunction t =? target); simpl; [reflexivity | now rewrite IH].
Qed.

Lemma erase_hook_targets (ts : list Trampoline) (target : Z) :
  NoDup (map originalFunction ts) ->
  NoDup (map originalFunction (erase_hook ts target))
  /\ forall x, In x (map originalFunction (erase_hook ts target))
               <-> In x (map originalFunction ts) /\ x <> target.
Proof.
  induction ts as [|t r IH]; simpl; intros Hn.
  - split; [constructor | intros x; tauto].
  - inversion Hn as [|? ? Hnot Hr]; subst.
    destruct (originalFunction t =? target) eqn:E.
    + apply Z.eqb_eq in E. split; [exact Hr|].
      intros x. split.
      * intros Hx. split; [now right|]. intros ->. congruence.
      * intros [[Hx | Hx] Hne]; [congruence | exact Hx].
    + apply Z.eqb_neq in E. destruct (IH Hr) as [Hd Hi]. split.
      * simpl. constructor; [|exact Hd]. intros Hx. apply Hi in Hx. tauto.
      * intros x. simpl. rewrite Hi. split.
        -- intros [<- | [Hx Hne]]; [split; [now left | exact E] | tauto].
        -- intros [[Hx | Hx] Hne]; [now left | right; tauto].
Qed.

Lemma IsHooked_In (p : Process W) (a : Z) :
  IsHooked p a = true <-> In a (map originalFunction (trampolines p)).
Proof.
  unfold IsHooked. rewrite existsb_exists, in_map_iff. split.
  - intros (t & Hin & He). apply Z.eqb_eq in He. eauto.
  - intros (t & He & Hin). exists t. split; [exact Hin | now apply Z.eqb_eq].
Qed.

Lemma InstallHook_registry (fuel : nat) (p : Process W) (target detour : Z)
  (type : HookType) (r : InstallResult) :
  InstallHook fuel p target detour type = Some r ->
  trampolines (after r) = trampolines p
  \/ (IsHooked p target = false
      /\ exists t, originalFunction t = target
                   /\ trampolines (after r) = trampolines p ++ [t]).
Proof.
  unfold InstallHook. cbv zeta.
  destruct (IsHooked p target) eqn:Hh; [intros [= <-]; now left|].
  destruct (prologue_loop fuel fuel (mem p) target _ 0) as [[n|]|];
    [| intros [= <-]; now left | discriminate].
  destruct (CreateTrampoline (os p) target n) as [a s1].
  destruct (a =? 0); [intros [= <-]; now left|].
  destruct (BuildTrampoline fuel (mem p) a _ n target a) as [m1|]; [|discriminate].
  destruct (SetMemoryProtection s1 target _ PAGE_EXECUTE_READWRITE)
    as [[old s2]|]; [|intros [= <-]; now left].
  destruct (match resolved type with
            | JMP_RELATIVE => WriteJumpRelative m1 target detour
            | JMP_ABSOLUTE => WriteJumpAbsolute m1 (to_slot p) target detour
            | PUSH_RET => WritePushRet m1 target detour
            | AUTO => (m1, false)
            end) as [m2 [|]].
  - intros [= <-]. right. split; [reflexivity|]. eexists. split; [|reflexivity].
    reflexivity.
  - intros [= <-]. now left.
Qed.

(** X21.  One hook per address is an invariant of the registry: when the
    targets of the registered hooks are pairwise different, they still
    are after any [InstallHook] that completes, and after any
    [RemoveHook], [EnableHook] or [DisableHook]. *)
Theorem registry_targets_stay_unique (p : Process W) :
  targets_unique p ->
  (forall fuel target detour type r,
      InstallHook fuel p target detour type = Some r -> targets_unique (after r))
  /\ (forall target, targets_unique (snd (RemoveHook p target)))
  /\ (forall target, targets_unique (snd (EnableHook p target)))
  /\ (forall target, targets_unique (snd (DisableHook p target))).
Proof.
  unfold targets_unique. intros Hu. split; [|split; [|split]].
  - intros fuel target detour type r Hi.
    apply InstallHook_registry in Hi as [-> | (Hh & t & Ht & ->)]; [exact Hu|].
    rewrite map_app. simpl. rewrite Ht.
    apply NoDup_app; [exact Hu | repeat constructor; intros [] |].
    intros x Hx [Hx' | []]. subst x.
    apply (proj2 (IsHooked_In p target)) in Hx. congruence.
  - intros target. unfold RemoveHook.
    destruct (find_hook (trampolines p) target) as [it|]; [|exact Hu].
    destruct (SetMemoryProtection (os p) target _ _) as [[old s1]|]; [|exact Hu].
    simpl. apply erase_hook_targets, Hu.
  - intros target. unfold EnableHook.
    destruct (find_hook (trampolines p) target) as [it|]; [|exact Hu].
    destruct (isActive it); [exact Hu|]. simpl. now rewrite set_active_targets.
  - intros target. unfold DisableHook.
    destruct (find_hook (trampolines p) target) as [it|]; [|exact Hu].
    destruct (isActive it); simpl; [|exact Hu].
    destruct (SetMemoryProtection (os p) target _ _) as [[old s1]|]; [|exact Hu].
    simpl. now rewrite set_active_targets.
Qed.

End Registry.

Section InstalledHook.
Context {P : Platform} {W : Type} {sys : OS W}.
Import DetoursLite.

Lemma prologue_loop_covers (fuel lfuel : nat) (m : memory) (target hookSize : Z) :
  forall bytesToCopy n,
    prologue_loop fuel lfuel m target hookSize bytesToCopy = Some (Some n) ->
    0 <= bytesToCopy -> hookSize <= n < ptr_mod \/ (hookSize <= n /\ n = bytesToCopy).
Proof.
  induction fuel as [|k IH]; intros b n; simpl; [discriminate|].
  destruct (b <? hookSize) eqn:E.
  - destruct (GetInstructionLength lfuel m _) as [len|]; [|discriminate].
    destruct (len =? 0); [discriminate|].
    intros H _. apply IH in H; [|apply wrap_range].
    destruct H as [H | [H ->]]; [now left|].
    left. split; [exact H | apply wrap_range].
  - apply Z.ltb_ge in E. intros [= <-] _. right. split; [exact E | reflexivity].
Qed.

Lemma hook_bytes_length (slot target detour : Z) (type : HookType) :
  writer_ok type = true ->
  Z.of_nat (length (hook_bytes slot target detour (resolved type)))
  = CalculateHookSize (resolved type).
Proof.
  unfold writer_ok, hook_bytes, CalculateHookSize, resolved.
  destruct type; destruct is64Bit; simpl; intros H; try reflexivity; discriminate.
Qed.

(** The memory that a successful install leaves: the trampoline is
    built first, then the hook is written at the target, then the rest
    of the prologue is padded. *)
Lemma InstallHook_memory (fuel : nat) (p : Process W) (target detour : Z)
  (type : HookType) (r : InstallResult) :
  InstallHook fuel p target detour type = Some r ->
  installed r = true ->
  exists n m1,
    prologue_loop fuel fuel (mem p) target (CalculateHookSize (resolved type)) 0
    = Some (Some n)
    /\ writer_ok type = true
    /\ mem (after r)
       = let m2 := store_bytes m1 target
                     (hook_bytes (to_slot p) target detour (resolved type)) in
         if CalculateHookSize (resolved type) <? n
         then store_bytes m2 (wrap (target + CalculateHookSize (resolved type)))
                (repeat 0x90
                   (Z.to_nat (wrap (n - CalculateHookSize (resolved type)))))
         else m2.
Proof.
  unfold InstallHook. cbv zeta.
  destruct (IsHooked p target); [intros [= <-]; discriminate|].
  destruct (prologue_loop fuel fuel (mem p) target _ 0) as [[n|]|];
    [| intros [= <-]; discriminate | discriminate].
  destruct (CreateTrampoline (os p) target n) as [a s1].
  destruct (a =? 0); [intros [= <-]; discriminate|].
  destruct (BuildTrampoline fuel (mem p) a _ n target a) as [m1|]; [|discriminate].
  destruct (SetMemoryProtection s1 target _ PAGE_EXECUTE_READWRITE)
    as [[old s2]|]; [|intros [= <-]; discriminate].
  assert (Hw : match resolved type with
               | JMP_RELATIVE => WriteJumpRelative m1 target detour
               | JMP_ABSOLUTE => WriteJumpAbsolute m1 (to_slot p) target detour
               | PUSH_RET => WritePushRet m1 target detour
               | AUTO => (m1, false)
               end
               = (if writer_ok type
                  then store_bytes m1 target
                         (hook_bytes (to_slot p) target detour (resolved type))
                  else m1,
                  writer_ok type)).
  { unfold writer_ok, resolved, hook_bytes, WriteJumpRelative, WriteJumpAbsolute,
      WritePushRet.
    destruct type; destruct is64Bit; reflexivity. }
  rewrite Hw. destruct (writer_ok type).
  - intros [= <-] _. exists n, m1. simpl. auto.
  - intros [= <-]. discriminate.
Qed.

(** The bytes at the target after a successful install are the bytes
    that the selected writer produced, followed by [nop]s up to the end
    of the prologue. *)
Lemma InstallHook_hook_bytes
  (fuel : nat) (p : Process W) (target detour : Z) (type : HookType)
  (r : InstallResult) :
  InstallHook fuel p target detour type = Some r ->
  installed r = true ->
  let hookSize := CalculateHookSize (resolved type) in
  exists t,
    find_hook (trampolines (after r)) target = Some t
    /\ isActive t = true
    /\ hookSize <= originalSize t
    /\ (0 <= target -> target + originalSize t < ptr_mod ->
        load_bytes (mem (after r)) target (Z.to_nat hookSize)
        = hook_bytes (to_slot p) target detour (resolved type)
        /\ load_bytes (mem (after r)) (target + hookSize)
             (Z.to_nat (originalSize t - hookSize))
           = repeat 0x90 (Z.to_nat (originalSize t - hookSize))).
Proof.
  intros Hi Ht hookSize.
  destruct (InstallHook_memory _ _ _ _ _ _ Hi Ht) as (n & m1 & Hl & Hw & Hm).
  pose proof (prologue_loop_covers _ _ _ _ _ _ _ Hl (Z.le_refl 0)) as Hn.
  assert (Hge : hookSize <= n) by (destruct Hn as [[H _] | [H _]]; exact H).
  apply InstallHook_cases in Hi
    as [(Hf & _) | (_ & Hh & _ & n' & a & s1 & old & s2 & m3 & Hl' & _ & _ & _ & _ & Haft)];
    [congruence|].
  rewrite Hl in Hl'. injection Hl' as <-.
  set (t := {| originalFunction := target; trampolineAddress := a;
               originalSize := n;
               originalBytes := load_bytes (mem p) target (Z.to_nat n);
               isActive := true |}) in *.
  exists t. split.
  { rewrite Haft. simpl. apply find_hook_last; [exact Hh | reflexivity]. }
  split; [reflexivity|]. split; [exact Hge|].
  simpl originalSize. intros H0 Hin.
  pose proof (hook_bytes_length (to_slot p) target detour type Hw) as Hlen.
  fold hookSize in Hlen, Hm.
  set (hb := hook_bytes (to_slot p) target detour (resolved type)) in *.
  assert (Hsz : 5 <= hookSize).
  { unfold hookSize, CalculateHookSize. destruct (resolved type); destruct is64Bit; lia. }
  rewrite Hm. cbv zeta.
  destruct (hookSize <? n) eqn:E.
  - apply Z.ltb_lt in E.
    rewrite (wrap_small (target + hookSize)) by lia.
    rewrite (wrap_small (n - hookSize)) by lia.
    split.
    + rewrite (load_bytes_ext _ (store_bytes m1 target hb)).
      * replace (Z.to_nat hookSize) with (length hb) by lia. apply load_store_bytes.
      * intros x Hx. apply store_bytes_outside. lia.
    + pose proof (load_store_bytes (repeat 0x90 (Z.to_nat (n - hookSize)))
                    (store_bytes m1 target hb) (target + hookSize)) as L.
      rewrite repeat_length in L. exact L.
  - apply Z.ltb_ge in E. assert (n = hookSize) by lia. subst n.
    rewrite Z.sub_diag. split; [|reflexivity].
    replace (Z.to_nat hookSize) with (length hb) by lia. apply load_store_bytes.
Qed.

Lemma load_bytes_split (m : memory) (n1 n2 : nat) :
  forall a l,
    load_bytes m a (n1 + n2) = l ->
    load_bytes m a n1 = firstn n1 l
    /\ load_bytes m (a + Z.of_nat n1) n2 = skipn n1 l.
Proof.
  induction n1 as [|n1 IH]; intros a l H.
  - cbn [firstn skipn load_bytes]. rewrite Z.add_0_r. now split.
  - cbn [Nat.add load_bytes] in H. destruct l as [|b l]; [discriminate|].
    injection H as Hb Hl. destruct (IH _ _ Hl) as [H1 H2].
    cbn [firstn skipn load_bytes]. split; [now rewrite Hb, H1|].
    rewrite <- H2. f_equal. lia.
Qed.

Lemma resolved_not_AUTO (type : HookType) : resolved type <> AUTO.
Proof. unfold resolved. destruct type; destruct is64Bit; discriminate. Qed.

(** X22.  What a successful install leaves at the target.  The registry
    holds an active entry for the target whose prologue length is at
    least the size of the hook, and, when the prologue lies inside the
    address space, the bytes from the end of the hook to the end of the
    prologue are [nop].  The hook itself, by hook type:
    - relative jump: [E9] and a displacement, which lands on the detour
      when the detour is within a signed 32-bit displacement (always, on
      the 32-bit build), and not otherwise promised;
    - absolute jump, 64-bit build: [FF 25 00 00 00 00] followed by the
      eight bytes of the detour address;
    - absolute jump, 32-bit build: [FF 25] followed by the address of the
      writer's own parameter ([to_slot]), whatever the detour is;
    - push/ret (32-bit build only): [68], the four bytes of the detour
      address, [C3]. *)
Theorem InstallHook_writes_hook
  (fuel : nat) (p : Process W) (target detour : Z) (type : HookType)
  (r : InstallResult) :
  InstallHook fuel p target detour type = Some r ->
  installed r = true ->
  let hookSize := CalculateHookSize (resolved type) in
  let m' := mem (after r) in
  exists t,
    find_hook (trampolines (after r)) target = Some t
    /\ isActive t = true
    /\ hookSize <= originalSize t
    /\ (0 <= target -> target + originalSize t < ptr_mod ->
        load_bytes m' (target + hookSize) (Z.to_nat (originalSize t - hookSize))
        = repeat 0x90 (Z.to_nat (originalSize t - hookSize))
        /\ match resolved type with
           | JMP_RELATIVE =>
               m' target = 0xE9
               /\ (0 <= detour < ptr_mod -> reachable (target + 5) detour ->
                   rel32_target m' target = detour)
           | JMP_ABSOLUTE =>
               load_bytes m' target 2 = [0xFF; 0x25]
               /\ (is64Bit = true ->
                   load_bytes m' (target + 2) 4 = [0; 0; 0; 0]
                   /\ (0 <= detour < ptr_mod ->
                       le_value (load_bytes m' (target + 6) 8) = detour))
               /\ (is64Bit = false ->
                   load_bytes m' (target + 2) 4 = le_bytes 4 (to_slot p)
                   /\ (0 <= to_slot p < ptr_mod ->
                       le_value (load_bytes m' (target + 2) 4) = to_slot p))
           | PUSH_RET =>
               is64Bit = false
               /\ m' target = 0x68
               /\ (0 <= detour < ptr_mod ->
                   le_value (load_bytes m' (target + 1) 4) = detour)
               /\ m' (target + 5) = 0xC3
           | AUTO => False
           end).
Proof.
  intros Hi Ht hookSize m'.
  pose proof (proj1 (InstallHook_succeeds_iff _ _ _ _ _ _ Hi) Ht) as (_ & Hw & _).
  destruct (InstallHook_hook_bytes _ _ _ _ _ _ Hi Ht) as (t & Hf & Ha & Hge & Hb).
  exists t. split; [exact Hf|]. split; [exact Ha|]. split; [exact Hge|].
  intros H0 Hin. destruct (Hb H0 Hin) as [Hhook Hnop]. split; [exact Hnop|].
  fold m' in Hhook. clear Hb Hnop Hf Ha Hi Ht.
  pose proof (resolved_not_AUTO type) as Hauto.
  unfold writer_ok in Hw. unfold hookSize in Hge, Hhook. clear hookSize.
  unfold CalculateHookSize, hook_bytes in *.
  assert (Hmod : ptr_mod = if is64Bit then 2 ^ 64 else 2 ^ 32).
  { unfold ptr_mod, ptr_bits. destruct is64Bit; reflexivity. }
  destruct (resolved type); [| | |now elim Hauto].
  - (* relative *)
    change (Z.to_nat 5) with 5%nat in Hhook.
    apply load_bytes_head in Hhook as [H1 H2].
    split; [exact H1|]. intros Hd Hr.
    unfold rel32_target. rewrite H2.
    unfold CalculateRelativeOffset at 1. rewrite int32_stored.
    fold (CalculateRelativeOffset (wrap (target + 5)) detour).
    rewrite (wrap_small (target + 5)) by lia.
    apply relative_offset_reaches; [lia | exact Hd | exact Hr].
  - (* absolute *)
    destruct is64Bit eqn:E64.
    + change (Z.to_nat 14) with (2 + (4 + 8))%nat in Hhook.
      apply load_bytes_split in Hhook as [H2 Hrest]. cbn [firstn skipn app] in H2, Hrest.
      apply load_bytes_split in Hrest as [H4 H8]. cbn [firstn skipn] in H4, H8.
      change (Z.of_nat 2) with 2 in *. change (Z.of_nat 4) with 4 in *.
      replace (target + 2 + 4) with (target + 6) in H8 by lia.
      split; [exact H2|]. split; [|discriminate].
      intros _. split; [exact H4|]. intros Hd.
      rewrite H8. change (skipn 4 (0 :: 0 :: 0 :: 0 :: le_bytes 8 detour))
        with (le_bytes 8 detour).
      rewrite le_value_le_bytes. change (256 ^ Z.of_nat 8) with (2 ^ 64).
      apply Z.mod_small. lia.
    + change (Z.to_nat 6) with (2 + 4)%nat in Hhook.
      apply load_bytes_split in Hhook as [H2 H4]. cbn [firstn skipn app] in H2, H4.
      change (Z.of_nat 2) with 2 in *.
      split; [exact H2|]. split; [discriminate|].
      intros _. split; [exact H4|]. intros Hs.
      rewrite H4, le_value_le_bytes. change (256 ^ Z.of_nat 4) with (2 ^ 32).
      apply Z.mod_small. lia.
  - (* push / ret *)
    destruct is64Bit eqn:E64; [discriminate|].
    change (Z.to_nat 6) with (1 + (4 + 1))%nat in Hhook.
    apply load_bytes_split in Hhook as [H1 Hrest]. cbn [firstn skipn app] in H1, Hrest.
    apply load_bytes_split in Hrest as [H4 H5].
    change (Z.of_nat 1) with 1 in *. change (Z.of_nat 4) with 4 in *.
    replace (target + 1 + 4) with (target + 5) in H5 by lia.
    assert (Hlen : length (le_bytes 4 detour) = 4%nat) by reflexivity.
    rewrite firstn_app, Hlen, Nat.sub_diag, firstn_all2, app_nil_r in H4
      by (rewrite Hlen; lia).
    rewrite skipn_app, Hlen, Nat.sub_diag, skipn_all2 in H5 by (rewrite Hlen; lia).
    cbn [skipn app load_bytes] in H5, H1.
    split; [reflexivity|]. split; [congruence|]. split; [|congruence].
    intros Hd. rewrite H4, le_value_le_bytes. change (256 ^ Z.of_nat 4) with (2 ^ 32).
    apply Z.mod_small. lia.
Qed.

End InstalledHook.

Lemma InstallHook_writes_hook_witness :
  match @DetoursLite.InstallHook x64 _ Sim.system 20
          (Sim.process Sim.frame_prologue 4) 0x1000 0x5000 DetoursLite.AUTO with
  | Some r =>
      DetoursLite.installed r = true
      /\ load_bytes (DetoursLite.mem (DetoursLite.after r)) 0x1000 2 = [0xFF; 0x25]
      /\ le_value (load_bytes (DetoursLite.mem (DetoursLite.after r)) (0x1000 + 6) 8)
         = 0x5000
  | None => False
  end.
Proof.
  destruct (@DetoursLite.InstallHook x64 _ Sim.system 20
              (Sim.process Sim.frame_prologue 4) 0x1000 0x5000 DetoursLite.AUTO)
    as [r|] eqn:E.
  - assert (Hi : DetoursLite.installed r = true).
    { apply (f_equal (option_map (@DetoursLite.installed _))) in E.
      vm_compute in E. injection E as E. exact (eq_sym E). }
    split; [exact Hi|].
    destruct (@InstallHook_writes_hook x64 _ Sim.system _ _ _ _ _ _ E Hi)
      as (t & Hf & _ & _ & Hb).
    assert (Hn : DetoursLite.originalSize t = 14).
    { pose (G := fun o : option (@DetoursLite.InstallResult Sim.state) =>
                   match o with
                   | Some x => option_map DetoursLite.originalSize
                                 (DetoursLite.find_hook
                                    (DetoursLite.trampolines (DetoursLite.after x)) 0x1000)
                   | None => None
                   end).
      pose proof (f_equal G E) as E2.
      change (G (Some r))
        with (option_map DetoursLite.originalSize
                (DetoursLite.find_hook
                   (DetoursLite.trampolines (DetoursLite.after r)) 0x1000)) in E2.
      rewrite Hf in E2. vm_compute in E2. injection E2 as E2. exact (eq_sym E2). }
    rewrite Hn in Hb.
    destruct (Hb ltac:(lia) ltac:(cbn; lia)) as [_ Hh].
    change (@DetoursLite.resolved x64 DetoursLite.AUTO)
      with DetoursLite.JMP_ABSOLUTE in Hh.
    cbv iota in Hh. destruct Hh as (H2 & H64 & _).
    split; [exact H2|].
    apply (proj2 (H64 eq_refl)). cbn. lia.
  - apply (f_equal (option_map (@DetoursLite.installed _))) in E.
    vm_compute in E. discriminate E.
Defined.

Section HookStates.
Context {P : Platform} {W : Type} {sys : OS W}.
Import DetoursLite.

Lemma find_hook_target (ts : list Trampoline) (target : Z) (t : Trampoline) :
  find_hook ts target = Some t -> originalFunction t = target /\ In t ts.
Proof.
  unfold find_hook. intros H. apply find_some in H as [Hin He].
  apply Z.eqb_eq in He. now split.
Qed.

Lemma set_active_twice (ts : list Trampoline) (target : Z) (t : Trampoline) :
  find_hook ts target = Some t -> isActive t = true ->
  set_active (set_active ts target false) target true = ts.
Proof.
  unfold find_hook. induction ts as [|x r IH]; simpl; [discriminate|].
  destruct (originalFunction x =? target) eqn:E.
  - intros [= <-] Ha. simpl. rewrite E. destruct x; simpl in *. now subst.
  - intros Hf Ha. simpl. rewrite E. f_equal. now apply IH.
Qed.

Lemma find_hook_set_active (ts : list Trampoline) (target : Z) (b : bool) (t : Trampoline) :
  find_hook ts target = Some t ->
  exists t', find_hook (set_active ts target b) target = Some t'
             /\ isActive t' = b /\ originalSize t' = originalSize t
             /\ originalBytes t' = originalBytes t.
Proof.
  unfold find_hook. induction ts as [|x r IH]; simpl; [discriminate|].
  destruct (originalFunction x =? target) eqn:E.
  - intros [= <-]. simpl. rewrite E. eexists. split; [reflexivity|]. simpl. auto.
  - intros Hf. simpl. rewrite E. now apply IH.
Qed.

Lemma set_active_inactive (ts : list Trampoline) (target : Z) (t : Trampoline) :
  NoDup (map originalFunction ts) ->
  find_hook ts target = Some t ->
  ~ In target (map originalFunction (filter isActive (set_active ts target false))).
Proof.
  unfold find_hook. induction ts as [|x r IH]; simpl; [discriminate|].
  intros Hn. inversion Hn as [|? ? Hnot Hr]; subst.
  destruct (originalFunction x =? target) eqn:E.
  - intros _. simpl. apply Z.eqb_eq in E. subst target.
    intros Hin. apply Hnot. apply in_map_iff in Hin as (y & Hy & Hin).
    apply filter_In in Hin as [Hin _]. apply in_map_iff. eauto.
  - intros Hf. simpl. apply Z.eqb_neq in E.
    destruct (isActive x); simpl; [intros [H | H]; [contradiction|]|intros H];
      revert H; now apply IH.
Qed.

(** X23.  Disable and enable are a switch on the entry.  A
    [DisableHook] that returns true found an active entry; afterwards
    the saved prologue is back at the target, the target is still
    registered but no longer among the active hooks, a second
    [DisableHook] returns false, and [EnableHook] returns true and puts
    the registry back as it was before the disable (memory and system
    state stay as the disable left them). *)
Theorem DisableHook_then_EnableHook (p p1 : Process W) (target : Z) :
  targets_unique p ->
  DisableHook p target = (true, p1) ->
  exists t,
    find_hook (trampolines p) target = Some t
    /\ isActive t = true
    /\ load_bytes (mem p1) target (length (saved_prologue t)) = saved_prologue t
    /\ IsHooked p1 target = true
    /\ ~ In target (GetActiveHooks p1)
    /\ fst (DisableHook p1 target) = false
    /\ EnableHook p1 target
       = (true, {| os := os p1; mem := mem p1;
                   trampolines := trampolines p; to_slot := to_slot p1 |}).
Proof.
  intros Hu. unfold DisableHook at 1.
  destruct (find_hook (trampolines p) target) as [t|] eqn:Hf; [|discriminate].
  destruct (isActive t) eqn:Ha; simpl negb; cbv iota; [|discriminate].
  destruct (SetMemoryProtection (os p) target (originalSize t) PAGE_EXECUTE_READWRITE)
    as [[old s1]|]; [|discriminate].
  intros [= <-]. exists t. split; [reflexivity|]. split; [exact Ha|].
  destruct (find_hook_set_active _ _ false _ Hf) as (t' & Hf' & Ha' & _ & _).
  split; [apply load_store_bytes|]. split.
  { apply IsHooked_In. simpl. rewrite set_active_targets.
    apply find_hook_target in Hf as [<- Hin]. now apply in_map. }
  split.
  { unfold GetActiveHooks. simpl. eapply set_active_inactive; eassumption. }
  split.
  { unfold DisableHook. simpl trampolines. rewrite Hf', Ha'. reflexivity. }
  unfold EnableHook. simpl trampolines. rewrite Hf', Ha'. simpl.
  now rewrite (set_active_twice _ _ _ Hf Ha).
Qed.

Lemma find_hook_erase_other (ts : list Trampoline) (target other : Z) :
  other <> target ->
  find_hook (erase_hook ts target) other = find_hook ts other.
Proof.
  intros Hne. unfold find_hook. induction ts as [|x r IH]; simpl; [reflexivity|].
  destruct (originalFunction x =? target) eqn:E.
  - apply Z.eqb_eq in E.
    destruct (originalFunction x =? other) eqn:E'; [apply Z.eqb_eq in E'; congruence|].
    reflexivity.
  - simpl. destruct (originalFunction x =? other); [reflexivity | exact IH].
Qed.

(** X24.  [RemoveHook] touches the entry of its target and nothing
    else.  When it returns false the process is unchanged.  When it
    returns true (the registry having one hook per address) the target
    is no longer registered, every other address keeps its entry, the
    saved prologue is back at the target, and memory outside the
    prologue is untouched. *)
Theorem RemoveHook_frame (p p' : Process W) (target : Z) (b : bool) :
  targets_unique p ->
  RemoveHook p target = (b, p') ->
  (b = false -> p' = p)
  /\ (b = true ->
      IsHooked p' target = false
      /\ (forall other, other <> target ->
            find_hook (trampolines p') other = find_hook (trampolines p) other)
      /\ exists t,
           find_hook (trampolines p) target = Some t
           /\ load_bytes (mem p') target (length (saved_prologue t)) = saved_prologue t
           /\ forall x, x < target \/ target + Z.of_nat (length (saved_prologue t)) <= x ->
                        mem p' x = mem p x).
Proof.
  intros Hu. unfold RemoveHook.
  destruct (find_hook (trampolines p) target) as [t|] eqn:Hf.
  2:{ intros [= <- <-]. split; [reflexivity | discriminate]. }
  destruct (SetMemoryProtection (os p) target (originalSize t) PAGE_EXECUTE_READWRITE)
    as [[old s1]|].
  2:{ intros [= <- <-]. split; [reflexivity | discriminate]. }
  intros [= <- <-]. split; [discriminate|]. intros _. simpl.
  split.
  { destruct (IsHooked _ target) eqn:E; [|reflexivity].
    apply IsHooked_In in E. simpl in E.
    apply (erase_hook_targets _ target Hu) in E. tauto. }
  split.
  { intros other Hne. now apply find_hook_erase_other. }
  exists t. split; [reflexivity|]. split; [apply load_store_bytes|].
  intros x Hx. now apply store_bytes_outside.
Qed.

End HookStates.

Lemma registry_targets_stay_unique_witness :
  match @DetoursLite.InstallHook x64 _ Sim.system 20
          (Sim.process Sim.frame_prologue 4) 0x1000 0x5000 DetoursLite.AUTO with
  | Some r => DetoursLite.targets_unique (DetoursLite.after r)
  | None => False
  end.
Proof.
  destruct (@DetoursLite.InstallHook x64 _ Sim.system 20
              (Sim.process Sim.frame_prologue 4) 0x1000 0x5000 DetoursLite.AUTO)
    as [r|] eqn:E.
  - apply (proj1 (@registry_targets_stay_unique x64 _ Sim.system
                    (Sim.process Sim.frame_prologue 4) (NoDup_nil Z))
             _ _ _ _ _ E).
  - apply (f_equal (option_map (@DetoursLite.installed _))) in E.
    vm_compute in E. discriminate E.
Defined.

Lemma DisableHook_then_EnableHook_witness :
  match @DetoursLite.DisableHook _ Sim.system Scenario.hooked 0x1000 with
  | (b, p1) =>
      b = true
      /\ DetoursLite.IsHooked p1 0x1000 = true
      /\ load_bytes (DetoursLite.mem p1) 0x1000 8 = Sim.frame_prologue
      /\ fst (@DetoursLite.EnableHook _ p1 0x1000) = true
  end.
Proof.
  destruct (@DetoursLite.DisableHook _ Sim.system Scenario.hooked 0x1000)
    as [b p1] eqn:E.
  assert (Hb : b = true) by (apply (f_equal fst) in E; exact (eq_sym E)).
  subst b. split; [reflexivity|].
  assert (Hu : DetoursLite.targets_unique Scenario.hooked)
    by (repeat constructor; simpl; tauto).
  destruct (@DisableHook_then_EnableHook _ Sim.system _ _ _ Hu E)
    as (t & _ & _ & _ & Hh & _ & _ & He).
  split; [exact Hh|]. split.
  - apply (f_equal (fun x => load_bytes (DetoursLite.mem (snd x)) 0x1000 8)) in E.
    exact (eq_sym E).
  - rewrite He. reflexivity.
Defined.

Lemma RemoveHook_frame_witness :
  match @DetoursLite.RemoveHook _ Sim.system Scenario.hooked 0x1000 with
  | (b, p') =>
      b = true
      /\ DetoursLite.IsHooked p' 0x1000 = false
      /\ forall other, other <> 0x1000 ->
           DetoursLite.find_hook (DetoursLite.trampolines p') other
           = DetoursLite.find_hook (DetoursLite.trampolines Scenario.hooked) other
  end.
Proof.
  destruct (@DetoursLite.RemoveHook _ Sim.system Scenario.hooked 0x1000)
    as [b p'] eqn:E.
  assert (Hb : b = true) by (apply (f_equal fst) in E; exact (eq_sym E)).
  assert (Hu : DetoursLite.targets_unique Scenario.hooked)
    by (repeat constructor; simpl; tauto).
  destruct (proj2 (@RemoveHook_frame _ Sim.system _ _ _ _ Hu E) Hb)
    as (Hh & Hf & _).
  split; [exact Hb|]. split; [exact Hh | exact Hf].
Defined.

(* ================================================================== *)
(** * Further properties of the length disassembler *)

Section LengthShape.
Import LengthDisassembler.

Lemma GetModRMSize_bound (modRM : Z) (hasRex : bool) : GetModRMSize modRM hasRex <= 5.
Proof.
  unfold GetModRMSize.
  repeat match goal with |- context [if ?c then _ else _] => destruct c end; lia.
Qed.

Lemma GetOpcodeSize_bound (data : Z -> Z) (hasRex : bool) :
  GetOpcodeSize data hasRex <= 12.
Proof.
  unfold GetOpcodeSize.
  pose proof (GetModRMSize_bound (data 1) hasRex).
  pose proof (GetModRMSize_bound (data 2) hasRex).
  pose proof (GetModRMSize_bound (data 3) hasRex).
  destruct (data 0 =? 0x0F).
  - destruct ((data 1 =? 0x38) || (data 1 =? 0x3A)) eqn:E3.
    + apply orb_true_iff in E3 as [E | E]; apply Z.eqb_eq in E; rewrite E;
        vm_compute; discriminate.
    + repeat match goal with
             | |- context [if ?c then _ else _] => destruct c
             end; lia.
  - repeat match goal with
           | |- context [if ?c then _ else _] => destruct c
           end; lia.
Qed.

Lemma GetOpcodeSize_ext (f g : Z -> Z) (r r' : bool) :
  (forall i, f i = g i) -> GetOpcodeSize f r = GetOpcodeSize g r'.
Proof.
  intros H. unfold GetOpcodeSize, GetModRMSize. rewrite !H. reflexivity.
Qed.

Lemma skip_prefixes_run (data : Z -> Z) :
  forall fuel offset hasRex,
    match skip_prefixes fuel data offset hasRex with
    | Some (o, _) =>
        exists k, (k < fuel)%nat /\ o = offset + Z.of_nat k
                  /\ (forall j, (j < k)%nat -> IsPrefix (data (offset + Z.of_nat j)) = true)
                  /\ IsPrefix (data o) = false
    | None => forall j, (j < fuel)%nat -> IsPrefix (data (offset + Z.of_nat j)) = true
    end.
Proof.
  induction fuel as [|f IH]; intros offset hasRex; cbn [skip_prefixes].
  - intros j Hj. lia.
  - destruct (IsPrefix (data offset)) eqn:E.
    + specialize (IH (offset + 1)
                     (if IsRexPrefix (data offset) then true else hasRex)).
      destruct (skip_prefixes f data (offset + 1) _) as [[o r]|].
      * destruct IH as (k & Hk & -> & Hrun & Hend).
        exists (S k). split; [lia|]. split; [lia|]. split; [|exact Hend].
        intros [|j] Hj; [now rewrite Z.add_0_r|].
        replace (offset + Z.of_nat (S j)) with (offset + 1 + Z.of_nat j) by lia.
        apply Hrun. lia.
      * intros [|j] Hj; [now rewrite Z.add_0_r|].
        replace (offset + Z.of_nat (S j)) with (offset + 1 + Z.of_nat j) by lia.
        apply IH. lia.
    + exists 0%nat. split; [lia|]. split; [simpl; lia|]. split; [intros j Hj; lia|].
      exact E.
Qed.

(** X25.  [GetLength] counts the leading prefix bytes and adds the size
    of the opcode that follows, which is between 1 and 12: when it
    returns [n], some [k] bytes are prefixes, byte [k] is not, and
    [k + 1 <= n <= k + 12].  It fails to return within [fuel] bytes only
    when every one of them is a prefix. *)
Theorem GetLength_shape (fuel : nat) (data : Z -> Z) :
  match GetLength fuel data with
  | Some n =>
      exists k, (k < fuel)%nat
                /\ (forall j, (j < k)%nat -> IsPrefix (data (Z.of_nat j)) = true)
                /\ IsPrefix (data (Z.of_nat k)) = false
                /\ Z.of_nat k + 1 <= n <= Z.of_nat k + 12
  | None => forall j, (j < fuel)%nat -> IsPrefix (data (Z.of_nat j)) = true
  end.
Proof.
  unfold GetLength. pose proof (skip_prefixes_run data fuel 0 false) as H.
  destruct (skip_prefixes fuel data 0 false) as [[o r]|].
  - destruct H as (k & Hk & -> & Hrun & Hend). rewrite Z.add_0_l in *.
    exists k. split; [exact Hk|]. split; [exact Hrun|]. split; [exact Hend|].
    pose proof (GetOpcodeSize_positive (fun i => data (Z.of_nat k + i)) r).
    pose proof (GetOpcodeSize_bound (fun i => data (Z.of_nat k + i)) r). lia.
  - exact H.
Qed.

Lemma skip_prefixes_shift (data : Z -> Z) :
  forall fuel offset h h',
    match skip_prefixes fuel data (offset + 1) h,
          skip_prefixes fuel (fun i => data (1 + i)) offset h' with
    | Some (o, _), Some (o', _) => o = o' + 1
    | None, None => True
    | _, _ => False
    end.
Proof.
  induction fuel as [|f IH]; intros offset h h'; cbn [skip_prefixes]; [exact I|].
  replace (1 + offset) with (offset + 1) by lia.
  destruct (IsPrefix (data (offset + 1))).
  - apply IH.
  - reflexivity.
Qed.

(** X26.  A prefix byte adds exactly one to the length: the length of a
    sequence that starts with a prefix is one more than the length of
    what follows it (whatever the prefix, a REX prefix included). *)
Theorem GetLength_prefix (fuel : nat) (data : Z -> Z) :
  IsPrefix (data 0) = true ->
  GetLength (S fuel) data
  = option_map (Z.add 1) (GetLength fuel (fun i => data (1 + i))).
Proof.
  intros Hp. unfold GetLength. cbn [skip_prefixes]. rewrite Hp.
  pose proof (skip_prefixes_shift data fuel 0
                (if IsRexPrefix (data 0) then true else false) false) as H.
  destruct (skip_prefixes fuel data (0 + 1) _) as [[o r]|];
    destruct (skip_prefixes fuel (fun i => data (1 + i)) 0 false) as [[o' r']|];
    try contradiction; [|reflexivity].
  subst o. cbn [option_map]. f_equal.
  assert (Hx : GetOpcodeSize (fun i => data (o' + 1 + i)) r
               = GetOpcodeSize (fun i => data (1 + (o' + i))) r')
    by (apply GetOpcodeSize_ext; intros i; f_equal; lia).
  rewrite Hx. lia.
Qed.

End LengthShape.

Lemma GetLength_prefix_witness :
  LengthDisassembler.GetLength 3
    (LengthDisassembler.stream [0x48; 0x89; 0xE5] (fun _ => 0x90))
  = option_map (Z.add 1)
      (LengthDisassembler.GetLength 2
         (fun i => LengthDisassembler.stream [0x48; 0x89; 0xE5] (fun _ => 0x90) (1 + i))).
Proof.
  apply (GetLength_prefix 2
           (LengthDisassembler.stream [0x48; 0x89; 0xE5] (fun _ => 0x90))).
  reflexivity.
Defined.

(* ================================================================== *)
(** * Text conversions *)

Section TextFacts.
Import MemoryEngine.

Lemma hex_digit_word_char (d : Z) :
  isspace (hex_digit d) = false /\ Ascii.eqb (hex_digit d) "?" = false.
Proof.
  unfold hex_digit. generalize (Z.to_nat d). intros n.
  do 17 (destruct n as [|n]; [split; reflexivity|]).
  destruct n; split; reflexivity.
Qed.

Lemma hex_byte_word (b : Z) :
  Forall (fun c => isspace c = false) (hex_byte b)
  /\ is_wildcard (hex_byte b) = false
  /\ length (hex_byte b) = 2%nat.
Proof.
  unfold hex_byte. split; [|split; [|reflexivity]].
  - repeat constructor; apply hex_digit_word_char.
  - cbn [is_wildcard].
    now rewrite (proj2 (hex_digit_word_char (uint8 b / 16))).
Qed.

Lemma extract_words_word (w : list ascii) :
  Forall (fun c => isspace c = false) w ->
  forall word s, extract_words word (w ++ s) = extract_words (word ++ w) s.
Proof.
  induction 1 as [|c w Hc _ IH]; intros word s.
  - now rewrite app_nil_r.
  - cbn [app extract_words]. rewrite Hc, IH, <- app_assoc. reflexivity.
Qed.

(** The text that both encoders produce: the bytes in two hexadecimal
    digits each, a space between neighbours. *)
Lemma BytesToPattern_from_later (bytes : list Z) :
  forall i, (0 < i)%nat ->
            BytesToPattern_from i bytes
            = flat_map (fun b => " "%char :: hex_byte b) bytes.
Proof.
  induction bytes as [|b r IH]; intros i Hi; [reflexivity|].
  cbn [BytesToPattern_from flat_map].
  destruct (Nat.ltb_spec 0 i) as [_|]; [|lia].
  rewrite IH by lia. reflexivity.
Qed.

Lemma BytesToPattern_cons (b : Z) (r : list Z) :
  BytesToPattern (b :: r)
  = hex_byte b ++ flat_map (fun b => " "%char :: hex_byte b) r.
Proof.
  unfold BytesToPattern. cbn [BytesToPattern_from Nat.ltb Nat.leb app].
  now rewrite BytesToPattern_from_later by lia.
Qed.

Lemma BytesToHexString_cons (r : list Z) :
  forall b, BytesToHexString (b :: r)
            = hex_byte b ++ flat_map (fun b => " "%char :: hex_byte b) r.
Proof.
  unfold BytesToHexString.
  induction r as [|b' r IH]; intros b.
  - reflexivity.
  - specialize (IH b').
    cbn [flat_map] in *.
    set (rest := flat_map (fun byte => hex_byte byte ++ [" "%char]) r) in *.
    set (tail := flat_map (fun b => " "%char :: hex_byte b) r) in *.
    cbn [hex_byte app] in *.
    cbn [removelast] in *. congruence.
Qed.


Lemma extract_words_hex (r : list Z) :
  forall b,
    extract_words [] (hex_byte b ++ flat_map (fun b => " "%char :: hex_byte b) r)
    = map hex_byte (b :: r).
Proof.
  induction r as [|b' r IH]; intros b.
  - rewrite (extract_words_word _ (proj1 (hex_byte_word b))). reflexivity.
  - rewrite (extract_words_word _ (proj1 (hex_byte_word b))).
    cbn [flat_map app extract_words].
    change (isspace " ") with true. cbv iota.
    rewrite (IH b'). reflexivity.
Qed.

Lemma hex_digits_value (b : Z) :
  0 <= uint8 b / 16 < 16 /\ 0 <= uint8 b mod 16 < 16
  /\ uint8 (16 * (uint8 b / 16) + uint8 b mod 16) = uint8 b.
Proof.
  pose proof (uint8_range b) as Hr.
  split; [|split].
  - split; [apply Z.div_pos; lia | apply Z.div_lt_upper_bound; lia].
  - apply Z.mod_pos_bound. lia.
  - rewrite <- Z.div_mod by lia. unfold uint8 at 1. apply Z.mod_small. lia.
Qed.

Variable stoul : list ascii -> converted Z.

(** What [std::stoul(_, nullptr, 16)] makes of two hexadecimal digits. *)
Hypothesis stoul_digits :
  forall h l, 0 <= h < 16 -> 0 <= l < 16 ->
              stoul [hex_digit h; hex_digit l] = Converted (16 * h + l).

Lemma stoul_hex_byte (b : Z) : stoul (hex_byte b) = Converted (16 * (uint8 b / 16) + uint8 b mod 16).
Proof.
  destruct (hex_digits_value b) as (Hh & Hl & _). now apply stoul_digits.
Qed.

Lemma HexStringToBytes_words_hex (bytes : list Z) :
  HexStringToBytes_words stoul (map hex_byte bytes) = Converted (map uint8 bytes).
Proof.
  induction bytes as [|b r IH]; [reflexivity|].
  cbn [map HexStringToBytes_words].
  change (length (hex_byte b) =? 2)%nat with true. cbv iota.
  rewrite stoul_hex_byte, IH.
  now rewrite (proj2 (proj2 (hex_digits_value b))).
Qed.

Lemma PatternToBytes_words_hex (bytes : list Z) :
  PatternToBytes_words stoul (map hex_byte bytes) = Converted (map uint8 bytes).
Proof.
  induction bytes as [|b r IH]; [reflexivity|].
  cbn [map PatternToBytes_words].
  rewrite (proj1 (proj2 (hex_byte_word b))).
  rewrite stoul_hex_byte, IH.
  now rewrite (proj2 (proj2 (hex_digits_value b))).
Qed.

(** X28.  Round trip through hexadecimal text: [HexStringToBytes] reads
    back what [BytesToHexString] wrote, byte for byte and without an
    exception. *)
Theorem HexStringToBytes_BytesToHexString (bytes : list Z) :
  HexStringToBytes stoul (BytesToHexString bytes) = Converted (map uint8 bytes).
Proof.
  unfold HexStringToBytes.
  destruct bytes as [|b r]; [reflexivity|].
  rewrite BytesToHexString_cons, extract_words_hex.
  apply HexStringToBytes_words_hex.
Qed.

Lemma PatternToBytes_words_length (words : list (list ascii)) :
  forall bytes,
    PatternToBytes_words stoul words = Converted bytes ->
    length bytes = length words
    /\ forall j, is_wildcard (nth j words []) = true -> nth j bytes 0 = 0.
Proof.
  induction words as [|w r IH]; intros bytes H; cbn [PatternToBytes_words] in H.
  - injection H as <-. split; [reflexivity|]. intros [|j]; reflexivity.
  - destruct (is_wildcard w) eqn:Ew.
    + destruct (PatternToBytes_words stoul r) as [bs|]; [|discriminate].
      injection H as <-. destruct (IH bs eq_refl) as [Hl Hn].
      split; [cbn [length]; now rewrite Hl|].
      intros [|j] Hj; [reflexivity|]. cbn [nth] in *. now apply Hn.
    + destruct (stoul w) as [v|]; [|discriminate].
      destruct (PatternToBytes_words stoul r) as [bs|]; [|discriminate].
      injection H as <-. destruct (IH bs eq_refl) as [Hl Hn].
      split; [cbn [length]; now rewrite Hl|].
      intros [|j] Hj; cbn [nth] in *; [congruence|]. now apply Hn.
Qed.

(** X29.  Array-of-bytes patterns.  When [PatternToBytes] returns, the
    mask that [AOBScanAll] builds beside it has one character per
    pattern byte, and the pattern byte under each ['?'] of the mask is
    0.  The text that [BytesToPattern] writes reads back as the same
    bytes, under a mask that is ['x'] throughout. *)
Theorem AOB_pattern_and_mask :
  (forall pattern bytes,
      PatternToBytes stoul pattern = Converted bytes ->
      length (aob_mask pattern) = length bytes
      /\ forall j, nth j (aob_mask pattern) 0 = 63 -> nth j bytes 0 = 0)
  /\ (forall bytes,
         PatternToBytes stoul (BytesToPattern bytes) = Converted (map uint8 bytes)
         /\ aob_mask (BytesToPattern bytes) = repeat 120 (length bytes)).
Proof.
  split.
  - intros pattern bytes H. unfold PatternToBytes in H.
    destruct (PatternToBytes_words_length _ _ H) as [Hl Hn].
    unfold aob_mask. rewrite length_map. split; [now rewrite Hl|].
    intros j Hj. apply Hn. revert j Hj.
    generalize (extract_words [] pattern). intros l.
    induction l as [|w l IH]; intros [|j] Hj; cbn [map nth] in *;
      try discriminate.
    + destruct (is_wildcard w); [reflexivity|discriminate].
    + now apply IH.
  - intros bytes. unfold PatternToBytes, aob_mask.
    destruct bytes as [|b r]; [split; reflexivity|].
    rewrite BytesToPattern_cons, extract_words_hex.
    split; [apply PatternToBytes_words_hex|].
    generalize (b :: r). intros l. induction l as [|x l IH]; [reflexivity|].
    cbn [map repeat length]. rewrite (proj1 (proj2 (hex_byte_word x))). now rewrite IH.
Qed.

End TextFacts.

Lemma Sim_stoul_digits (h l : Z) :
  0 <= h < 16 -> 0 <= l < 16 ->
  Sim.stoul [MemoryEngine.hex_digit h; MemoryEngine.hex_digit l]
  = MemoryEngine.Converted (16 * h + l).
Proof.
  intros Hh Hl.
  assert (Eh : h = Z.of_nat (Z.to_nat h)) by lia.
  assert (El : l = Z.of_nat (Z.to_nat l)) by lia.
  assert (Hh' : (Z.to_nat h < 16)%nat) by lia.
  assert (Hl' : (Z.to_nat l < 16)%nat) by lia.
  rewrite Eh, El. clear Eh El Hh Hl.
  generalize dependent (Z.to_nat l). generalize dependent (Z.to_nat h).
  intros a Ha b Hb.
  do 16 (destruct a as [|a]; [do 16 (destruct b as [|b]; [reflexivity|]); lia|]).
  lia.
Qed.

Lemma HexStringToBytes_BytesToHexString_witness :
  MemoryEngine.HexStringToBytes Sim.stoul
    (MemoryEngine.BytesToHexString [0xDE; 0xAD; 0x0B])
  = MemoryEngine.Converted (map uint8 [0xDE; 0xAD; 0x0B]).
Proof.
  exact (HexStringToBytes_BytesToHexString Sim.stoul Sim_stoul_digits [0xDE; 0xAD; 0x0B]).
Defined.

Lemma AOB_pattern_and_mask_witness :
  (forall pattern bytes,
      MemoryEngine.PatternToBytes Sim.stoul pattern = MemoryEngine.Converted bytes ->
      length (MemoryEngine.aob_mask pattern) = length bytes
      /\ forall j, nth j (MemoryEngine.aob_mask pattern) 0 = 63 -> nth j bytes 0 = 0)
  /\ (forall bytes,
         MemoryEngine.PatternToBytes Sim.stoul (MemoryEngine.BytesToPattern bytes)
         = MemoryEngine.Converted (map uint8 bytes)
         /\ MemoryEngine.aob_mask (MemoryEngine.BytesToPattern bytes)
            = repeat 120 (length bytes)).
Proof.
  exact (AOB_pattern_and_mask Sim.stoul Sim_stoul_digits).
Defined.
